(** * Overlap-add FFT convolution of the Multi-Q linear-phase simulation

    Shallow embedding of [tests/test_multiq_linear_phase.py]:
    [create_flat_ir_frequency_domain] and [process_overlap_add].

    Samples are Python floats in the source; here they are real numbers, so
    every statement below is about the algorithm in exact arithmetic.
    Buffers are lists updated by index, cursors are natural numbers. *)

From Stdlib Require Import Reals Lra Lia ZArith.
From stdpp Require Import list.

#[global] Instance R_inhabited : Inhabited R := populate 0%R.

(** ** The engine state

    The local variables of [process_overlap_add] that live across loop
    iterations. *)

Record engine : Type := Engine {
  input_accum : list R;        (* circular input buffer, filter_length slots *)
  output_accum : list R;       (* overlap-add accumulator, 2 * fft_size slots *)
  latency_delay : list R;      (* latency compensation delay, 2 * fft_size slots *)
  input_write_pos : nat;
  output_read_pos : nat;
  delay_write_pos : nat;
  delay_read_pos : nat;
  samples_in_buffer : nat
}.

Definition fft_size_of (filter_length : nat) : nat := filter_length * 2.
Definition hop_size_of (filter_length : nat) : nat := filter_length / 2.
Definition latency_of (filter_length : nat) : nat := filter_length / 2.

(** Lines 55-64: freshly allocated zero buffers, the delay write cursor
    started [latency] slots ahead of the read cursor. *)
Definition init_engine (filter_length : nat) : engine :=
  {| input_accum := replicate filter_length 0%R;
     output_accum := replicate (fft_size_of filter_length * 2) 0%R;
     latency_delay := replicate (fft_size_of filter_length * 2) 0%R;
     input_write_pos := 0;
     output_read_pos := 0;
     delay_write_pos := latency_of filter_length;
     delay_read_pos := 0;
     samples_in_buffer := 0 |}.

(** Line 80: [(input_write_pos - filter_length + j + filter_length) %
    filter_length], computed over Python's unbounded integers. *)
Definition gather_idx (filter_length input_write_pos j : nat) : nat :=
  Z.to_nat ((Z.of_nat input_write_pos - Z.of_nat filter_length
             + Z.of_nat j + Z.of_nat filter_length) mod Z.of_nat filter_length).

(** Lines 78-82: the last [filter_length] samples, oldest first, followed by
    the implicit zero padding up to [fft_size]. *)
Definition gather (filter_length : nat) (ia : list R) (iwp : nat) : list R :=
  ((λ j, ia !!! gather_idx filter_length iwp j) <$> seq 0 filter_length)
  ++ replicate (fft_size_of filter_length - filter_length) 0%R.

(** Lines 95-97: [output_accum[(output_read_pos + j) % (fft_size * 2)] +=
    time_output[j]] for [j] in [range(fft_size)]. *)
Definition overlap_add (filter_length orp : nat) (time_output oa : list R) : list R :=
  foldl (λ acc j,
           let write_idx := (orp + j) mod (fft_size_of filter_length * 2) in
           <[write_idx := (acc !!! write_idx + time_output !!! j)%R]> acc)
        oa (seq 0 (fft_size_of filter_length)).

Section Engine.

(** [transform] stands for lines 85-92, the map from [fft_buffer] to
    [time_output]; [compensate] is the drain-time gain of line 105
    (division by two in the source). *)
Variable transform : list R → list R.
Variable compensate : R → R.

(** Lines 103-107: one pass of the transfer loop. *)
Definition drain_one (filter_length orp : nat)
    (s : list R * list R * nat) (j : nat) : list R * list R * nat :=
  let '(dl, oa, dwp) := s in
  let read_idx := (orp + j) mod (fft_size_of filter_length * 2) in
  (<[dwp := compensate (oa !!! read_idx)]> dl,
   <[read_idx := 0%R]> oa,
   (dwp + 1) mod (fft_size_of filter_length * 2)).

Definition drain (filter_length orp : nat) (s : list R * list R * nat)
    : list R * list R * nat :=
  foldl (drain_one filter_length orp) s (seq 0 (hop_size_of filter_length)).

(** Lines 77-110: the body of [if samples_in_buffer >= hop_size], run on
    the state in which the new sample is already stored. *)
Definition process_block (filter_length : nat) (st : engine) : engine :=
  let fft_buffer := gather filter_length (input_accum st) (input_write_pos st) in
  let time_output := transform fft_buffer in
  let oa := overlap_add filter_length (output_read_pos st) time_output
              (output_accum st) in
  let '(dl, oa', dwp) :=
    drain filter_length (output_read_pos st)
      (latency_delay st, oa, delay_write_pos st) in
  {| input_accum := input_accum st;
     output_accum := oa';
     latency_delay := dl;
     input_write_pos := input_write_pos st;
     output_read_pos :=
       (output_read_pos st + hop_size_of filter_length)
         mod (fft_size_of filter_length * 2);
     delay_write_pos := dwp;
     delay_read_pos := delay_read_pos st;
     samples_in_buffer := 0 |}.

(** Lines 71-73: store the sample, advance the write cursor, count it. *)
Definition push (filter_length : nat) (st : engine) (x : R) : engine :=
  {| input_accum := <[input_write_pos st := x]> (input_accum st);
     output_accum := output_accum st;
     latency_delay := latency_delay st;
     input_write_pos := (input_write_pos st + 1) mod filter_length;
     output_read_pos := output_read_pos st;
     delay_write_pos := delay_write_pos st;
     delay_read_pos := delay_read_pos st;
     samples_in_buffer := samples_in_buffer st + 1 |}.

(** Line 76: the trigger test, on the state after [push]. *)
Definition triggers (filter_length : nat) (st : engine) : bool :=
  bool_decide (hop_size_of filter_length ≤ samples_in_buffer st).

(** Lines 113-114: read one delayed sample and advance the read cursor. *)
Definition read_out (filter_length : nat) (st : engine) : engine * R :=
  ({| input_accum := input_accum st;
      output_accum := output_accum st;
      latency_delay := latency_delay st;
      input_write_pos := input_write_pos st;
      output_read_pos := output_read_pos st;
      delay_write_pos := delay_write_pos st;
      delay_read_pos :=
        (delay_read_pos st + 1) mod (fft_size_of filter_length * 2);
      samples_in_buffer := samples_in_buffer st |},
   latency_delay st !!! delay_read_pos st).

(** One iteration of the sample loop (lines 69-114). *)
Definition step (filter_length : nat) (st : engine) (x : R) : engine * R :=
  let st1 := push filter_length st x in
  let st2 := if triggers filter_length st1
             then process_block filter_length st1 else st1 in
  read_out filter_length st2.

(** The loop itself: the state and the outputs emitted so far. *)
Definition run_from (filter_length : nat) (s : engine * list R)
    (input_signal : list R) : engine * list R :=
  foldl (λ '(st, out) x,
           let '(st', y) := step filter_length st x in (st', out ++ [y]))
        s input_signal.

Definition run (filter_length : nat) (input_signal : list R) : engine * list R :=
  run_from filter_length (init_engine filter_length, []) input_signal.

(** The whole function.  With [filter_length = 0] the very first store
    [input_accum[0] = ...] is out of range and NumPy raises; an empty input
    never enters the loop.  This is the function on a store of at least
    [filter_length + 1] bins; [process_overlap_add_checked] below has the
    exceptions of every store. *)
Definition process (filter_length : nat) (input_signal : list R)
    : option (list R) :=
  match input_signal with
  | [] => Some []
  | _ :: _ =>
      if decide (filter_length = 0) then None
      else Some (run filter_length input_signal).2
  end.

(** How many iterations of the sample loop over [input_signal] run a
    block: the loop again, with a counter next to the state. *)
Definition blocks_run (filter_length : nat) (input_signal : list R) : nat :=
  (foldl (λ '(st, n) x,
            let st1 := push filter_length st x in
            ((step filter_length st x).1,
             if triggers filter_length st1 then S n else n))
         (init_engine filter_length, 0) input_signal).2.

End Engine.

(** ** The spectral step

    NumPy's real transforms, by their documented definitions.  A complex bin
    is a pair (real part, imaginary part). *)

Fixpoint big_sum (n : nat) (f : nat → R) : R :=
  match n with
  | 0 => 0%R
  | S n' => (big_sum n' f + f n')%R
  end.

(** The angle [2 pi k m / n]. *)
Definition omega (n k m : nat) : R := (2 * PI * INR k * INR m / INR n)%R.

Definition cmul (a b : R * R) : R * R :=
  ((a.1 * b.1 - a.2 * b.2)%R, (a.1 * b.2 + a.2 * b.1)%R).

(** [np.fft.rfft(a, n)]: bins [0 .. n // 2] of the forward transform of the
    first [n] entries of [a], [A_k = sum_m a_m exp(-2 pi i m k / n)]. *)
Definition rfft (a : list R) (n : nat) : list (R * R) :=
  (λ k, (big_sum n (λ m, a !!! m * cos (omega n k m)),
         - big_sum n (λ m, a !!! m * sin (omega n k m)))%R)
  <$> seq 0 (n / 2 + 1).

(** Weight of bin [k] in the inverse real transform: the bins strictly
    between DC and Nyquist stand for themselves and their conjugates. *)
Definition bin_weight (n k : nat) : R :=
  if decide (k = 0 ∨ 2 * k = n) then 1%R else 2%R.

(** [np.fft.irfft(a, n)]: the real signal of length [n] whose half spectrum
    is [a], scaled by [1 / n]; the imaginary parts of DC and Nyquist do not
    contribute. *)
Definition irfft (a : list (R * R)) (n : nat) : list R :=
  (λ m, (big_sum (n / 2 + 1)
           (λ k, bin_weight n k *
                 ((a !!! k).1 * cos (omega n k m) - (a !!! k).2 * sin (omega n k m)))
         / INR n)%R)
  <$> seq 0 n.

(** Line 88: the first [bins] complex values of an interleaved store.  The
    store is read as NumPy reads it when it holds at least [2 * bins]
    entries; a shorter one, which NumPy would broadcast or reject, is outside
    this model, and the statements that depend on what the store holds assume
    [ir_store_ok].  [ir_complex_checked] below follows NumPy on every
    store. *)
Definition ir_complex (ir_freq_domain : list R) (bins : nat) : list (R * R) :=
  (λ k, (ir_freq_domain !!! (2 * k), ir_freq_domain !!! (2 * k + 1)))
  <$> seq 0 bins.

(** Lines 85-92: forward transform, multiplication by the IR spectrum,
    inverse transform. *)
Definition spectral (ir_freq_domain : list R) (filter_length : nat)
    (fft_buffer : list R) : list R :=
  let fft_size := fft_size_of filter_length in
  let freq_input := rfft fft_buffer fft_size in
  let freq_output :=
    zip_with cmul freq_input (ir_complex ir_freq_domain (length freq_input)) in
  irfft freq_output fft_size.

(** Lines 33-35: real parts to the even slots, imaginary parts to the odd
    slots of a zero array of [n] entries. *)
Definition interleave (bins : list (R * R)) (n : nat) : list R :=
  let evens :=
    foldl (λ r k, <[2 * k := (bins !!! k).1]> r) (replicate n 0%R)
          (seq 0 (length bins)) in
  foldl (λ r k, <[2 * k + 1 := (bins !!! k).2]> r) evens (seq 0 (length bins)).

(** [create_flat_ir_frequency_domain].  The store at line 27 is out of range,
    and NumPy raises, when [filter_length // 2 >= conv_fft_size]. *)
Definition create_flat_ir_frequency_domain (filter_length conv_fft_size : nat)
    : option (list R) :=
  if decide (filter_length / 2 < conv_fft_size) then
    let time_domain := <[filter_length / 2 := 1%R]> (replicate conv_fft_size 0%R) in
    let freq_domain := rfft time_domain conv_fft_size in
    Some (interleave freq_domain (conv_fft_size * 2))
  else None.

(** ** [process_overlap_add] *)

Definition halve (x : R) : R := (x / 2)%R.

Definition process_overlap_add (input_signal ir_freq_domain : list R)
    (filter_length : nat) : option (list R) :=
  process (spectral ir_freq_domain filter_length) halve filter_length input_signal.

(** The same loop with the division by two at line 105 removed. *)
Definition process_overlap_add_no_halving (input_signal ir_freq_domain : list R)
    (filter_length : nat) : option (list R) :=
  process (spectral ir_freq_domain filter_length) (λ x, x) filter_length input_signal.

(** ** Well-formed states *)

Definition accum_size (filter_length : nat) : nat := fft_size_of filter_length * 2.

Record wf (L : nat) (st : engine) : Prop := {
  wf_ia : length (input_accum st) = L;
  wf_oa : length (output_accum st) = accum_size L;
  wf_dl : length (latency_delay st) = accum_size L;
  wf_iwp : input_write_pos st < L;
  wf_orp : output_read_pos st < accum_size L;
  wf_dwp : delay_write_pos st < accum_size L;
  wf_drp : delay_read_pos st < accum_size L
}.


(** ** Relations and invariants used by the proofs *)

Definition twice (x : R) : R := (2 * x)%R.

(** The engine without the halving and the engine with it move in lock
    step: same buffers and cursors, except that the delay line of the former
    holds twice what the delay line of the latter holds. *)
Definition doubles (st st2 : engine) : Prop :=
  st2 = {| input_accum := input_accum st;
           output_accum := output_accum st;
           latency_delay := twice <$> latency_delay st;
           input_write_pos := input_write_pos st;
           output_read_pos := output_read_pos st;
           delay_write_pos := delay_write_pos st;
           delay_read_pos := delay_read_pos st;
           samples_in_buffer := samples_in_buffer st |}.

(** The IR store holds at least the [filter_length + 1] interleaved bins
    that line 88 slices out of it. *)
Definition ir_store_ok (ir_freq_domain : list R) (filter_length : nat) : Prop :=
  (filter_length + 1) * 2 ≤ length ir_freq_domain.

(** The engine state reached by [process_overlap_add] after consuming
    [input_signal]. *)
Definition engine_after (input_signal ir_freq_domain : list R)
    (filter_length : nat) : engine :=
  (run (spectral ir_freq_domain filter_length) halve filter_length input_signal).1.

(** Slot [p] of the accumulator belongs to the part of the most recent
    convolution output that has not been drained yet: the [fft_size - hop]
    slots from the read position on. *)
Definition pending_slot (L : nat) (st : engine) (p : nat) : Prop :=
  ∃ j, j < fft_size_of L - hop_size_of L ∧
       p = (output_read_pos st + j) mod accum_size L.

(** Every slot outside the pending region is zero. *)
Definition accum_clean (L : nat) (st : engine) : Prop :=
  ∀ j, fft_size_of L - hop_size_of L ≤ j < accum_size L →
       output_accum st !!! ((output_read_pos st + j) mod accum_size L) = 0%R.

(** The overlap-add of the iteration that consumes [x] in state [st] writes
    slot [p]. *)
Definition lands (L : nat) (st : engine) (x : R) (p : nat) : Prop :=
  triggers L (push L st x) = true ∧
  ∃ j, j < fft_size_of L ∧ p = (output_read_pos st + j) mod accum_size L.

(** Bin [k] of the forward transform, in closed form. *)
Definition rfft_bin (a : list R) (n k : nat) : R * R :=
  (big_sum n (λ m, a !!! m * cos (omega n k m)),
   - big_sum n (λ m, a !!! m * sin (omega n k m)))%R.

(** Sample [i] of the output of [spectral], in closed form. *)
Definition spectral_at (ir_freq_domain : list R) (filter_length : nat)
    (fft_buffer : list R) (i : nat) : R :=
  let n := fft_size_of filter_length in
  (big_sum (filter_length + 1)
     (λ k, let y := cmul (rfft_bin fft_buffer n k)
                      (ir_freq_domain !!! (2 * k)%nat,
                       ir_freq_domain !!! (2 * k + 1)%nat) in
           bin_weight n k * (y.1 * cos (omega n k i) - y.2 * sin (omega n k i)))
   / INR n)%R.

(** [l] is the combination [a * l1 + b * l2], slot by slot. *)
Definition lincomb (a b : R) (l l1 l2 : list R) : Prop :=
  length l1 = length l ∧ length l2 = length l ∧
  ∀ p, l !!! p = (a * l1 !!! p + b * l2 !!! p)%R.

(** The engine fed [a * x + b * y] against the engines fed [x] and [y]:
    same cursors, buffers combined slot by slot. *)
Record lin_state (a b : R) (st s1 s2 : engine) : Prop := {
  lin_ia : lincomb a b (input_accum st) (input_accum s1) (input_accum s2);
  lin_oa : lincomb a b (output_accum st) (output_accum s1) (output_accum s2);
  lin_dl : lincomb a b (latency_delay st) (latency_delay s1) (latency_delay s2);
  lin_iwp : input_write_pos s1 = input_write_pos st
            ∧ input_write_pos s2 = input_write_pos st;
  lin_orp : output_read_pos s1 = output_read_pos st
            ∧ output_read_pos s2 = output_read_pos st;
  lin_dwp : delay_write_pos s1 = delay_write_pos st
            ∧ delay_write_pos s2 = delay_write_pos st;
  lin_drp : delay_read_pos s1 = delay_read_pos st
            ∧ delay_read_pos s2 = delay_read_pos st;
  lin_sib : samples_in_buffer s1 = samples_in_buffer st
            ∧ samples_in_buffer s2 = samples_in_buffer st
}.

(** The inverse transform of a pure phase ramp: the weighted cosine sum
    [(1 / n) * sum_k w_k cos (2 pi k e / n)] over the bins [0 .. n / 2]. *)
Definition dirichlet (L e : nat) : R :=
  (big_sum (L + 1)
     (λ k, bin_weight (fft_size_of L) k * cos (omega (fft_size_of L) k e))
   / INR (fft_size_of L))%R.

(** The store that [create_flat_ir_frequency_domain filter_length
    (2 * filter_length)] returns. *)
Definition flat_store (filter_length : nat) : list R :=
  interleave
    (rfft (<[filter_length / 2 := 1%R]> (replicate (fft_size_of filter_length) 0%R))
          (fft_size_of filter_length))
    (fft_size_of filter_length * 2).

(** The sample of [xs] that entered [d] iterations before time [t]; zero
    before the stream started. *)
Definition past (xs : list R) (t d : nat) : R :=
  if decide (d ≤ t) then xs !!! (t - d) else 0%R.

(** With the flat store, how many pending block outputs carry the input
    sample that belongs to the accumulator slot [j] hops-offsets after the
    read position. *)
Definition overlap_count (H j : nat) : R :=
  if decide (j < H) then 2%R else if decide (j < 2 * H) then 1%R else 0%R.

(** The pass-through engine with [filter_length = 2 * H], after [n] samples
    of [input], the last block having run at time [T]. *)
Record passthrough_inv (H : nat) (input : list R) (n T : nat) (st : engine)
    : Prop := {
  pt_time : T ≤ n < T + H;
  pt_sib : samples_in_buffer st = n - T;
  pt_iwp : input_write_pos st = n mod (2 * H);
  pt_orp : output_read_pos st = T mod (8 * H);
  pt_dwp : delay_write_pos st = (T + H) mod (8 * H);
  pt_drp : delay_read_pos st = n mod (8 * H);
  pt_ia : ∀ j, j < 2 * H →
      input_accum st !!! ((n + j) mod (2 * H)) = past input (n + j) (2 * H);
  pt_oa : ∀ j, j < 8 * H →
      output_accum st !!! ((T + j) mod (8 * H)) =
        (overlap_count H j * past input (T + j) (2 * H))%R;
  pt_dl : ∀ j, j < 8 * H →
      latency_delay st !!! ((T + H + j) mod (8 * H)) =
        past input (T + H + j) (8 * H + 3 * H)
}.

(** Lines 139-140 of [main]: [num_samples] samples of a sine of frequency
    [test_freq] at [sample_rate]. *)
Definition test_signal (sample_rate test_freq : R) (num_samples : nat) : list R :=
  (λ n, sin (2 * PI * test_freq * (INR n / sample_rate))%R) <$> seq 0 num_samples.

(** ** Definitions for the further properties *)

(** The time-domain taps a store stands for: the inverse transform of its
    first [filter_length + 1] bins. *)
Definition ir_taps (ir_freq_domain : list R) (filter_length : nat) : list R :=
  irfft (ir_complex ir_freq_domain (filter_length + 1)) (fft_size_of filter_length).

(** Sample [n] of the block output for the window that ends at time [T]
    (the last [2 * H] samples before [T]), for taps [h]: the circular
    convolution of the zero-padded window with [h] in a frame of [4 * H]. *)
Definition block_out (h input : list R) (H T n : nat) : R :=
  big_sum (2 * H)
    (λ m, past input (T + m) (2 * H) * h !!! ((n + 4 * H - m) mod (4 * H)))%R.

(** What the accumulator slot [j] slots after the read position holds when
    the last block ran at time [T]: the not yet drained samples of the last
    three block outputs that reach it. *)
Definition pending_sum (h input : list R) (H T j : nat) : R :=
  ((if decide (j < 3 * H)%nat then block_out h input H T (j + H) else 0)
   + (if decide (j < 2 * H)%nat
      then block_out h input H (T - H) (j + 2 * H) else 0)
   + (if decide (j < H)%nat
      then block_out h input H (T - 2 * H) (j + 3 * H) else 0))%R.

(** The linear convolution of the input with the taps [h[0 .. L]], delayed
    by [s + L] samples, at time [t]. *)
Definition delayed_convolution (h input : list R) (L s t : nat) : R :=
  big_sum (L + 1) (λ d, h !!! d * past input t (s + L + d))%R.

(** The engine with [filter_length = 2 * H] and a store of taps [h], after
    [n] samples of [input], the last block having run at time [T]. *)
Record overlap_inv (H : nat) (h input : list R) (n T : nat) (st : engine)
    : Prop := {
  ov_time : T ≤ n < T + H;
  ov_sib : samples_in_buffer st = n - T;
  ov_iwp : input_write_pos st = n mod (2 * H);
  ov_orp : output_read_pos st = T mod (8 * H);
  ov_dwp : delay_write_pos st = (T + H) mod (8 * H);
  ov_drp : delay_read_pos st = n mod (8 * H);
  ov_ia : ∀ j, j < 2 * H →
      input_accum st !!! ((n + j) mod (2 * H)) = past input (n + j) (2 * H);
  ov_oa : ∀ j, j < 8 * H →
      output_accum st !!! ((T + j) mod (8 * H)) = pending_sum h input H T j;
  ov_dl : ∀ j, j < 8 * H →
      latency_delay st !!! ((T + H + j) mod (8 * H)) =
        delayed_convolution h input (2 * H) (8 * H) (T + H + j)
}.

(** Two stores agree on every entry the spectral step uses: the real parts
    of the DC and Nyquist bins and both parts of the bins in between. *)
Definition same_bins (ir1 ir2 : list R) (filter_length : nat) : Prop :=
  ir1 !!! 0 = ir2 !!! 0 ∧
  ir1 !!! (2 * filter_length) = ir2 !!! (2 * filter_length) ∧
  ∀ k, 0 < k < filter_length →
       ir1 !!! (2 * k) = ir2 !!! (2 * k) ∧ ir1 !!! (2 * k + 1) = ir2 !!! (2 * k + 1).

(** ** The function with its error paths

    The definitions above read and write lists totally: an index out of
    range reads 0 and writes nothing.  Python and NumPy raise instead.  The
    definitions of this part follow lines 40-116 statement by statement with
    every operation that can raise made explicit: item access and item
    assignment ([IndexError]), [%] ([ZeroDivisionError]), the transforms on
    an empty frame and the broadcasting of lines 88-89 ([ValueError]).
    [ir_freq_domain] is a one-dimensional array of floats and [input_signal]
    a sequence of floats, as [main] passes them. *)

Inductive error : Type := IndexError | ValueError | ZeroDivisionError.

Inductive outcome (A : Type) : Type :=
  | Returns (a : A)
  | Raises (e : error).
Arguments Returns {A} a.
Arguments Raises {A} e.

#[global] Instance outcome_ret : MRet outcome := @Returns.
#[global] Instance outcome_bind : MBind outcome := λ A B f m,
  match m with
  | Returns a => f a
  | Raises e => Raises e
  end.

(** [a[i]] *)
Definition item (a : list R) (i : nat) : outcome R :=
  match a !! i with
  | Some x => Returns x
  | None => Raises IndexError
  end.

(** [a[i] = x] *)
Definition set_item (a : list R) (i : nat) (x : R) : outcome (list R) :=
  if decide (i < length a) then Returns (<[i := x]> a) else Raises IndexError.

(** [a % m] *)
Definition modulo (a m : nat) : outcome nat :=
  if decide (m = 0) then Raises ZeroDivisionError else Returns (a mod m).

(** A [for] loop over [l] that threads the variables [s] through [body] and
    stops at the first exception. *)
Fixpoint for_each {S A : Type} (body : S → A → outcome S) (s : S) (l : list A)
    : outcome S :=
  match l with
  | [] => Returns s
  | a :: l' => s' ← body s a; for_each body s' l'
  end.

(** [a[start::2]] for [start] 0 or 1. *)
Definition every_other (start : nat) (a : list R) : list R :=
  (λ k, a !!! (start + 2 * k)) <$> seq 0 ((length a + 1 - start) / 2).

(** An elementwise binary operation on two one-dimensional arrays under
    NumPy's broadcasting rule: equal lengths pair up, a one-element array is
    stretched to the other's length, anything else is rejected. *)
Definition broadcast {A B C : Type} (f : A → B → C) (xs : list A) (ys : list B)
    : outcome (list C) :=
  if decide (length xs = length ys) then Returns (zip_with f xs ys)
  else match xs, ys with
       | [x], _ => Returns (f x <$> ys)
       | _, [y] => Returns ((λ x, f x y) <$> xs)
       | _, _ => Raises ValueError
       end.

(** [np.fft.rfft(a, n)] and [np.fft.irfft(a, n)] reject [n = 0]. *)
Definition rfft_checked (a : list R) (n : nat) : outcome (list (R * R)) :=
  if decide (n = 0) then Raises ValueError else Returns (rfft a n).

Definition irfft_checked (a : list (R * R)) (n : nat) : outcome (list R) :=
  if decide (n = 0) then Raises ValueError else Returns (irfft a n).

(** Line 88: [ir_freq_domain[::2][:n] + 1j * ir_freq_domain[1::2][:n]]. *)
Definition ir_complex_checked (ir_freq_domain : list R) (n : nat)
    : outcome (list (R * R)) :=
  broadcast (λ re im, (re, im))
    (take n (every_other 0 ir_freq_domain))
    (take n (every_other 1 ir_freq_domain)).

(** Lines 85-92. *)
Definition spectral_checked (ir_freq_domain : list R) (filter_length : nat)
    (fft_buffer : list R) : outcome (list R) :=
  let fft_size := fft_size_of filter_length in
  freq_input ← rfft_checked fft_buffer fft_size;
  ir_complex ← ir_complex_checked ir_freq_domain (length freq_input);
  freq_output ← broadcast cmul freq_input ir_complex;
  irfft_checked freq_output fft_size.

(** Lines 78-82. *)
Definition gather_checked (filter_length : nat) (ia : list R) (iwp : nat)
    : outcome (list R) :=
  for_each (λ fft_buffer j,
              if decide (filter_length = 0) then Raises ZeroDivisionError
              else x ← item ia (gather_idx filter_length iwp j);
                   set_item fft_buffer j x)
           (replicate (fft_size_of filter_length) 0%R) (seq 0 filter_length).

(** Lines 95-97. *)
Definition overlap_add_checked (filter_length orp : nat)
    (time_output oa : list R) : outcome (list R) :=
  for_each (λ acc j,
              write_idx ← modulo (orp + j) (fft_size_of filter_length * 2);
              a ← item acc write_idx;
              t ← item time_output j;
              set_item acc write_idx (a + t)%R)
           oa (seq 0 (fft_size_of filter_length)).

(** Lines 103-107. *)
Definition drain_one_checked (filter_length orp : nat)
    (s : list R * list R * nat) (j : nat) : outcome (list R * list R * nat) :=
  let '(dl, oa, dwp) := s in
  read_idx ← modulo (orp + j) (fft_size_of filter_length * 2);
  a ← item oa read_idx;
  dl' ← set_item dl dwp (a / 2)%R;
  oa' ← set_item oa read_idx 0%R;
  dwp' ← modulo (dwp + 1) (fft_size_of filter_length * 2);
  Returns (dl', oa', dwp').

Definition drain_checked (filter_length orp : nat) (s : list R * list R * nat)
    : outcome (list R * list R * nat) :=
  for_each (drain_one_checked filter_length orp) s
           (seq 0 (hop_size_of filter_length)).

(** Lines 77-110. *)
Definition process_block_checked (ir_freq_domain : list R) (filter_length : nat)
    (st : engine) : outcome engine :=
  fft_buffer ← gather_checked filter_length (input_accum st) (input_write_pos st);
  time_output ← spectral_checked ir_freq_domain filter_length fft_buffer;
  oa ← overlap_add_checked filter_length (output_read_pos st) time_output
         (output_accum st);
  '(dl, oa', dwp) ← drain_checked filter_length (output_read_pos st)
                      (latency_delay st, oa, delay_write_pos st);
  orp ← modulo (output_read_pos st + hop_size_of filter_length)
          (fft_size_of filter_length * 2);
  Returns {| input_accum := input_accum st;
             output_accum := oa';
             latency_delay := dl;
             input_write_pos := input_write_pos st;
             output_read_pos := orp;
             delay_write_pos := dwp;
             delay_read_pos := delay_read_pos st;
             samples_in_buffer := 0 |}.

(** Lines 71-73. *)
Definition push_checked (filter_length : nat) (st : engine) (x : R)
    : outcome engine :=
  ia ← set_item (input_accum st) (input_write_pos st) x;
  iwp ← modulo (input_write_pos st + 1) filter_length;
  Returns {| input_accum := ia;
             output_accum := output_accum st;
             latency_delay := latency_delay st;
             input_write_pos := iwp;
             output_read_pos := output_read_pos st;
             delay_write_pos := delay_write_pos st;
             delay_read_pos := delay_read_pos st;
             samples_in_buffer := samples_in_buffer st + 1 |}.

(** Lines 113-114. *)
Definition read_out_checked (filter_length : nat) (st : engine)
    : outcome (engine * R) :=
  y ← item (latency_delay st) (delay_read_pos st);
  drp ← modulo (delay_read_pos st + 1) (fft_size_of filter_length * 2);
  Returns ({| input_accum := input_accum st;
              output_accum := output_accum st;
              latency_delay := latency_delay st;
              input_write_pos := input_write_pos st;
              output_read_pos := output_read_pos st;
              delay_write_pos := delay_write_pos st;
              delay_read_pos := drp;
              samples_in_buffer := samples_in_buffer st |}, y).

(** One iteration of the sample loop, lines 69-114. *)
Definition step_checked (ir_freq_domain : list R) (filter_length : nat)
    (s : engine * list R) (x : R) : outcome (engine * list R) :=
  st1 ← push_checked filter_length s.1 x;
  st2 ← (if triggers filter_length st1
         then process_block_checked ir_freq_domain filter_length st1
         else Returns st1);
  '(st3, y) ← read_out_checked filter_length st2;
  Returns (st3, s.2 ++ [y]).

Definition run_checked_from (ir_freq_domain : list R) (filter_length : nat)
    (s : engine * list R) (input_signal : list R) : outcome (engine * list R) :=
  for_each (step_checked ir_freq_domain filter_length) s input_signal.

(** [process_overlap_add], lines 40-116. *)
Definition process_overlap_add_checked (input_signal ir_freq_domain : list R)
    (filter_length : nat) : outcome (list R) :=
  s ← run_checked_from ir_freq_domain filter_length
        (init_engine filter_length, []) input_signal;
  Returns s.2.

(** The lengths of store that lines 88-89 accept for [filter_length]: the
    [filter_length + 1] bins or more, one single bin (stretched over every
    bin), or, for [filter_length = 1], three entries (the lone imaginary part
    stretched over both bins). *)
Definition store_shape_ok (len filter_length : nat) : Prop :=
  (filter_length + 1) * 2 ≤ len ∨ len = 2 ∨ (filter_length = 1 ∧ len = 3).

(** ** Re-running on variables that already hold values

    Lines 55-64 are assignments.  [reset] runs them on a frame of variables
    that may hold anything, as when the body is entered again after an
    earlier run. *)
Definition set_input_accum (v : list R) (st : engine) : engine :=
  Engine v (output_accum st) (latency_delay st) (input_write_pos st)
    (output_read_pos st) (delay_write_pos st) (delay_read_pos st)
    (samples_in_buffer st).
Definition set_output_accum (v : list R) (st : engine) : engine :=
  Engine (input_accum st) v (latency_delay st) (input_write_pos st)
    (output_read_pos st) (delay_write_pos st) (delay_read_pos st)
    (samples_in_buffer st).
Definition set_latency_delay (v : list R) (st : engine) : engine :=
  Engine (input_accum st) (output_accum st) v (input_write_pos st)
    (output_read_pos st) (delay_write_pos st) (delay_read_pos st)
    (samples_in_buffer st).
Definition set_input_write_pos (v : nat) (st : engine) : engine :=
  Engine (input_accum st) (output_accum st) (latency_delay st) v
    (output_read_pos st) (delay_write_pos st) (delay_read_pos st)
    (samples_in_buffer st).
Definition set_output_read_pos (v : nat) (st : engine) : engine :=
  Engine (input_accum st) (output_accum st) (latency_delay st)
    (input_write_pos st) v (delay_write_pos st) (delay_read_pos st)
    (samples_in_buffer st).
Definition set_delay_write_pos (v : nat) (st : engine) : engine :=
  Engine (input_accum st) (output_accum st) (latency_delay st)
    (input_write_pos st) (output_read_pos st) v (delay_read_pos st)
    (samples_in_buffer st).
Definition set_delay_read_pos (v : nat) (st : engine) : engine :=
  Engine (input_accum st) (output_accum st) (latency_delay st)
    (input_write_pos st) (output_read_pos st) (delay_write_pos st) v
    (samples_in_buffer st).
Definition set_samples_in_buffer (v : nat) (st : engine) : engine :=
  Engine (input_accum st) (output_accum st) (latency_delay st)
    (input_write_pos st) (output_read_pos st) (delay_write_pos st)
    (delay_read_pos st) v.

Definition reset (filter_length : nat) (st : engine) : engine :=
  let fft_size := fft_size_of filter_length in
  let latency := latency_of filter_length in
  let st := set_input_accum (replicate filter_length 0%R) st in     (* line 55 *)
  let st := set_output_accum (replicate (fft_size * 2) 0%R) st in   (* line 56 *)
  let st := set_latency_delay (replicate (fft_size * 2) 0%R) st in  (* line 57 *)
  let st := set_input_write_pos 0 st in                             (* line 60 *)
  let st := set_output_read_pos 0 st in                             (* line 61 *)
  let st := set_delay_write_pos latency st in                       (* line 62 *)
  let st := set_delay_read_pos 0 st in                              (* line 63 *)
  set_samples_in_buffer 0 st.                                       (* line 64 *)

(** Lines 55-116 entered with the variables as [st] left them: the final
    variables and the output. *)
Definition process_overlap_add_on (st : engine)
    (input_signal ir_freq_domain : list R) (filter_length : nat)
    : outcome (engine * list R) :=
  run_checked_from ir_freq_domain filter_length (reset filter_length st, [])
    input_signal.

(** ** Index arithmetic and indexed loops *)

Lemma mod_window_inj (M a i j : nat) :
  i < M → j < M → (a + i) mod M = (a + j) mod M → i = j.
Proof.
  intros Hi Hj Heq.
  pose proof (Nat.div_mod_eq (a + i) M) as E1.
  pose proof (Nat.div_mod_eq (a + j) M) as E2.
  rewrite Heq in E1.
  set (q1 := (a + i) / M) in *. set (q2 := (a + j) / M) in *.
  set (r := (a + j) mod M) in *.
  destruct (lt_eq_lt_dec q1 q2) as [[Hlt|Heq']|Hgt].
  - assert (M * q1 + M ≤ M * q2) by nia. lia.
  - rewrite Heq' in E1. lia.
  - assert (M * q2 + M ≤ M * q1) by nia. lia.
Qed.

Lemma gather_idx_eq (L iwp j : nat) :
  gather_idx L iwp j = (iwp + j) mod L.
Proof.
  unfold gather_idx.
  replace (Z.of_nat iwp - Z.of_nat L + Z.of_nat j + Z.of_nat L)%Z
    with (Z.of_nat (iwp + j)) by lia.
  destruct L as [|L].
  - simpl. rewrite Z.mod_0_r. lia.
  - rewrite <- Nat2Z.inj_mod. apply Nat2Z.id.
Qed.

(** A loop that rewrites the slots [idx 0 .. idx (c - 1)], all distinct,
    each from its own old content. *)
Lemma foldl_insert_spec {A} `{Inhabited A} (idx : nat → nat) (f : nat → A → A)
    (c : nat) (l : list A) :
  (∀ j, j < c → idx j < length l) →
  (∀ i j, i < c → j < c → idx i = idx j → i = j) →
  let r := foldl (λ acc j, <[idx j := f j (acc !!! idx j)]> acc) l (seq 0 c) in
  length r = length l ∧
  (∀ j, j < c → r !!! idx j = f j (l !!! idx j)) ∧
  (∀ p, (∀ j, j < c → idx j ≠ p) → r !!! p = l !!! p).
Proof.
  induction c as [|c IH]; intros Hlt Hinj; cbn zeta.
  - simpl. split; [done|]. split; [lia|done].
  - rewrite seq_S, foldl_snoc. simpl.
    destruct IH as (IHlen & IHhit & IHmiss).
    { intros j Hj. apply Hlt. lia. }
    { intros i j Hi Hj. apply Hinj; lia. }
    set (r := foldl _ l (seq 0 c)) in *.
    split; [by rewrite length_insert|]. split.
    + intros j Hj. destruct (decide (j = c)) as [->|Hne].
      * rewrite list_lookup_total_insert_eq by (rewrite IHlen; apply Hlt; lia).
        f_equal. apply IHmiss. intros j Hj' Heq. apply Hinj in Heq; lia.
      * rewrite list_lookup_total_insert_ne.
        -- apply IHhit. lia.
        -- intros Heq. apply Hinj in Heq; lia.
    + intros p Hp. rewrite list_lookup_total_insert_ne by (apply Hp; lia).
      apply IHmiss. intros j Hj. apply Hp. lia.
Qed.

Section Loops.
Variable L : nat.
Hypothesis L_pos : 0 < L.

Let M := fft_size_of L * 2.

Lemma accum_size_pos : 0 < M.
Proof. unfold M, fft_size_of. lia. Qed.

Lemma fft_le_accum : fft_size_of L ≤ M.
Proof. unfold M. lia. Qed.

Lemma hop_le_fft : hop_size_of L ≤ fft_size_of L.
Proof.
  unfold hop_size_of, fft_size_of.
  pose proof (Nat.Div0.div_le_upper_bound L 2 L). lia.
Qed.

Lemma overlap_add_spec (orp : nat) (ty oa : list R) :
  length oa = M →
  let oa' := overlap_add L orp ty oa in
  length oa' = M ∧
  (∀ j, j < fft_size_of L →
     oa' !!! ((orp + j) mod M) = (oa !!! ((orp + j) mod M) + ty !!! j)%R) ∧
  (∀ j, fft_size_of L ≤ j < M →
     oa' !!! ((orp + j) mod M) = oa !!! ((orp + j) mod M)).
Proof.
  intros Hlen. cbn zeta. unfold overlap_add. fold M.
  pose proof accum_size_pos as HM. pose proof fft_le_accum as HF.
  destruct (foldl_insert_spec (λ j, (orp + j) mod M)
              (λ j v, (v + ty !!! j)%R) (fft_size_of L) oa)
    as (Hl & Hhit & Hmiss).
  { intros j _. rewrite Hlen. apply Nat.mod_upper_bound. lia. }
  { intros i j Hi Hj. apply mod_window_inj; lia. }
  split; [by rewrite Hl|]. split.
  - intros j Hj. by apply Hhit.
  - intros j Hj. apply Hmiss. intros i Hi Heq.
    apply mod_window_inj in Heq; lia.
Qed.


Lemma drain_loop (compensate : R → R) (orp dwp c : nat) (dl oa : list R) :
  length oa = M → dwp < M → c ≤ M →
  foldl (drain_one compensate L orp) (dl, oa, dwp) (seq 0 c) =
    (foldl (λ acc j, <[(dwp + j) mod M :=
                         compensate (oa !!! ((orp + j) mod M))]> acc)
           dl (seq 0 c),
     foldl (λ acc j, <[(orp + j) mod M := 0%R]> acc) oa (seq 0 c),
     (dwp + c) mod M).
Proof.
  intros Hoa Hdwp. pose proof accum_size_pos as HM.
  induction c as [|c IH]; intros Hc.
  - simpl. rewrite Nat.add_0_r, Nat.mod_small; done.
  - rewrite !seq_S, !foldl_snoc, IH by lia. simpl. fold M.
    destruct (foldl_insert_spec (λ j, (orp + j) mod M) (λ _ _, 0%R) c oa)
      as (_ & _ & Hmiss).
    { intros j _. rewrite Hoa. apply Nat.mod_upper_bound. lia. }
    { intros i j Hi Hj. apply mod_window_inj; lia. }
    rewrite Hmiss.
    + f_equal. rewrite Nat.Div0.add_mod_idemp_l. f_equal. lia.
    + intros j Hj Heq. apply mod_window_inj in Heq; lia.
Qed.

Lemma drain_spec (compensate : R → R) (orp dwp : nat) (dl oa : list R) :
  length oa = M → length dl = M → dwp < M →
  ∃ dl' oa',
    drain compensate L orp (dl, oa, dwp) =
      (dl', oa', (dwp + hop_size_of L) mod M) ∧
    length dl' = M ∧ length oa' = M ∧
    (∀ j, j < hop_size_of L →
       dl' !!! ((dwp + j) mod M) = compensate (oa !!! ((orp + j) mod M))) ∧
    (∀ j, hop_size_of L ≤ j < M →
       dl' !!! ((dwp + j) mod M) = dl !!! ((dwp + j) mod M)) ∧
    (∀ j, j < hop_size_of L → oa' !!! ((orp + j) mod M) = 0%R) ∧
    (∀ j, hop_size_of L ≤ j < M →
       oa' !!! ((orp + j) mod M) = oa !!! ((orp + j) mod M)).
Proof.
  intros Hoa Hdl Hdwp. pose proof accum_size_pos as HM.
  pose proof hop_le_fft as HH. pose proof fft_le_accum as HF.
  unfold drain. rewrite drain_loop by lia.
  eexists _, _. split; [reflexivity|].
  destruct (foldl_insert_spec (λ j, (orp + j) mod M) (λ _ _, 0%R)
              (hop_size_of L) oa) as (Hl1 & Hhit1 & Hmiss1).
  { intros j _. rewrite Hoa. apply Nat.mod_upper_bound. lia. }
  { intros i j Hi Hj. apply mod_window_inj; lia. }
  destruct (foldl_insert_spec (λ j, (dwp + j) mod M)
              (λ j _, compensate (oa !!! ((orp + j) mod M)))
              (hop_size_of L) dl) as (Hl2 & Hhit2 & Hmiss2).
  { intros j _. rewrite Hdl. apply Nat.mod_upper_bound. lia. }
  { intros i j Hi Hj. apply mod_window_inj; lia. }
  split; [by rewrite Hl2|]. split; [by rewrite Hl1|].
  split; [intros j Hj; by apply Hhit2|].
  split.
  { intros j Hj. apply Hmiss2. intros i Hi Heq.
    apply mod_window_inj in Heq; lia. }
  split; [intros j Hj; by apply Hhit1|].
  intros j Hj. apply Hmiss1. intros i Hi Heq.
  apply mod_window_inj in Heq; lia.
Qed.

End Loops.

(** ** One block, one step, on a well-formed state *)

Section Step.
Variable transform : list R → list R.
Variable compensate : R → R.
Variable L : nat.
Hypothesis L_pos : 0 < L.

Let M := accum_size L.
Let H := hop_size_of L.
Let F := fft_size_of L.

Lemma hop_lt_accum : H + F ≤ M.
Proof.
  unfold M, H, F, accum_size. pose proof (hop_le_fft L). lia.
Qed.

Lemma init_wf : wf L (init_engine L).
Proof.
  pose proof hop_lt_accum as HHF.
  unfold M, H, F, accum_size, fft_size_of, hop_size_of in HHF.
  split; simpl; rewrite ?length_replicate; try done;
    unfold accum_size, latency_of, fft_size_of; lia.
Qed.

Lemma push_wf st x : wf L st → wf L (push L st x).
Proof.
  intros [? ? ? ? ? ? ?]. split; simpl; rewrite ?length_insert; try done.
  apply Nat.mod_upper_bound. lia.
Qed.

(** What a block does to the accumulator, the delay line and the cursors:
    relative to the old read position, offsets below the hop are drained,
    offsets below [fft_size] receive the new convolution output. *)
Lemma process_block_spec st :
  wf L st →
  let st' := process_block transform compensate L st in
  let ty := transform (gather L (input_accum st) (input_write_pos st)) in
  let orp := output_read_pos st in
  let dwp := delay_write_pos st in
  wf L st' ∧
  input_accum st' = input_accum st ∧
  input_write_pos st' = input_write_pos st ∧
  delay_read_pos st' = delay_read_pos st ∧
  samples_in_buffer st' = 0 ∧
  output_read_pos st' = (orp + H) mod M ∧
  delay_write_pos st' = (dwp + H) mod M ∧
  (∀ j, j < H →
     latency_delay st' !!! ((dwp + j) mod M) =
       compensate (output_accum st !!! ((orp + j) mod M) + ty !!! j)%R) ∧
  (∀ j, H ≤ j < M →
     latency_delay st' !!! ((dwp + j) mod M) =
       latency_delay st !!! ((dwp + j) mod M)) ∧
  (∀ j, j < H → output_accum st' !!! ((orp + j) mod M) = 0%R) ∧
  (∀ j, H ≤ j < F →
     output_accum st' !!! ((orp + j) mod M) =
       (output_accum st !!! ((orp + j) mod M) + ty !!! j)%R) ∧
  (∀ j, F ≤ j < M →
     output_accum st' !!! ((orp + j) mod M) =
       output_accum st !!! ((orp + j) mod M)).
Proof.
  intros [Hia Hoa Hdl Hiwp Horp Hdwp Hdrp]. cbn zeta.
  pose proof hop_lt_accum as HHF.
  assert (0 < M) as HM by (unfold M, accum_size, fft_size_of; lia).
  unfold process_block.
  set (ty := transform _).
  destruct (overlap_add_spec L L_pos (output_read_pos st) ty (output_accum st))
    as (Hl1 & Hhit1 & Hmiss1); [done|].
  set (oa1 := overlap_add _ _ _ _) in *.
  destruct (drain_spec L L_pos compensate (output_read_pos st)
              (delay_write_pos st) (latency_delay st) oa1)
    as (dl' & oa' & Heq & Hl2 & Hl3 & Hd1 & Hd2 & Ho1 & Ho2); [done..|].
  rewrite Heq. simpl.
  unfold M, H, F, accum_size in *.
  repeat split; simpl; unfold accum_size; try done.
  - apply Nat.mod_upper_bound. lia.
  - apply Nat.mod_upper_bound. lia.
  - intros j Hj. rewrite Hd1, Hhit1 by lia. done.
  - intros j Hj. rewrite Ho2, Hhit1 by lia. done.
  - intros j Hj. rewrite Ho2, Hmiss1 by lia. done.
Qed.

Lemma step_wf st x : wf L st → wf L (step transform compensate L st x).1.
Proof.
  intros Hwf. unfold step.
  apply (push_wf _ x) in Hwf.
  set (st1 := push L st x) in *.
  assert (wf L (if triggers L st1
                then process_block transform compensate L st1 else st1)) as Hwf2.
  { destruct (triggers L st1); [|done].
    by destruct (process_block_spec st1 Hwf) as (? & _). }
  destruct Hwf2 as [? ? ? ? ? ? ?]. split; simpl; try done.
  apply Nat.mod_upper_bound. unfold accum_size, fft_size_of. lia.
Qed.

Lemma run_from_snoc s xs x :
  run_from transform compensate L s (xs ++ [x]) =
    (let '(st, out) := run_from transform compensate L s xs in
     let '(st', y) := step transform compensate L st x in (st', out ++ [y])).
Proof.
  unfold run_from. rewrite foldl_snoc.
  by destruct (foldl _ s xs) as [st out].
Qed.

Lemma run_snoc xs x :
  run transform compensate L (xs ++ [x]) =
    ((step transform compensate L (run transform compensate L xs).1 x).1,
     (run transform compensate L xs).2 ++
       [(step transform compensate L (run transform compensate L xs).1 x).2]).
Proof.
  unfold run. rewrite run_from_snoc.
  destruct (run_from _ _ _ _ xs) as [st out]. simpl.
  by destruct (step transform compensate L st x).
Qed.

Lemma run_wf xs : wf L (run transform compensate L xs).1.
Proof.
  induction xs as [|x xs IH] using rev_ind.
  - apply init_wf.
  - rewrite run_snoc. simpl. by apply step_wf.
Qed.

Lemma run_length xs : length (run transform compensate L xs).2 = length xs.
Proof.
  induction xs as [|x xs IH] using rev_ind; [done|].
  rewrite run_snoc. simpl. rewrite !length_app, IH. done.
Qed.

End Step.

(** ** Block cadence *)

Section Cadence.
Variable transform : list R → list R.
Variable compensate : R → R.
Variable L : nat.

Lemma process_block_samples st :
  samples_in_buffer (process_block transform compensate L st) = 0.
Proof.
  unfold process_block. by destruct (drain _ _ _ _) as [[? ?] ?].
Qed.

Lemma step_samples st x :
  samples_in_buffer (step transform compensate L st x).1 =
    if triggers L (push L st x) then 0 else samples_in_buffer st + 1.
Proof.
  unfold step. simpl.
  destruct (triggers L (push L st x)); [|done].
  apply process_block_samples.
Qed.

Lemma blocks_run_invariant xs :
  0 < hop_size_of L →
  let s := foldl (λ '(st, n) x,
              let st1 := push L st x in
              ((step transform compensate L st x).1,
               if triggers L st1 then S n else n))
            (init_engine L, 0) xs in
  samples_in_buffer s.1 < hop_size_of L ∧
  length xs = s.2 * hop_size_of L + samples_in_buffer s.1.
Proof.
  intros HH. cbn zeta.
  induction xs as [|x xs IH] using rev_ind; [simpl; lia|].
  rewrite foldl_snoc, length_app.
  destruct (foldl _ _ xs) as [st n]. cbn [fst snd length] in *.
  rewrite step_samples. unfold triggers. cbn [push samples_in_buffer].
  case_bool_decide; cbn [fst snd]; lia.
Qed.

End Cadence.

(** C6.  A block runs exactly once per [hop = filter_length / 2] pushed
    samples: among the first [N] iterations of the sample loop, exactly
    [N / hop] run the convolution block (for a filter length of at least two,
    so that the hop is not zero). *)
Theorem block_every_hop (input_signal ir_freq_domain : list R) (filter_length : nat) :
  2 ≤ filter_length →
  blocks_run (spectral ir_freq_domain filter_length) halve filter_length input_signal
    = length input_signal / (filter_length / 2).
Proof.
  intros HL.
  assert (0 < hop_size_of filter_length) as HH.
  { unfold hop_size_of. apply Nat.div_str_pos. lia. }
  destruct (blocks_run_invariant (spectral ir_freq_domain filter_length) halve
              filter_length input_signal HH) as [Hlt Hlen].
  unfold blocks_run. fold (hop_size_of filter_length).
  eapply Nat.div_unique; [exact Hlt|]. rewrite Nat.mul_comm. exact Hlen.
Qed.

Lemma block_every_hop_witness :
  blocks_run (spectral [1; 0; 0; -1; -1; 0; 0; 0]%R 2) halve 2 [1; 2; 3]%R = 3.
Proof. apply (block_every_hop [1; 2; 3]%R [1; 0; 0; -1; -1; 0; 0; 0]%R 2). lia. Defined.

(** ** The drain-time gain *)

Section Doubling.
Variable transform : list R → list R.
Variable L : nat.

Lemma drain_doubles orp js dl oa dwp :
  foldl (drain_one (λ x, x) L orp) (twice <$> dl, oa, dwp) js =
    (let '(dl', oa', dwp') := foldl (drain_one halve L orp) (dl, oa, dwp) js in
     (twice <$> dl', oa', dwp')).
Proof.
  revert dl oa dwp. induction js as [|j js IH]; intros dl oa dwp; [done|].
  simpl. rewrite <- IH. f_equal. f_equal. f_equal.
  rewrite list_fmap_insert. f_equal. unfold twice, halve. lra.
Qed.

Lemma process_block_doubles st st2 :
  doubles st st2 →
  doubles (process_block transform halve L st)
          (process_block transform (λ x, x) L st2).
Proof.
  intros ->. unfold process_block, drain. simpl.
  rewrite drain_doubles.
  by destruct (foldl _ _ _) as [[dl' oa'] dwp'].
Qed.

Lemma step_doubles st st2 x :
  doubles st st2 →
  doubles (step transform halve L st x).1 (step transform (λ x, x) L st2 x).1 ∧
  (step transform (λ x, x) L st2 x).2 = twice (step transform halve L st x).2.
Proof.
  intros Hd. unfold step.
  assert (doubles (push L st x) (push L st2 x)) as Hp by (by rewrite Hd).
  set (s := push L st x) in *. set (s2 := push L st2 x) in *.
  assert (triggers L s2 = triggers L s) as -> by (by rewrite Hp).
  assert (doubles
            (if triggers L s then process_block transform halve L s else s)
            (if triggers L s
             then process_block transform (λ x, x) L s2 else s2)) as Hb.
  { destruct (triggers L s); [by apply process_block_doubles|done]. }
  set (b := if triggers L s then _ else s) in *.
  set (b2 := if triggers L s then _ else s2) in *.
  rewrite Hb. unfold read_out. simpl. split; [done|].
  destruct (decide (delay_read_pos b < length (latency_delay b))) as [Hlt|Hge].
  - by apply list_lookup_total_fmap.
  - rewrite !list_lookup_total_alt.
    rewrite !(lookup_ge_None_2) by (rewrite ?length_fmap; lia).
    simpl. unfold twice. lra.
Qed.

Lemma run_doubles xs :
  doubles (run transform halve L xs).1 (run transform (λ x, x) L xs).1 ∧
  (run transform (λ x, x) L xs).2 = twice <$> (run transform halve L xs).2.
Proof.
  induction xs as [|x xs [IH1 IH2]] using rev_ind.
  - split; [|done]. unfold doubles. simpl.
    assert (twice 0 = 0%R) as E by (unfold twice; lra).
    by rewrite fmap_replicate, E.
  - rewrite !run_snoc. cbn [fst snd].
    destruct (step_doubles _ _ x IH1) as [Hs1 Hs2].
    split; [done|]. by rewrite IH2, Hs2, fmap_app.
Qed.

End Doubling.

(** C3.  Removing the division by two at drain time doubles the output:
    for every input stream, IR store and filter length, every output sample
    of the engine without the halving (the steady-state ones among them) is
    exactly twice the corresponding sample of the unmodified engine, and the
    one fails exactly when the other does. *)
Theorem no_halving_doubles_output (input_signal ir_freq_domain : list R)
    (filter_length : nat) :
  process_overlap_add_no_halving input_signal ir_freq_domain filter_length =
    (λ out : list R, (λ y, 2 * y)%R <$> out)
      <$> process_overlap_add input_signal ir_freq_domain filter_length.
Proof.
  unfold process_overlap_add_no_halving, process_overlap_add, process.
  destruct input_signal as [|x xs]; [done|].
  case_decide; [done|]. simpl. f_equal.
  apply (run_doubles (spectral ir_freq_domain filter_length) filter_length (x :: xs)).
Qed.

(** ** The accumulator holds pending output only *)

Lemma slot_offset (M orp p : nat) :
  orp < M → p < M → (orp + (p + M - orp) mod M) mod M = p.
Proof.
  intros Ho Hp. rewrite Nat.Div0.add_mod_idemp_r.
  replace (orp + (p + M - orp)) with (p + 1 * M) by lia.
  rewrite Nat.Div0.mod_add. apply Nat.mod_small. lia.
Qed.

Section Accumulator.
Variable transform : list R → list R.
Variable compensate : R → R.
Variable L : nat.
Hypothesis L_pos : 0 < L.

Lemma accum_size_bounds :
  0 < fft_size_of L ∧ 0 < accum_size L ∧
  hop_size_of L + fft_size_of L ≤ accum_size L.
Proof.
  pose proof (hop_lt_accum L). unfold accum_size, fft_size_of in *. lia.
Qed.

Lemma process_block_clean st :
  wf L st → accum_clean L st →
  accum_clean L (process_block transform compensate L st).
Proof.
  intros Hwf Hc j Hj.
  destruct accum_size_bounds as (HF0 & HM & HHF).
  destruct (process_block_spec transform compensate L L_pos st Hwf)
    as (_ & _ & _ & _ & _ & Horp & _ & _ & _ & Hz & _ & Hkeep).
  rewrite Horp, Nat.Div0.add_mod_idemp_l.
  destruct (decide (hop_size_of L + j < accum_size L)) as [Hlt|Hge].
  - rewrite <- Nat.add_assoc, Hkeep by lia. apply Hc. lia.
  - replace (output_read_pos st + hop_size_of L + j)
      with (output_read_pos st + (hop_size_of L + j - accum_size L)
            + 1 * accum_size L) by lia.
    rewrite Nat.Div0.mod_add. apply Hz. lia.
Qed.

Lemma step_clean st x :
  wf L st → accum_clean L st →
  accum_clean L (step transform compensate L st x).1.
Proof.
  intros Hwf Hc. unfold step.
  assert (accum_clean L (push L st x)) as Hp by exact Hc.
  apply (push_wf L L_pos _ x) in Hwf.
  destruct (triggers L (push L st x)).
  - by apply process_block_clean.
  - exact Hp.
Qed.

Lemma run_clean xs : accum_clean L (run transform compensate L xs).1.
Proof.
  induction xs as [|x xs IH] using rev_ind.
  - intros j Hj. simpl. destruct accum_size_bounds as (_ & HM & _).
    apply lookup_total_replicate_2. apply Nat.mod_upper_bound.
    unfold accum_size in HM. lia.
  - rewrite run_snoc. cbn [fst]. apply step_clean; [apply run_wf|]; done.
Qed.

Lemma clean_pending st p :
  wf L st → accum_clean L st → p < accum_size L →
  output_accum st !!! p ≠ 0%R → pending_slot L st p.
Proof.
  intros Hwf Hc Hp Hnz.
  destruct accum_size_bounds as (HF0 & HM & HHF).
  pose proof (wf_orp _ _ Hwf) as Horp.
  set (j := (p + accum_size L - output_read_pos st) mod accum_size L).
  assert (j < accum_size L) as Hj by (apply Nat.mod_upper_bound; lia).
  assert ((output_read_pos st + j) mod accum_size L = p) as Hpj
    by (by apply slot_offset).
  exists j. split; [|done].
  destruct (decide (j < fft_size_of L - hop_size_of L)) as [|Hge]; [done|].
  exfalso. apply Hnz. rewrite <- Hpj. apply Hc. lia.
Qed.

End Accumulator.

(** C4.  Between any two iterations of the sample loop, a non-zero entry of
    the [2 * fft_size] accumulator lies in the not yet drained tail of the
    most recent convolution output (hence of at most the two most recent
    ones), and nothing that was drained is left behind: the [hop] slots just
    behind the read position, drained by the latest block, all hold zero. *)
Theorem accumulator_only_pending_tail
    (input_signal ir_freq_domain : list R) (filter_length : nat) :
  0 < filter_length →
  ir_store_ok ir_freq_domain filter_length →
  let st := engine_after input_signal ir_freq_domain filter_length in
  (∀ p, p < accum_size filter_length →
        output_accum st !!! p ≠ 0%R → pending_slot filter_length st p) ∧
  (∀ j, j < hop_size_of filter_length →
        output_accum st !!! ((output_read_pos st + accum_size filter_length
                              - hop_size_of filter_length + j)
                             mod accum_size filter_length) = 0%R).
Proof.
  intros HL _. cbn zeta. unfold engine_after.
  set (tr := spectral ir_freq_domain filter_length).
  pose proof (run_wf tr halve filter_length HL input_signal) as Hwf.
  pose proof (run_clean tr halve filter_length HL input_signal) as Hc.
  destruct (accum_size_bounds filter_length HL) as (HF0 & HM & HHF).
  split.
  - intros p Hp Hnz. by apply clean_pending.
  - intros j Hj.
    replace (output_read_pos (run tr halve filter_length input_signal).1
             + accum_size filter_length - hop_size_of filter_length + j)
      with (output_read_pos (run tr halve filter_length input_signal).1
            + (accum_size filter_length - hop_size_of filter_length + j)) by lia.
    apply Hc. lia.
Qed.

Lemma accumulator_only_pending_tail_witness :
  output_accum (engine_after [1; 2; 3] [1; 0; 0; -1; -1; 0; 0; 0] 2)%R
    !!! ((output_read_pos (engine_after [1; 2; 3] [1; 0; 0; -1; -1; 0; 0; 0] 2)%R
          + accum_size 2 - hop_size_of 2 + 0) mod accum_size 2) = 0%R.
Proof.
  refine (proj2 (accumulator_only_pending_tail
                   [1; 2; 3]%R [1; 0; 0; -1; -1; 0; 0; 0]%R 2 _ _) 0 _).
  - lia.
  - unfold ir_store_ok. simpl. lia.
  - vm_compute. lia.
Defined.

(** ** The first hop of output *)

Section Quiet.
Variable transform : list R → list R.
Variable compensate : R → R.
Variable L : nat.
Hypothesis L_pos : 0 < L.

Lemma run_app_outputs xs ys :
  ∃ rest, (run transform compensate L (xs ++ ys)).2 =
            (run transform compensate L xs).2 ++ rest.
Proof.
  induction ys as [|y ys [rest IH]] using rev_ind.
  - exists []. by rewrite !app_nil_r.
  - rewrite app_assoc, run_snoc. cbn [snd]. rewrite IH.
    eexists. by rewrite <- app_assoc.
Qed.

(** While fewer than [hop] samples have been consumed, no block has run:
    the delay line is untouched and every sample read from it is zero; the
    read of the iteration that runs the first block still comes from the
    untouched part. *)
Lemma quiet_prefix xs :
  length xs ≤ hop_size_of L →
  (run transform compensate L xs).2 = replicate (length xs) 0%R ∧
  (length xs < hop_size_of L →
   let st := (run transform compensate L xs).1 in
   samples_in_buffer st = length xs ∧
   delay_write_pos st = hop_size_of L ∧
   delay_read_pos st = length xs ∧
   ∀ p, p < hop_size_of L → latency_delay st !!! p = 0%R).
Proof.
  destruct (accum_size_bounds L L_pos) as (HF0 & HM & HHF).
  induction xs as [|x xs IH] using rev_ind; intros Hlen.
  - split; [done|]. intros _. simpl. repeat split; try done.
    intros p Hp. apply lookup_total_replicate_2.
    unfold accum_size in HHF. lia.
  - rewrite length_app in Hlen. simpl in Hlen.
    destruct IH as [IHout IHst]; [lia|].
    destruct IHst as (Hsib & Hdwp & Hdrp & Hzero); [lia|].
    pose proof (run_wf transform compensate L L_pos xs) as Hwf.
    rewrite run_snoc, length_app. cbn [fst snd length].
    set (st := (run transform compensate L xs).1) in *.
    rewrite IHout.
    assert (wf L (push L st x)) as Hwf1 by (by apply push_wf).
    assert (triggers L (push L st x)
            = bool_decide (hop_size_of L ≤ length xs + 1)) as Htr.
    { unfold triggers. cbn [push samples_in_buffer]. by rewrite Hsib. }
    unfold step. rewrite Htr. case_bool_decide as Htrig.
    + (* the first block runs in this iteration *)
      destruct (process_block_spec transform compensate L L_pos _ Hwf1)
        as (_ & _ & _ & Hdrp' & _ & _ & _ & _ & Hkeep & _).
      split; [|lia].
      replace (length xs + 1) with (S (length xs)) by lia.
      rewrite replicate_S_end. f_equal. f_equal.
      cbn [read_out snd]. rewrite Hdrp'. cbn [push delay_read_pos].
      rewrite Hdrp.
      replace (length xs)
        with ((delay_write_pos (push L st x)
               + (accum_size L - 1)) mod accum_size L) at 1.
      2:{ cbn [push delay_write_pos]. rewrite Hdwp.
          replace (hop_size_of L + (accum_size L - 1))
            with (length xs + 1 * accum_size L) by lia.
          rewrite Nat.Div0.mod_add. apply Nat.mod_small. lia. }
      rewrite Hkeep by lia.
      cbn [push delay_write_pos latency_delay]. rewrite Hdwp.
      replace (hop_size_of L + (accum_size L - 1))
        with (length xs + 1 * accum_size L) by lia.
      rewrite Nat.Div0.mod_add, Nat.mod_small by lia.
      apply Hzero. lia.
    + cbn [read_out fst snd push latency_delay delay_read_pos
             delay_write_pos samples_in_buffer].
      rewrite Hdrp, Hzero by lia.
      split.
      { replace (length xs + 1) with (S (length xs)) by lia.
        by rewrite replicate_S_end. }
      intros _. repeat split; try done; try lia.
      apply Nat.mod_small. unfold accum_size in *. lia.
Qed.

End Quiet.

(** C9.  Whatever the input stream and the IR store, the first
    [hop = filter_length / 2] output samples are exactly 0: they are read
    from delay-line slots below the initial write position, which no block
    has written yet. *)
Theorem first_hop_is_silent (input_signal ir_freq_domain out : list R)
    (filter_length i : nat) :
  ir_store_ok ir_freq_domain filter_length →
  process_overlap_add input_signal ir_freq_domain filter_length = Some out →
  i < filter_length / 2 → i < length input_signal →
  out !! i = Some 0%R.
Proof.
  intros _ Hrun Hi Hlen.
  unfold process_overlap_add, process in Hrun.
  destruct input_signal as [|x xs]; [simpl in Hlen; lia|].
  case_decide as HL; [done|]. injection Hrun as <-.
  set (tr := spectral ir_freq_domain filter_length).
  set (input := x :: xs) in *.
  assert (0 < filter_length) as HL' by lia.
  rewrite <- (take_drop (hop_size_of filter_length) input).
  destruct (run_app_outputs tr halve filter_length
              (take (hop_size_of filter_length) input)
              (drop (hop_size_of filter_length) input)) as [rest ->].
  destruct (quiet_prefix tr halve filter_length HL'
              (take (hop_size_of filter_length) input)) as [-> _].
  { rewrite length_take. lia. }
  rewrite length_take.
  fold (hop_size_of filter_length) in Hi.
  rewrite lookup_app_l by (rewrite length_replicate; lia).
  apply lookup_replicate_2. lia.
Qed.

Lemma first_hop_is_silent_witness :
  ∃ out, process_overlap_add [1; 2; 3]%R [1; 0; 0; -1; -1; 0; 0; 0]%R 2 = Some out
         ∧ out !! 0 = Some 0%R.
Proof.
  eexists. split; [reflexivity|].
  apply (first_hop_is_silent [1; 2; 3]%R [1; 0; 0; -1; -1; 0; 0; 0]%R _ 2 0).
  - unfold ir_store_ok. simpl. lia.
  - reflexivity.
  - simpl. lia.
  - simpl. lia.
Defined.

(** ** Clear after drain *)

Section Clearing.
Variable transform : list R → list R.
Variable compensate : R → R.
Variable L : nat.
Hypothesis L_pos : 0 < L.

Lemma step_buffers st x :
  output_accum (step transform compensate L st x).1 =
    output_accum (if triggers L (push L st x)
                  then process_block transform compensate L (push L st x)
                  else push L st x) ∧
  latency_delay (step transform compensate L st x).1 =
    latency_delay (if triggers L (push L st x)
                   then process_block transform compensate L (push L st x)
                   else push L st x).
Proof. done. Qed.

(** A zero slot stays zero through an iteration whose overlap-add does not
    write it. *)
Lemma zero_stays st x p :
  wf L st → output_accum st !!! p = 0%R → ¬ lands L st x p →
  output_accum (step transform compensate L st x).1 !!! p = 0%R.
Proof.
  intros Hwf Hz Hnl.
  destruct (accum_size_bounds L L_pos) as (HF0 & HM & HHF).
  destruct (step_buffers st x) as [-> _].
  destruct (triggers L (push L st x)) eqn:Htr; [|done].
  pose proof (push_wf L L_pos _ x Hwf) as Hwf1.
  destruct (process_block_spec transform compensate L L_pos _ Hwf1)
    as (Hwf2 & _ & _ & _ & _ & _ & _ & _ & _ & _ & _ & Hkeep).
  destruct (decide (p < accum_size L)) as [Hp|Hp].
  - pose proof (wf_orp _ _ Hwf) as Horp.
    set (j := (p + accum_size L - output_read_pos st) mod accum_size L).
    assert (j < accum_size L) as Hj by (apply Nat.mod_upper_bound; lia).
    assert ((output_read_pos st + j) mod accum_size L = p) as Hpj
      by (by apply slot_offset).
    destruct (decide (j < fft_size_of L)) as [Hlt|Hge].
    { exfalso. apply Hnl. split; [done|]. by exists j. }
    rewrite <- Hpj. cbn [push output_read_pos output_accum] in Hkeep.
    rewrite Hkeep by lia. by rewrite Hpj.
  - rewrite list_lookup_total_alt, lookup_ge_None_2; [done|].
    rewrite (wf_oa _ _ Hwf2). lia.
Qed.

Lemma zero_until_written xs p ys :
  output_accum (run transform compensate L xs).1 !!! p = 0%R →
  (∀ ys1 y ys2, ys = ys1 ++ y :: ys2 →
     ¬ lands L (run transform compensate L (xs ++ ys1)).1 y p) →
  output_accum (run transform compensate L (xs ++ ys)).1 !!! p = 0%R.
Proof.
  intros Hz. induction ys as [|y ys IH] using rev_ind; intros Hnl.
  - by rewrite app_nil_r.
  - rewrite app_assoc, run_snoc. cbn [fst].
    apply zero_stays.
    + by apply run_wf.
    + apply IH. intros ys1 y' ys2 ->. apply (Hnl ys1 y' (ys2 ++ [y])).
      by rewrite <- app_assoc.
    + apply (Hnl ys y []). done.
Qed.

End Clearing.

(** C5.  When an iteration runs a block, each of the [hop] slots it drains
    is halved into the delay line and set to zero at once: after the
    iteration the delay line holds, at the write position of the sample, half
    of what the overlap-add had summed in the slot, the slot itself holds 0,
    and it goes on holding 0 through every later iteration up to the first
    one whose overlap-add writes it. *)
Theorem drained_region_zeroed (input_signal ir_freq_domain : list R)
    (filter_length : nat) (x : R) (j : nat) :
  0 < filter_length →
  ir_store_ok ir_freq_domain filter_length →
  let st1 := push filter_length
               (engine_after input_signal ir_freq_domain filter_length) x in
  let summed :=
    overlap_add filter_length (output_read_pos st1)
      (spectral ir_freq_domain filter_length
         (gather filter_length (input_accum st1) (input_write_pos st1)))
      (output_accum st1) in
  let p := (output_read_pos st1 + j) mod accum_size filter_length in
  triggers filter_length st1 = true →
  j < hop_size_of filter_length →
  latency_delay (engine_after (input_signal ++ [x]) ir_freq_domain filter_length)
    !!! ((delay_write_pos st1 + j) mod accum_size filter_length)
    = (summed !!! p / 2)%R ∧
  output_accum (engine_after (input_signal ++ [x]) ir_freq_domain filter_length)
    !!! p = 0%R ∧
  ∀ ys,
    (∀ ys1 y ys2, ys = ys1 ++ y :: ys2 →
       ¬ lands filter_length
           (engine_after (input_signal ++ x :: ys1) ir_freq_domain filter_length)
           y p) →
    output_accum
      (engine_after (input_signal ++ x :: ys) ir_freq_domain filter_length)
      !!! p = 0%R.
Proof.
  intros HL _. cbn zeta. intros Htr Hj. unfold engine_after in *.
  set (tr := spectral ir_freq_domain filter_length) in *.
  destruct (accum_size_bounds filter_length HL) as (HF0 & HM & HHF).
  pose proof (run_wf tr halve filter_length HL input_signal) as Hwf.
  set (st := (run tr halve filter_length input_signal).1) in *.
  pose proof (push_wf filter_length HL _ x Hwf) as Hwf1.
  destruct (process_block_spec tr halve filter_length HL _ Hwf1)
    as (_ & _ & _ & _ & _ & _ & _ & Hdl & _ & Hzero & _).
  destruct (overlap_add_spec filter_length HL
              (output_read_pos (push filter_length st x))
              (tr (gather filter_length (input_accum (push filter_length st x))
                     (input_write_pos (push filter_length st x))))
              (output_accum (push filter_length st x)))
    as (_ & Hsum & _); [apply Hwf1|].
  assert (output_accum (run tr halve filter_length (input_signal ++ [x])).1
          !!! ((output_read_pos (push filter_length st x) + j)
               mod accum_size filter_length) = 0%R) as Hnow.
  { rewrite run_snoc. cbn [fst]. fold st.
    destruct (step_buffers tr halve filter_length st x) as [-> _].
    rewrite Htr. by apply Hzero. }
  split; [|split; [exact Hnow|]].
  - rewrite run_snoc. cbn [fst]. fold st.
    destruct (step_buffers tr halve filter_length st x) as [_ ->].
    rewrite Htr, Hdl by done. unfold halve.
    unfold accum_size. rewrite Hsum; [done|].
    pose proof (hop_le_fft filter_length). lia.
  - intros ys Hnl.
    replace (input_signal ++ x :: ys) with ((input_signal ++ [x]) ++ ys)
      by (by rewrite <- app_assoc).
    apply zero_until_written; [done..|].
    intros ys1 y ys2 Hys. rewrite <- app_assoc. by apply (Hnl ys1 y ys2).
Qed.

Lemma drained_region_zeroed_witness :
  output_accum (engine_after ([1; 2; 3] ++ [4]) [1; 0; 0; -1; -1; 0; 0; 0] 2)%R
    !!! ((output_read_pos
            (push 2 (engine_after [1; 2; 3] [1; 0; 0; -1; -1; 0; 0; 0] 2) 4)%R + 0)
         mod accum_size 2) = 0%R.
Proof.
  refine (proj1 (proj2 (drained_region_zeroed
            [1; 2; 3]%R [1; 0; 0; -1; -1; 0; 0; 0]%R 2 4%R 0 _ _ _ _))).
  - lia.
  - unfold ir_store_ok. simpl. lia.
  - vm_compute. reflexivity.
  - vm_compute. lia.
Defined.

(** ** Finite sums *)

Lemma big_sum_ext (n : nat) (f g : nat → R) :
  (∀ k, k < n → f k = g k) → big_sum n f = big_sum n g.
Proof.
  induction n as [|n IH]; intros Hfg; [done|].
  simpl. rewrite IH, Hfg by (intros; auto with lia). done.
Qed.

Lemma big_sum_plus (n : nat) (f g : nat → R) :
  big_sum n (λ k, f k + g k)%R = (big_sum n f + big_sum n g)%R.
Proof. induction n as [|n IH]; simpl; [lra|rewrite IH; lra]. Qed.

Lemma big_sum_scal (n : nat) (c : R) (f : nat → R) :
  big_sum n (λ k, c * f k)%R = (c * big_sum n f)%R.
Proof. induction n as [|n IH]; simpl; [lra|rewrite IH; lra]. Qed.

Lemma big_sum_zero (n : nat) : big_sum n (λ _, 0%R) = 0%R.
Proof. induction n as [|n IH]; simpl; [done|rewrite IH; lra]. Qed.

Lemma big_sum_swap (n m : nat) (f : nat → nat → R) :
  big_sum n (λ k, big_sum m (λ j, f k j)) =
  big_sum m (λ j, big_sum n (λ k, f k j)).
Proof.
  induction n as [|n IH]; simpl.
  - by rewrite big_sum_zero.
  - by rewrite IH, big_sum_plus.
Qed.

(** A sum with a single non-zero term. *)
Lemma big_sum_single (n j : nat) (f : nat → R) :
  j < n → (∀ k, k < n → k ≠ j → f k = 0%R) → big_sum n f = f j.
Proof.
  induction n as [|n IH]; intros Hj Hz; [lia|].
  simpl. destruct (decide (j = n)) as [->|Hne].
  - rewrite (big_sum_ext n f (λ _, 0%R)) by (intros; apply Hz; lia).
    rewrite big_sum_zero. lra.
  - rewrite IH, (Hz n) by (intros; try apply Hz; lia). lra.
Qed.

(** ** The spectral step, sample by sample *)

Lemma fmap_seq_lookup_total {A} `{Inhabited A} (f : nat → A) (n i : nat) :
  i < n → (f <$> seq 0 n) !!! i = f i.
Proof.
  intros Hi.
  rewrite (list_lookup_total_fmap f (seq 0 n) i) by (by rewrite length_seq).
  by rewrite lookup_total_seq_lt.
Qed.

Lemma rfft_length (a : list R) (n : nat) : length (rfft a n) = n / 2 + 1.
Proof. unfold rfft. by rewrite length_fmap, length_seq. Qed.

Lemma rfft_lookup (a : list R) (n k : nat) :
  k < n / 2 + 1 → rfft a n !!! k = rfft_bin a n k.
Proof. intros Hk. unfold rfft. by rewrite fmap_seq_lookup_total. Qed.

Lemma half_fft_size (L : nat) : fft_size_of L / 2 = L.
Proof. unfold fft_size_of. by apply Nat.div_mul. Qed.

Lemma spectral_length (ir : list R) (L : nat) (x : list R) :
  length (spectral ir L x) = fft_size_of L.
Proof. unfold spectral, irfft. by rewrite length_fmap, length_seq. Qed.

Lemma spectral_lookup (ir : list R) (L : nat) (x : list R) (i : nat) :
  i < fft_size_of L → spectral ir L x !!! i = spectral_at ir L x i.
Proof.
  intros Hi. unfold spectral, irfft, spectral_at.
  rewrite fmap_seq_lookup_total by done. cbn zeta.
  rewrite half_fft_size. f_equal. apply big_sum_ext. intros k Hk.
  rewrite (lookup_total_zip_with cmul).
  - rewrite rfft_lookup by (rewrite half_fft_size; lia).
    unfold ir_complex. rewrite fmap_seq_lookup_total; [done|].
    rewrite rfft_length, half_fft_size. lia.
  - rewrite rfft_length, half_fft_size. lia.
  - unfold ir_complex.
    rewrite length_fmap, length_seq, rfft_length, half_fft_size. lia.
Qed.

(** The spectral step is linear in the block it transforms. *)
Lemma spectral_at_linear (ir : list R) (L : nat) (a b : R) (x x1 x2 : list R) (i : nat) :
  (∀ m, m < fft_size_of L → x !!! m = (a * x1 !!! m + b * x2 !!! m)%R) →
  spectral_at ir L x i = (a * spectral_at ir L x1 i + b * spectral_at ir L x2 i)%R.
Proof.
  intros Hx. unfold spectral_at. cbn zeta.
  set (n := fft_size_of L) in *.
  match goal with
  | |- (?s / _ = a * (?s1 / _) + b * (?s2 / _))%R =>
      assert (s = a * s1 + b * s2)%R as ->; [|unfold Rdiv; ring]
  end.
  rewrite <- !big_sum_scal, <- big_sum_plus. apply big_sum_ext. intros k Hk.
  assert (∀ g : nat → R,
            big_sum n (λ m, x !!! m * g m)%R =
            (a * big_sum n (λ m, x1 !!! m * g m)
             + b * big_sum n (λ m, x2 !!! m * g m))%R) as Hlin.
  { intros g. rewrite <- !big_sum_scal, <- big_sum_plus.
    apply big_sum_ext. intros m Hm. rewrite Hx by done. lra. }
  unfold rfft_bin, cmul. cbn [fst snd]. rewrite !Hlin. lra.
Qed.

(** ** Linearity in the input signal *)

Lemma lookup_total_beyond (l : list R) (p : nat) :
  length l ≤ p → l !!! p = 0%R.
Proof. intros Hp. by rewrite list_lookup_total_alt, lookup_ge_None_2. Qed.

Section Linearity.
Variables a b : R.

Lemma lincomb_insert l l1 l2 i v v1 v2 :
  lincomb a b l l1 l2 → v = (a * v1 + b * v2)%R →
  lincomb a b (<[i:=v]> l) (<[i:=v1]> l1) (<[i:=v2]> l2).
Proof.
  intros (H1 & H2 & Hp) ->. repeat split; rewrite ?length_insert; try done.
  intros p. rewrite !list_lookup_total_insert, H1, H2.
  case_decide; [done|apply Hp].
Qed.

Lemma lincomb_replicate n : lincomb a b (replicate n 0%R) (replicate n 0%R) (replicate n 0%R).
Proof.
  repeat split. intros p.
  destruct (decide (p < n)).
  - rewrite !lookup_total_replicate_2 by done. lra.
  - rewrite !lookup_total_beyond by (rewrite length_replicate; lia). lra.
Qed.

Lemma lincomb_eq l l1 l2 :
  lincomb a b l l1 l2 → l = zip_with (λ u v, a * u + b * v)%R l1 l2.
Proof.
  intros (H1 & H2 & Hp).
  apply list_eq_same_length with (length l).
  - rewrite length_zip_with. lia.
  - done.
  - intros i u v Hi Hu Hv.
    apply list_lookup_total_correct in Hu.
    rewrite (list_lookup_alt _ _ _) in Hv. destruct Hv as [Hlen <-].
    rewrite <- Hu, Hp.
    by rewrite (lookup_total_zip_with (λ u v, a * u + b * v)%R) by lia.
Qed.

Lemma gather_lincomb L ia ia1 ia2 iwp :
  lincomb a b ia ia1 ia2 →
  lincomb a b (gather L ia iwp) (gather L ia1 iwp) (gather L ia2 iwp).
Proof.
  intros (H1 & H2 & Hp). unfold gather.
  repeat split; rewrite ?length_app, ?length_fmap, ?length_seq,
                  ?length_replicate; try done.
  intros p. destruct (decide (p < L)) as [Hlt|Hge].
  - rewrite !lookup_total_app_l by (by rewrite length_fmap, length_seq).
    rewrite !fmap_seq_lookup_total by done. apply Hp.
  - rewrite !lookup_total_app_r by (rewrite length_fmap, length_seq; lia).
    rewrite !length_fmap, !length_seq. apply lincomb_replicate.
Qed.

Lemma spectral_lincomb ir L x x1 x2 :
  lincomb a b x x1 x2 →
  lincomb a b (spectral ir L x) (spectral ir L x1) (spectral ir L x2).
Proof.
  intros (H1 & H2 & Hp). repeat split; rewrite ?spectral_length; try done.
  intros p. destruct (decide (p < fft_size_of L)) as [Hlt|Hge].
  - rewrite !spectral_lookup by done. apply spectral_at_linear.
    intros m _. apply Hp.
  - rewrite !lookup_total_beyond by (rewrite spectral_length; lia). lra.
Qed.

Lemma overlap_add_lincomb L orp ty ty1 ty2 oa oa1 oa2 :
  lincomb a b ty ty1 ty2 → lincomb a b oa oa1 oa2 →
  lincomb a b (overlap_add L orp ty oa) (overlap_add L orp ty1 oa1)
              (overlap_add L orp ty2 oa2).
Proof.
  intros (_ & _ & Hty) Hoa. unfold overlap_add.
  generalize (seq 0 (fft_size_of L)). intros js.
  revert oa oa1 oa2 Hoa. induction js as [|j js IH]; intros oa oa1 oa2 Hoa; [done|].
  simpl. apply IH. apply lincomb_insert; [done|].
  destruct Hoa as (_ & _ & Hp). rewrite Hp, Hty. lra.
Qed.

Lemma drain_lincomb L orp dl dl1 dl2 oa oa1 oa2 dwp :
  lincomb a b dl dl1 dl2 → lincomb a b oa oa1 oa2 →
  ∃ dl' dl1' dl2' oa' oa1' oa2' dwp',
    drain halve L orp (dl, oa, dwp) = (dl', oa', dwp') ∧
    drain halve L orp (dl1, oa1, dwp) = (dl1', oa1', dwp') ∧
    drain halve L orp (dl2, oa2, dwp) = (dl2', oa2', dwp') ∧
    lincomb a b dl' dl1' dl2' ∧ lincomb a b oa' oa1' oa2'.
Proof.
  unfold drain. generalize (seq 0 (hop_size_of L)). intros js.
  revert dl dl1 dl2 oa oa1 oa2 dwp.
  induction js as [|j js IH]; intros dl dl1 dl2 oa oa1 oa2 dwp Hdl Hoa.
  - by eexists _, _, _, _, _, _, _.
  - simpl. apply IH.
    + apply lincomb_insert; [done|].
      destruct Hoa as (_ & _ & Hp). rewrite Hp. unfold halve. lra.
    + apply lincomb_insert; [done|lra].
Qed.

Section Run.
Variable ir : list R.
Variable L : nat.

Let tr := spectral ir L.

Lemma process_block_lincomb st s1 s2 :
  lin_state a b st s1 s2 →
  lin_state a b (process_block tr halve L st) (process_block tr halve L s1)
                (process_block tr halve L s2).
Proof.
  intros [Hia Hoa Hdl [E1 E2] [E3 E4] [E5 E6] [E7 E8] [E9 E10]].
  unfold process_block. rewrite E1, E2, E3, E4, E5, E6, E7, E8.
  destruct (drain_lincomb L (output_read_pos st)
              (latency_delay st) (latency_delay s1) (latency_delay s2)
              (overlap_add L (output_read_pos st)
                 (tr (gather L (input_accum st) (input_write_pos st)))
                 (output_accum st))
              (overlap_add L (output_read_pos st)
                 (tr (gather L (input_accum s1) (input_write_pos st)))
                 (output_accum s1))
              (overlap_add L (output_read_pos st)
                 (tr (gather L (input_accum s2) (input_write_pos st)))
                 (output_accum s2))
              (delay_write_pos st))
    as (dl' & dl1' & dl2' & oa' & oa1' & oa2' & dwp' & -> & -> & -> & Hd & Ho).
  { done. }
  { apply overlap_add_lincomb; [|done].
    apply spectral_lincomb. by apply gather_lincomb. }
  by split.
Qed.

Lemma step_lincomb st s1 s2 x1 x2 :
  lin_state a b st s1 s2 →
  lin_state a b (step tr halve L st (a * x1 + b * x2)%R).1
                (step tr halve L s1 x1).1 (step tr halve L s2 x2).1 ∧
  (step tr halve L st (a * x1 + b * x2)%R).2 =
    (a * (step tr halve L s1 x1).2 + b * (step tr halve L s2 x2).2)%R.
Proof.
  intros Hst. unfold step.
  assert (lin_state a b (push L st (a * x1 + b * x2)%R)
            (push L s1 x1) (push L s2 x2)) as Hp.
  { destruct Hst as [Hia Hoa Hdl [E1 E2] [E3 E4] [E5 E6] [E7 E8] [E9 E10]].
    split; simpl; rewrite ?E1, ?E2, ?E9, ?E10; try done.
    by apply lincomb_insert. }
  set (p := push L st _) in *. set (p1 := push L s1 x1) in *.
  set (p2 := push L s2 x2) in *.
  assert (triggers L p1 = triggers L p ∧ triggers L p2 = triggers L p)
    as [-> ->].
  { unfold triggers. destruct Hp. destruct lin_sib0 as [-> ->]. done. }
  assert (lin_state a b
            (if triggers L p then process_block tr halve L p else p)
            (if triggers L p then process_block tr halve L p1 else p1)
            (if triggers L p then process_block tr halve L p2 else p2)) as Hb.
  { destruct (triggers L p); [by apply process_block_lincomb|done]. }
  destruct Hb as [Hia Hoa Hdl [E1 E2] [E3 E4] [E5 E6] [E7 E8] [E9 E10]].
  unfold read_out. cbn [fst snd]. split.
  - split; simpl; rewrite ?E7, ?E8; done.
  - rewrite E7, E8. apply Hdl.
Qed.

Lemma run_lincomb (xy : list (R * R)) :
  lin_state a b
    (run tr halve L ((λ p, a * p.1 + b * p.2)%R <$> xy)).1
    (run tr halve L xy.*1).1 (run tr halve L xy.*2).1 ∧
  lincomb a b
    (run tr halve L ((λ p, a * p.1 + b * p.2)%R <$> xy)).2
    (run tr halve L xy.*1).2 (run tr halve L xy.*2).2.
Proof.
  induction xy as [|[x1 x2] xy [IH1 IH2]] using rev_ind.
  - split.
    + split; simpl; try done; apply lincomb_replicate.
    + repeat split. intros p.
      rewrite !lookup_total_beyond by (simpl; lia). lra.
  - rewrite !fmap_app. simpl. rewrite !run_snoc. cbn [fst snd].
    destruct (step_lincomb _ _ _ x1 x2 IH1) as [Hs Hy].
    split; [done|].
    destruct IH2 as (H1 & H2 & Hp).
    repeat split; rewrite ?length_app; simpl; try lia.
    intros p.
    destruct (decide (p < length (run tr halve L ((λ p, a * p.1 + b * p.2)%R <$> xy)).2)) as [Hlt|Hge].
    + rewrite !lookup_total_app_l by lia. apply Hp.
    + rewrite !lookup_total_app_r by lia. rewrite H1, H2.
      destruct (p - _) as [|n]; simpl.
      * exact Hy.
      * rewrite !lookup_total_beyond by (simpl; lia). lra.
Qed.

End Run.
End Linearity.

(** C10.  For a fixed IR store and filter length the engine is linear in its
    input: for input signals [x] and [y] of equal length and scalars [a] and
    [b], processing [a * x + b * y] returns, sample by sample,
    [a * process x + b * process y] (over the reals). *)
Theorem process_overlap_add_linear (a b : R) (x y ir_freq_domain : list R)
    (filter_length : nat) (out_x out_y : list R) :
  length x = length y →
  ir_store_ok ir_freq_domain filter_length →
  process_overlap_add x ir_freq_domain filter_length = Some out_x →
  process_overlap_add y ir_freq_domain filter_length = Some out_y →
  process_overlap_add (zip_with (λ u v, a * u + b * v)%R x y)
      ir_freq_domain filter_length
    = Some (zip_with (λ u v, a * u + b * v)%R out_x out_y).
Proof.
  intros Hlen _ Hx Hy. unfold process_overlap_add, process in *.
  destruct x as [|x0 x], y as [|y0 y]; simpl in Hlen; try lia.
  { by injection Hx as <-; injection Hy as <-. }
  cbn [zip_with]. case_decide; [done|].
  injection Hx as <-. injection Hy as <-. f_equal.
  set (xs := x0 :: x) in *. set (ys := y0 :: y) in *.
  change ((a * x0 + b * y0)%R :: zip_with (λ u v, a * u + b * v)%R x y)
    with (zip_with (λ u v, a * u + b * v)%R xs ys).
  assert (length xs = length ys) as Hl by (simpl; lia).
  destruct (run_lincomb a b ir_freq_domain filter_length (zip xs ys)) as [_ Hout].
  rewrite fst_zip, snd_zip in Hout by lia.
  rewrite zip_with_zip. apply lincomb_eq in Hout.
  replace (uncurry (λ u v, a * u + b * v)%R <$> zip xs ys)
    with ((λ p : R * R, (a * p.1 + b * p.2)%R) <$> zip xs ys); [exact Hout|].
  generalize (zip xs ys). intros l.
  induction l as [|[u v] l IH]; [done|]. rewrite !fmap_cons, IH. done.
Qed.

Lemma process_overlap_add_linear_witness :
  ∃ out_x out_y,
    process_overlap_add [1; 2; 3]%R [1; 0; 0; -1; -1; 0; 0; 0]%R 2 = Some out_x ∧
    process_overlap_add [0; 1; 5]%R [1; 0; 0; -1; -1; 0; 0; 0]%R 2 = Some out_y ∧
    process_overlap_add (zip_with (λ u v, 2 * u + 3 * v)%R [1; 2; 3]%R [0; 1; 5]%R)
        [1; 0; 0; -1; -1; 0; 0; 0]%R 2
      = Some (zip_with (λ u v, 2 * u + 3 * v)%R out_x out_y).
Proof.
  eexists _, _. split; [reflexivity|]. split; [reflexivity|].
  apply (process_overlap_add_linear 2 3 [1; 2; 3]%R [0; 1; 5]%R
           [1; 0; 0; -1; -1; 0; 0; 0]%R 2).
  - reflexivity.
  - unfold ir_store_ok. simpl. lia.
  - reflexivity.
  - reflexivity.
Defined.

(** ** The transform of a centred unit impulse *)

Section Dirichlet.
Local Open Scope R_scope.

Variable L : nat.
Hypothesis L_pos : (0 < L)%nat.

Let N := fft_size_of L.

Lemma INR_fft_size : INR N = 2 * INR L.
Proof. unfold N, fft_size_of. rewrite mult_INR. simpl. lra. Qed.

Lemma INR_L_pos : 0 < INR L.
Proof. apply lt_0_INR. lia. Qed.

Lemma omega_scale (k e : nat) :
  omega N k e = INR k * (2 * PI * INR e / INR N).
Proof.
  unfold omega. pose proof INR_L_pos. rewrite INR_fft_size. field. lra.
Qed.

Lemma cosine_sum (t : R) (n : nat) :
  sin (t / 2) * big_sum n (λ k, 2 * cos (INR k * t)) =
  sin ((INR n - 1 / 2) * t) + sin (t / 2).
Proof.
  induction n as [|n IH].
  - simpl. replace ((0 - 1 / 2) * t) with (- (t / 2)) by lra.
    rewrite sin_neg. lra.
  - cbn [big_sum]. rewrite Rmult_plus_distr_l, IH, S_INR.
    replace ((INR n - 1 / 2) * t) with (INR n * t - t / 2) by lra.
    replace ((INR n + 1 - 1 / 2) * t) with (INR n * t + t / 2) by lra.
    rewrite sin_plus, sin_minus. lra.
Qed.

Lemma weighted_sum_head (g : nat → R) (n : nat) :
  (1 ≤ n ≤ L)%nat →
  big_sum n (λ k, bin_weight N k * g k) = big_sum n (λ k, 2 * g k) - g 0%nat.
Proof.
  induction n as [|n IH]; intros Hn; [lia|].
  cbn [big_sum]. destruct (decide (n = 0%nat)) as [->|Hne].
  - simpl. unfold bin_weight. rewrite decide_True by auto. lra.
  - rewrite IH by lia. unfold bin_weight at 1.
    rewrite decide_False; [lra|].
    unfold N, fft_size_of. lia.
Qed.

Lemma weighted_sum (g : nat → R) :
  big_sum (L + 1) (λ k, bin_weight N k * g k) =
  big_sum L (λ k, 2 * g k) - g 0%nat + g L.
Proof.
  rewrite Nat.add_1_r. cbn [big_sum]. rewrite weighted_sum_head by lia.
  unfold bin_weight. rewrite decide_True; [lra|].
  right. unfold N, fft_size_of. lia.
Qed.

Lemma half_turns (e : nat) : INR L * (2 * PI * INR e / INR N) = INR e * PI.
Proof. pose proof INR_L_pos. rewrite INR_fft_size. field. lra. Qed.

Lemma dirichlet_off (e : nat) : (e mod N ≠ 0)%nat → dirichlet L e = 0.
Proof.
  intros Hne. unfold dirichlet. fold N.
  set (t := 2 * PI * INR e / INR N).
  rewrite (big_sum_ext _ _ (λ k, bin_weight N k * cos (INR k * t)))
    by (intros k _; by rewrite omega_scale).
  rewrite (weighted_sum (λ k, cos (INR k * t))).
  pose proof INR_L_pos as HL. pose proof INR_fft_size as HN.
  assert (sin (t / 2) ≠ 0) as Hsin.
  { intros Hs. apply sin_eq_0_0 in Hs as [z Hz]. apply Hne.
    assert (INR e = IZR z * INR N) as He.
    { unfold t in Hz. pose proof PI_RGT_0.
      apply (Rmult_eq_reg_r (PI / INR N)).
      - rewrite HN in *. field_simplify; [|lra|lra].
        field_simplify in Hz; [|lra]. lra.
      - apply Rgt_not_eq. apply Rdiv_lt_0_compat; lra. }
    rewrite !INR_IZR_INZ, <- mult_IZR in He. apply eq_IZR in He.
    assert (0 < Z.of_nat N)%Z as HNz
      by (unfold N, fft_size_of; lia).
    assert (0 <= z)%Z as Hz0 by nia.
    assert (z = Z.of_nat (Z.to_nat z)) as Hz' by lia.
    rewrite Hz', <- Nat2Z.inj_mul in He. apply Nat2Z.inj in He.
    rewrite He. apply Nat.Div0.mod_mul. }
  assert (sin (t / 2) *
          (big_sum L (λ k, 2 * cos (INR k * t)) - cos (INR 0 * t)
           + cos (INR L * t)) = 0) as Hz.
  { rewrite !Rmult_plus_distr_l, Rmult_minus_distr_l, cosine_sum.
    replace ((INR L - 1 / 2) * t) with (INR L * t - t / 2) by lra.
    rewrite sin_minus. simpl INR. rewrite Rmult_0_l, cos_0.
    assert (sin (INR L * t) = 0) as ->.
    { unfold t. rewrite half_turns. apply sin_eq_0_1.
      exists (Z.of_nat e). by rewrite INR_IZR_INZ. }
    lra. }
  apply Rmult_integral in Hz as [Hz|Hz]; [done|].
  rewrite Hz. unfold Rdiv. lra.
Qed.

Lemma dirichlet_on (e : nat) : (e mod N = 0)%nat → dirichlet L e = 1.
Proof.
  intros He. unfold dirichlet. fold N.
  pose proof INR_L_pos as HL. pose proof INR_fft_size as HN.
  assert (∀ k, cos (omega N k e) = 1) as Hcos.
  { intros k. apply Nat.Lcm0.mod_divide in He as [q ->].
    replace (omega N k (q * N)) with (0 + 2 * INR (k * q) * PI).
    - rewrite cos_period. apply cos_0.
    - unfold omega. rewrite !mult_INR. field. lra. }
  rewrite (big_sum_ext _ _ (λ k, bin_weight N k * 1))
    by (intros k _; by rewrite Hcos).
  rewrite (weighted_sum (λ _, 1)).
  assert (∀ n, big_sum n (λ _, 2 * 1) = 2 * INR n) as Hsum.
  { induction n as [|n IH]; [simpl; lra|].
    cbn [big_sum]. rewrite IH, S_INR. lra. }
  rewrite Hsum, HN. field. lra.
Qed.

End Dirichlet.

(** ** The flat store and the pass-through block *)

Lemma interleave_length (bins : list (R * R)) (n : nat) :
  length (interleave bins n) = n.
Proof.
  unfold interleave. generalize (seq 0 (length bins)) at 1. intros ks.
  generalize (seq 0 (length bins)). intros js.
  assert (∀ (g : nat → nat) (h : nat → R) (l : list nat) (r : list R),
            length (foldl (λ r k, <[g k := h k]> r) r l) = length r) as Hlen.
  { intros g h l. induction l as [|k l IH]; intros r; [done|].
    simpl. by rewrite IH, length_insert. }
  by rewrite !Hlen, length_replicate.
Qed.

Lemma interleave_lookup (bins : list (R * R)) (n k : nat) :
  length bins * 2 ≤ n → k < length bins →
  interleave bins n !!! (2 * k) = (bins !!! k).1 ∧
  interleave bins n !!! (2 * k + 1) = (bins !!! k).2.
Proof.
  intros Hn Hk. unfold interleave.
  destruct (foldl_insert_spec (λ k, 2 * k) (λ k _, (bins !!! k).1)
              (length bins) (replicate n 0%R)) as (Hl1 & Hhit1 & _).
  { intros j Hj. rewrite length_replicate. lia. }
  { intros i j _ _ ?. lia. }
  set (evens := foldl _ (replicate n 0%R) _) in *.
  destruct (foldl_insert_spec (λ k, 2 * k + 1) (λ k _, (bins !!! k).2)
              (length bins) evens) as (_ & Hhit2 & Hmiss2).
  { intros j Hj. rewrite Hl1, length_replicate. lia. }
  { intros i j _ _ ?. lia. }
  split.
  - rewrite Hmiss2 by (intros; lia). by apply Hhit1.
  - by apply Hhit2.
Qed.

Lemma create_flat_store (L : nat) :
  0 < L → create_flat_ir_frequency_domain L (fft_size_of L) = Some (flat_store L).
Proof.
  intros HL. unfold create_flat_ir_frequency_domain.
  rewrite decide_True; [done|].
  pose proof (hop_le_fft L) as Hh. unfold hop_size_of in Hh.
  assert (L / 2 < L) by (apply Nat.div_lt; lia).
  unfold fft_size_of in *. lia.
Qed.

Section Flat.
Variable L : nat.
Hypothesis L_pos : 0 < L.

Let N := fft_size_of L.
Let c := L / 2.

Lemma centre_lt : c < L ∧ L + L = N.
Proof.
  unfold c, N, fft_size_of. split; [apply Nat.div_lt; lia|lia].
Qed.

Lemma flat_store_length : length (flat_store L) = N * 2.
Proof. apply interleave_length. Qed.

Lemma impulse_sum (g : nat → R) :
  big_sum N (λ m, <[c := 1%R]> (replicate N 0%R) !!! m * g m)%R = g c.
Proof.
  destruct centre_lt as [Hc HN].
  rewrite (big_sum_single N c) by
    (try lia; intros k Hk Hne;
     rewrite list_lookup_total_insert_ne, lookup_total_replicate_2 by done;
     lra).
  rewrite list_lookup_total_insert_eq by (rewrite length_replicate; lia).
  lra.
Qed.

Lemma flat_store_bin (k : nat) :
  k < L + 1 →
  flat_store L !!! (2 * k) = cos (omega N k c) ∧
  flat_store L !!! (2 * k + 1) = (- sin (omega N k c))%R.
Proof.
  intros Hk. unfold flat_store. fold N c.
  destruct (interleave_lookup
              (rfft (<[c := 1%R]> (replicate N 0%R)) N) (N * 2) k) as [-> ->].
  - rewrite rfft_length. unfold N. rewrite half_fft_size.
    unfold fft_size_of. lia.
  - rewrite rfft_length. unfold N. by rewrite half_fft_size.
  - rewrite rfft_lookup by (unfold N; by rewrite half_fft_size).
    unfold rfft_bin. cbn [fst snd].
    by rewrite (impulse_sum (λ m, cos (omega N k m))),
               (impulse_sum (λ m, sin (omega N k m))).
Qed.

(** One bin of the pass-through block: the phase ramp of the impulse turns
    the three angles into a single one. *)
Lemma shifted_angle (k m i : nat) :
  i < N →
  cos (omega N k (m + c + N - i)) =
  (cos (omega N k m) * (cos (omega N k c) * cos (omega N k i)
                        + sin (omega N k c) * sin (omega N k i))
   + sin (omega N k m) * (cos (omega N k c) * sin (omega N k i)
                          - sin (omega N k c) * cos (omega N k i)))%R.
Proof.
  intros Hi.
  assert (0 < INR N)%R as HN by (apply lt_0_INR; unfold N, fft_size_of; lia).
  replace (omega N k (m + c + N - i))
    with (omega N k m + omega N k c - omega N k i + 2 * INR k * PI)%R.
  - rewrite cos_period, cos_minus, cos_plus, sin_plus. lra.
  - unfold omega. rewrite minus_INR, !plus_INR by lia. field. lra.
Qed.

Lemma spectral_flat_sum (x : list R) (i : nat) :
  i < N →
  spectral_at (flat_store L) L x i =
    big_sum N (λ m, x !!! m * dirichlet L (m + c + N - i))%R.
Proof.
  intros Hi. unfold spectral_at, dirichlet. cbn zeta. fold N.
  rewrite (big_sum_ext N _
             (λ m, big_sum (L + 1)
                     (λ k, x !!! m * (bin_weight N k
                                      * cos (omega N k (m + c + N - i))))
                   / INR N)%R).
  2:{ intros m _. rewrite big_sum_scal. unfold Rdiv. ring. }
  assert (∀ (n : nat) (f : nat → R) (d : R),
            big_sum n (λ m, f m / d)%R = (big_sum n f / d)%R) as Hdiv.
  { intros n f d. induction n as [|n IH]; simpl.
    - unfold Rdiv. ring.
    - rewrite IH. unfold Rdiv. ring. }
  rewrite Hdiv. f_equal.
  rewrite (big_sum_swap N (L + 1)). apply big_sum_ext. intros k Hk.
  destruct (flat_store_bin k Hk) as [-> ->].
  unfold rfft_bin, cmul. cbn [fst snd].
  set (A := big_sum N (λ m, x !!! m * cos (omega N k m))%R).
  set (B := big_sum N (λ m, x !!! m * sin (omega N k m))%R).
  rewrite (big_sum_ext N _
             (λ m, (bin_weight N k
                    * (cos (omega N k c) * cos (omega N k i)
                       + sin (omega N k c) * sin (omega N k i)))
                   * (x !!! m * cos (omega N k m))
                   + (bin_weight N k
                      * (cos (omega N k c) * sin (omega N k i)
                         - sin (omega N k c) * cos (omega N k i)))
                     * (x !!! m * sin (omega N k m)))%R).
  2:{ intros m _. rewrite shifted_angle by done. ring. }
  rewrite big_sum_plus, !big_sum_scal. fold A B. ring.
Qed.

(** The pass-through block is a circular shift by the centre of the
    impulse. *)
Lemma spectral_flat (x : list R) (i : nat) :
  i < N → spectral_at (flat_store L) L x i = x !!! ((i + N - c) mod N).
Proof.
  intros Hi. destruct centre_lt as [Hc HN].
  rewrite spectral_flat_sum by done.
  assert (0 < N) as HN0 by lia.
  set (j := (i + N - c) mod N).
  assert (j < N) as Hj by (apply Nat.mod_upper_bound; lia).
  assert ((j + c + N - i) mod N = 0) as Hon.
  { unfold j. destruct (decide (c ≤ i)).
    - replace (i + N - c) with (i - c + 1 * N) by lia.
      rewrite Nat.Div0.mod_add, (Nat.mod_small (i - c)) by lia.
      replace (i - c + c + N - i) with (1 * N) by lia.
      apply Nat.Div0.mod_mul.
    - rewrite (Nat.mod_small (i + N - c)) by lia.
      replace (i + N - c + c + N - i) with (2 * N) by lia.
      apply Nat.Div0.mod_mul. }
  rewrite (big_sum_single N j); [|done|].
  - rewrite dirichlet_on by done. lra.
  - intros m Hm Hne. rewrite dirichlet_off; [lra|done|].
    intros Hz. apply Hne.
    apply Nat.Lcm0.mod_divide in Hz as [q Hq].
    apply Nat.Lcm0.mod_divide in Hon as [q' Hq'].
    fold N in Hq, Hq'.
    assert (q = q') as ->. 
    { destruct (lt_eq_lt_dec q q') as [[Hlt|Heq]|Hgt]; [|done|].
      - assert (q * N + N ≤ q' * N) by nia. lia.
      - assert (q' * N + N ≤ q * N) by nia. lia. }
    lia.
Qed.

End Flat.

(** ** The pass-through engine *)

Lemma past_shift (xs : list R) (t d e : nat) :
  past xs (t + e) (d + e) = past xs t d.
Proof.
  unfold past. repeat case_decide; try lia; try done. f_equal. lia.
Qed.

Lemma mod_wrap (M t j : nat) : M ≤ j → (t + j) mod M = (t + (j - M)) mod M.
Proof.
  intros Hj. replace (t + j) with (t + (j - M) + 1 * M) by lia.
  apply Nat.Div0.mod_add.
Qed.

Lemma gather_lookup (L : nat) (ia : list R) (iwp j : nat) :
  gather L ia iwp !!! j =
    if decide (j < L) then ia !!! ((iwp + j) mod L) else 0%R.
Proof.
  unfold gather. case_decide as Hj.
  - rewrite lookup_total_app_l by (by rewrite length_fmap, length_seq).
    rewrite fmap_seq_lookup_total by done. by rewrite gather_idx_eq.
  - rewrite lookup_total_app_r by (rewrite length_fmap, length_seq; lia).
    rewrite length_fmap, length_seq.
    destruct (decide (j - L < fft_size_of L - L)).
    + by apply lookup_total_replicate_2.
    + apply lookup_total_beyond. rewrite length_replicate. lia.
Qed.

Ltac engine_fields :=
  cbn [read_out push init_engine fst snd
       input_accum output_accum latency_delay input_write_pos output_read_pos
       delay_write_pos delay_read_pos samples_in_buffer].

Section Passthrough.
Variable H : nat.
Hypothesis H_pos : 0 < H.

Let L := 2 * H.
Let tr := spectral (flat_store L) L.

Lemma sizes :
  hop_size_of L = H ∧ fft_size_of L = 4 * H ∧ accum_size L = 8 * H ∧ 0 < L.
Proof.
  unfold hop_size_of, fft_size_of, accum_size, fft_size_of, L.
  repeat split; try lia.
  rewrite Nat.mul_comm. by apply Nat.div_mul.
Qed.

(** The block output for a window holding the last [2 * H] samples before
    time [n]: the window delayed by [H] inside a frame of [4 * H]. *)
Lemma passthrough_block_output (input ia : list R) (n i : nat) :
  (∀ j, j < 2 * H → ia !!! ((n + j) mod (2 * H)) = past input (n + j) (2 * H)) →
  i < 4 * H →
  tr (gather L ia (n mod (2 * H))) !!! i =
    if decide (H ≤ i < 3 * H) then past input (n + i) (3 * H) else 0%R.
Proof.
  intros Hia Hi. destruct sizes as (Hh & Hf & Hm & HL).
  unfold tr. rewrite spectral_lookup by lia.
  rewrite spectral_flat by lia. rewrite Hf.
  replace (L / 2) with H by (symmetry; exact Hh).
  rewrite gather_lookup. fold L in Hia.
  destruct (decide (H ≤ i)) as [Hge|Hlt].
  - replace (i + 4 * H - H) with (i - H + 1 * (4 * H)) by lia.
    rewrite Nat.Div0.mod_add, Nat.mod_small by lia.
    case_decide; case_decide; try (unfold L in *; lia); [|done].
    unfold L. rewrite Nat.Div0.add_mod_idemp_l, Hia by (unfold L in *; lia).
    replace (n + i) with (n + (i - H) + H) by lia.
    replace (3 * H) with (2 * H + H) by lia.
    by rewrite past_shift.
  - rewrite Nat.mod_small by lia.
    rewrite decide_False by (unfold L; lia).
    by rewrite decide_False by lia.
Qed.

(** A block of the pass-through engine, run at time [n = T + H]. *)
Lemma passthrough_block (input : list R) (st : engine) (n T : nat) :
  wf L st → n = T + H →
  input_write_pos st = n mod (2 * H) →
  output_read_pos st = T mod (8 * H) →
  delay_write_pos st = (T + H) mod (8 * H) →
  (∀ j, j < 2 * H →
     input_accum st !!! ((n + j) mod (2 * H)) = past input (n + j) (2 * H)) →
  (∀ j, j < 8 * H →
     output_accum st !!! ((T + j) mod (8 * H)) =
       (overlap_count H j * past input (T + j) (2 * H))%R) →
  (∀ j, j < 8 * H →
     latency_delay st !!! ((T + H + j) mod (8 * H)) =
       past input (T + H + j) (8 * H + 3 * H)) →
  let st' := process_block tr halve L st in
  wf L st' ∧
  input_accum st' = input_accum st ∧
  input_write_pos st' = input_write_pos st ∧
  delay_read_pos st' = delay_read_pos st ∧
  samples_in_buffer st' = 0 ∧
  output_read_pos st' = n mod (8 * H) ∧
  delay_write_pos st' = (n + H) mod (8 * H) ∧
  (∀ j, j < 8 * H →
     output_accum st' !!! ((n + j) mod (8 * H)) =
       (overlap_count H j * past input (n + j) (2 * H))%R) ∧
  (∀ j, j < 8 * H →
     latency_delay st' !!! ((n + H + j) mod (8 * H)) =
       past input (n + H + j) (8 * H + 3 * H)).
Proof.
  intros Hwf -> Hiwp Horp Hdwp Hia Hoa Hdl. cbn zeta.
  destruct sizes as (Hh & Hf & Hm & HL).
  destruct (process_block_spec tr halve L HL st Hwf)
    as (Hwf' & E1 & E2 & E3 & E4 & E5 & E6 & Hd1 & Hd2 & Ho1 & Ho2 & Ho3).
  rewrite Hh in E5, E6, Hd1, Hd2, Ho1, Ho2.
  rewrite Hm in E5, E6, Hd1, Hd2, Ho1, Ho2, Ho3. rewrite Hf in Ho2, Ho3.
  rewrite Horp in E5, Hd1, Ho1, Ho2, Ho3.
  rewrite Hdwp in E6, Hd1, Hd2.
  rewrite Hiwp in Hd1, Ho2.
  rewrite Nat.Div0.add_mod_idemp_l in E5, E6.
  assert (∀ i, i < 4 * H →
            tr (gather L (input_accum st) ((T + H) mod (2 * H))) !!! i =
            if decide (H ≤ i < 3 * H)
            then past input (T + H + i) (3 * H) else 0%R) as Hty
    by (intros i Hi; by apply passthrough_block_output).
  split; [exact Hwf'|]. repeat split; try done.
  - (* the accumulator *)
    intros j Hj. rewrite <- Nat.add_assoc.
    destruct (decide (H + j < 8 * H)) as [Hin|Hout].
    + rewrite <- Nat.Div0.add_mod_idemp_l.
      destruct (decide (H + j < 4 * H)) as [Hf4|Hf4].
      * rewrite Ho2 by lia. rewrite Nat.Div0.add_mod_idemp_l.
        rewrite Hoa, Hty by lia.
        rewrite !Nat.add_assoc.
        replace (past input (T + H + H + j) (3 * H))
          with (past input (T + H + j) (2 * H)).
        2:{ replace (T + H + H + j) with (T + H + j + H) by lia.
            replace (3 * H) with (2 * H + H) by lia.
            by rewrite past_shift. }
        unfold overlap_count. repeat case_decide; try lia; lra.
      * rewrite Ho3 by lia. rewrite Nat.Div0.add_mod_idemp_l.
        rewrite Hoa by lia. rewrite !Nat.add_assoc.
        unfold overlap_count. repeat case_decide; try lia; lra.
    + rewrite mod_wrap by lia. rewrite <- Nat.Div0.add_mod_idemp_l.
      rewrite Ho1 by lia.
      unfold overlap_count. repeat case_decide; try lia; lra.
  - (* the delay line *)
    intros j Hj.
    replace (T + H + H + j) with (T + H + (H + j)) by lia.
    destruct (decide (H + j < 8 * H)) as [Hin|Hout].
    + rewrite <- Nat.Div0.add_mod_idemp_l.
      rewrite Hd2 by lia. rewrite Nat.Div0.add_mod_idemp_l.
      by rewrite Hdl by lia.
    + rewrite mod_wrap by lia. rewrite <- Nat.Div0.add_mod_idemp_l.
      rewrite Hd1 by lia. rewrite !Nat.Div0.add_mod_idemp_l.
      rewrite Hoa, Hty by lia.
      rewrite decide_False by lia.
      unfold overlap_count. rewrite decide_True by lia.
      replace (T + H + (H + j)) with (T + (H + j - 8 * H) + (8 * H + H)) by lia.
      replace (8 * H + 3 * H) with (2 * H + (8 * H + H)) by lia.
      rewrite past_shift. unfold halve. lra.
Qed.

Lemma delay_read (input dl : list R) (n T : nat) :
  (∀ j, j < 8 * H →
     dl !!! ((T + H + j) mod (8 * H)) = past input (T + H + j) (8 * H + 3 * H)) →
  n < T + H ≤ n + 8 * H →
  dl !!! (n mod (8 * H)) = past input n (3 * H).
Proof.
  intros Hdl Hn.
  replace (n mod (8 * H)) with ((T + H + (n + 8 * H - (T + H))) mod (8 * H)).
  - rewrite Hdl by lia.
    replace (T + H + (n + 8 * H - (T + H))) with (n + 8 * H) by lia.
    replace (8 * H + 3 * H) with (3 * H + 8 * H) by lia.
    apply past_shift.
  - replace (T + H + (n + 8 * H - (T + H))) with (n + 1 * (8 * H)) by lia.
    apply Nat.Div0.mod_add.
Qed.

Lemma passthrough_push (input : list R) (st : engine) (n T : nat) :
  wf L st → passthrough_inv H input n T st →
  ∀ j, j < 2 * H →
    input_accum (push L st (input !!! n)) !!! ((n + 1 + j) mod (2 * H)) =
      past input (n + 1 + j) (2 * H).
Proof.
  intros Hwf Hinv j Hj. cbn [push input_accum].
  rewrite (pt_iwp _ _ _ _ _ Hinv).
  destruct (decide (j = 2 * H - 1)) as [->|Hne].
  - replace (n + 1 + (2 * H - 1)) with (n + 1 * (2 * H)) by lia.
    rewrite Nat.Div0.mod_add.
    rewrite list_lookup_total_insert_eq.
    + unfold past. rewrite decide_True by lia. f_equal. lia.
    + rewrite (wf_ia _ _ Hwf). apply Nat.mod_upper_bound. unfold L. lia.
  - rewrite list_lookup_total_insert_ne.
    + rewrite <- Nat.add_assoc. apply (pt_ia _ _ _ _ _ Hinv). lia.
    + intros Heq. rewrite <- (Nat.add_0_r n) in Heq at 1.
      rewrite <- Nat.add_assoc in Heq.
      apply mod_window_inj in Heq; lia.
Qed.

(** One iteration of the pass-through engine: the invariant moves on and
    the sample read is the input of [3 * H] iterations ago. *)
Lemma passthrough_step (input : list R) (st : engine) (n T : nat) :
  wf L st → passthrough_inv H input n T st →
  (∃ T', passthrough_inv H input (n + 1) T'
           (step tr halve L st (input !!! n)).1) ∧
  (step tr halve L st (input !!! n)).2 = past input n (3 * H).
Proof.
  intros Hwf Hinv. destruct sizes as (Hh & Hf & Hm & HL).
  pose proof (passthrough_push input st n T Hwf Hinv) as Hia1.
  pose proof (push_wf L HL st (input !!! n) Hwf) as Hwf1.
  destruct Hinv as [Htime Hsib Hiwp Horp Hdwp Hdrp Hia Hoa Hdl].
  assert (fft_size_of L * 2 = 8 * H) as Hm' by exact Hm.
  unfold step.
  set (st1 := push L st (input !!! n)) in *.
  assert (input_write_pos st1 = (n + 1) mod (2 * H)) as Hiwp1.
  { unfold st1. cbn [push input_write_pos]. rewrite Hiwp. unfold L.
    by rewrite Nat.Div0.add_mod_idemp_l. }
  assert (triggers L st1 = bool_decide (H ≤ n - T + 1)) as ->.
  { unfold triggers, st1. cbn [push samples_in_buffer]. by rewrite Hh, Hsib. }
  case_bool_decide as Htr.
  - (* a block runs: n + 1 = T + H *)
    destruct (passthrough_block input st1 (n + 1) T)
      as (Hwf2 & E1 & E2 & E3 & E4 & E5 & E6 & Hoa2 & Hdl2);
      try done; try lia.
    set (st2 := process_block tr halve L st1) in *.
    unfold read_out. cbn [fst snd]. split.
    + exists (n + 1). split; engine_fields; try done; try lia.
      * rewrite E3. unfold st1. cbn [push delay_read_pos].
        by rewrite Hm', Hdrp, Nat.Div0.add_mod_idemp_l.
      * intros j Hj. rewrite E1. by apply Hia1.
    + rewrite E3. unfold st1. cbn [push delay_read_pos]. rewrite Hdrp.
      apply (delay_read input _ n (n + 1)); [done|lia].
  - (* no block *)
    unfold read_out. cbn [fst snd]. split.
    + exists T. split; engine_fields; try done; try lia.
      * unfold st1. engine_fields. rewrite Hsib. lia.
      * unfold st1. engine_fields.
        by rewrite Hm', Hdrp, Nat.Div0.add_mod_idemp_l.
    + unfold st1. cbn [push delay_read_pos latency_delay]. rewrite Hdrp.
      apply (delay_read input _ n T); [done|lia].
Qed.

Lemma passthrough_init (input : list R) :
  passthrough_inv H input 0 0 (init_engine L).
Proof.
  destruct sizes as (Hh & Hf & Hm & HL).
  assert (fft_size_of L * 2 = 8 * H) as Hm' by exact Hm.
  split; engine_fields; try (rewrite ?Nat.Div0.mod_0_l; done); try lia.
  - unfold latency_of. fold (hop_size_of L). rewrite Hh.
    symmetry. apply Nat.mod_small. lia.
  - intros j Hj. fold L. rewrite lookup_total_replicate_2
      by (apply Nat.mod_upper_bound; lia).
    unfold past. by rewrite decide_False by lia.
  - intros j Hj. rewrite Hm', lookup_total_replicate_2
      by (apply Nat.mod_upper_bound; lia).
    unfold past, overlap_count. repeat case_decide; try lia; lra.
  - intros j Hj. rewrite Hm', lookup_total_replicate_2
      by (apply Nat.mod_upper_bound; lia).
    unfold past. by rewrite decide_False by lia.
Qed.

Lemma passthrough_run (input : list R) (n : nat) :
  n ≤ length input →
  (∃ T, passthrough_inv H input n T (run tr halve L (take n input)).1) ∧
  (run tr halve L (take n input)).2 = (λ i, past input i (3 * H)) <$> seq 0 n.
Proof.
  destruct sizes as (Hh & Hf & Hm & HL).
  induction n as [|n IH]; intros Hn.
  - split; [|done]. exists 0. rewrite take_0. apply passthrough_init.
  - destruct IH as [[T Hinv] Hout]; [lia|].
    rewrite (take_S_r input n (input !!! n))
      by (apply list_lookup_lookup_total_lt; lia).
    rewrite run_snoc. cbn [fst snd].
    destruct (passthrough_step input _ n T (run_wf tr halve L HL (take n input))
                Hinv) as [[T' Hinv'] Hy].
    split.
    + exists T'. by rewrite <- Nat.add_1_r.
    + by rewrite Hout, Hy, seq_S, fmap_app.
Qed.

End Passthrough.

(** With the flat store and an even filter length [2 * H], the engine
    returns its input delayed by [3 * H] samples, zeros first. *)
Lemma passthrough_output (H : nat) (input_signal : list R) :
  0 < H →
  process_overlap_add input_signal (flat_store (2 * H)) (2 * H) =
    Some ((λ i, past input_signal i (3 * H)) <$> seq 0 (length input_signal)).
Proof.
  intros HH. unfold process_overlap_add, process.
  destruct input_signal as [|x xs] eqn:E; [done|]. rewrite <- E.
  rewrite decide_False by lia. f_equal.
  destruct (passthrough_run H HH input_signal (length input_signal)) as [_ Hout];
    [done|].
  by rewrite firstn_all in Hout.
Qed.

(** C1, on the failing input.  With the store that
    [create_flat_ir_frequency_domain 4 8] returns, the input [1 .. 8] comes
    out delayed by six samples, [3 * filter_length / 2], not by the two that
    [latency = filter_length / 2] promises: output sample 2 is [0], not
    [input[0] = 1]. *)
Theorem passthrough_delay_on_failing_input :
  ∃ ir,
    create_flat_ir_frequency_domain 4 8 = Some ir ∧
    process_overlap_add [1; 2; 3; 4; 5; 6; 7; 8]%R ir 4
      = Some [0; 0; 0; 0; 0; 0; 1; 2]%R.
Proof.
  exists (flat_store 4). split.
  - change 8 with (fft_size_of 4). apply create_flat_store. lia.
  - change 4 with (2 * 2) at 1 2. by rewrite (passthrough_output 2) by lia.
Qed.

(** C2, on the concrete scenario of [main]: [filter_length = 4096], the
    store of [create_flat_ir_frequency_domain 4096 8192], one second of a
    1 kHz sine at 44100 Hz.  The output is silent up to and including index
    6144, its first non-zero sample is at index 6145, and from index 6144 on
    it is the input delayed by [6144 = 3 * 4096 / 2] samples: the delay is
    three times the [filter_length / 2 = 2048] that [latency] names. *)
Theorem passthrough_delay_in_main_scenario :
  ∃ ir out,
    create_flat_ir_frequency_domain 4096 (4096 * 2) = Some ir ∧
    process_overlap_add (test_signal 44100 1000 (441 * 100)) ir 4096 = Some out ∧
    (∀ i, i ≤ (3 * 2048) → out !! i = Some 0%R) ∧
    (∃ v, out !! (3 * 2048 + 1) = Some v ∧ v ≠ 0%R) ∧
    (∀ i, (3 * 2048) ≤ i < 441 * 100 →
          out !! i = test_signal 44100 1000 (441 * 100) !! (i - (3 * 2048))).
Proof.
  set (input := test_signal 44100 1000 (441 * 100)).
  assert (length input = 441 * 100) as Hlen
    by (unfold input, test_signal; by rewrite length_fmap, length_seq).
  assert (∀ i, i < 441 * 100 →
            input !! i = Some (sin (2 * PI * 1000 * (INR i / 44100)))%R) as Hin.
  { intros i Hi. unfold input, test_signal.
    by rewrite list_lookup_fmap, lookup_seq_lt. }
  exists (flat_store (2 * 2048)),
         ((λ i, past input i (3 * 2048)) <$> seq 0 (length input)).
  assert (∀ i, i < 441 * 100 →
            ((λ i, past input i (3 * 2048)) <$> seq 0 (length input)) !! i =
            Some (past input i (3 * 2048))) as Hout.
  { intros i Hi. rewrite list_lookup_fmap, lookup_seq_lt by lia. done. }
  split; [|split; [|split; [|split]]].
  - change (4096 * 2) with (fft_size_of 4096). apply create_flat_store. lia.
  - change 4096 with (2 * 2048). apply passthrough_output. lia.
  - intros i Hi. rewrite Hout by lia. f_equal. unfold past.
    destruct (decide (i = (3 * 2048))) as [->|Hne].
    + rewrite decide_True by lia.
      replace (3 * 2048 - 3 * 2048) with 0 by lia.
      rewrite (list_lookup_total_correct input 0 _ (Hin 0 ltac:(lia))).
      simpl INR. replace (2 * PI * 1000 * (0 / 44100))%R with 0%R by lra.
      apply sin_0.
    + by rewrite decide_False by lia.
  - eexists. split.
    + rewrite Hout by lia. unfold past. rewrite decide_True by lia.
      replace (3 * 2048 + 1 - 3 * 2048) with 1 by lia.
      by rewrite (list_lookup_total_correct input 1 _ (Hin 1 ltac:(lia))).
    + apply Rgt_not_eq, sin_gt_0; simpl INR; pose proof PI_RGT_0; lra.
  - intros i Hi. rewrite Hout by lia. unfold past. rewrite decide_True by lia.
    symmetry. apply list_lookup_lookup_total_lt. lia.
Qed.

(** ** Configuration *)

(** C8 as stated fails: 3 is not a power of two, and configuring the flat
    store for [filter_length = 3] succeeds. *)
Lemma non_power_of_two_accepted :
  (∀ k, 2 ^ k ≠ 3) ∧
  ∃ store, create_flat_ir_frequency_domain 3 (3 * 2) = Some store.
Proof.
  split.
  - intros [|[|k]]; simpl; lia.
  - exists (flat_store 3). apply (create_flat_store 3). lia.
Qed.

(** ** Further properties of the sample loop *)

(** X1.  However long the engine runs, its three buffers keep their sizes
    ([filter_length], [2 * fft_size], [2 * fft_size]) and its four cursors
    stay inside them: no store or read of the loop is ever out of range. *)
Theorem buffers_and_cursors_in_bounds
    (input_signal ir_freq_domain : list R) (filter_length : nat) :
  0 < filter_length →
  ir_store_ok ir_freq_domain filter_length →
  wf filter_length (engine_after input_signal ir_freq_domain filter_length).
Proof. intros HL _. by apply run_wf. Qed.

Lemma buffers_and_cursors_in_bounds_witness :
  wf 2 (engine_after [1; 2; 3] [1; 0; 0; -1; -1; 0; 0; 0] 2)%R.
Proof.
  apply (buffers_and_cursors_in_bounds [1; 2; 3]%R [1; 0; 0; -1; -1; 0; 0; 0]%R 2).
  - lia.
  - unfold ir_store_ok. simpl. lia.
Defined.

(** X2.  The engine is causal: the output for a stream that continues is
    the output for the stream so far followed by further samples; what has
    been emitted never depends on input that arrives later. *)
Theorem output_of_prefix (x y ir_freq_domain out : list R) (filter_length : nat) :
  ir_store_ok ir_freq_domain filter_length →
  process_overlap_add (x ++ y) ir_freq_domain filter_length = Some out →
  process_overlap_add x ir_freq_domain filter_length = Some (take (length x) out).
Proof.
  intros _ Hrun. unfold process_overlap_add, process in *.
  destruct x as [|x0 x]; [done|].
  rewrite <- app_comm_cons in Hrun. case_decide as HL; [done|].
  injection Hrun as <-. f_equal. rewrite app_comm_cons.
  set (tr := spectral ir_freq_domain filter_length).
  destruct (run_app_outputs tr halve filter_length (x0 :: x) y) as [rest ->].
  rewrite take_app_length'; [done|]. by rewrite run_length.
Qed.

Lemma output_of_prefix_witness :
  ∃ out,
    process_overlap_add ([1; 2] ++ [3])%R [1; 0; 0; -1; -1; 0; 0; 0]%R 2 = Some out ∧
    process_overlap_add [1; 2]%R [1; 0; 0; -1; -1; 0; 0; 0]%R 2
      = Some (take (length [1; 2]%R) out).
Proof.
  eexists. split; [reflexivity|].
  apply (output_of_prefix [1; 2]%R [3]%R [1; 0; 0; -1; -1; 0; 0; 0]%R _ 2).
  - unfold ir_store_ok. simpl. lia.
  - reflexivity.
Defined.

(** X4.  With [filter_length = 1] the hop is 0: a block runs on every
    sample but its transfer loop is empty, the delay line is never written,
    and the output is silence for every input and every store. *)
Theorem filter_length_one_is_silent (input_signal ir_freq_domain : list R) :
  ir_store_ok ir_freq_domain 1 →
  process_overlap_add input_signal ir_freq_domain 1
    = Some (replicate (length input_signal) 0%R).
Proof.
  intros _. unfold process_overlap_add, process.
  destruct input_signal as [|x0 xs0] eqn:E; [done|]. rewrite <- E. clear E.
  rewrite decide_False by lia. f_equal.
  set (tr := spectral ir_freq_domain 1).
  assert (latency_delay (run tr halve 1 input_signal).1 = replicate 4 0%R
          ∧ (run tr halve 1 input_signal).2
            = replicate (length input_signal) 0%R) as [_ ->]; [|done].
  induction input_signal as [|x xs [IHd IHo]] using rev_ind; [done|].
  rewrite run_snoc, length_app. cbn [fst snd length].
  set (st := (run tr halve 1 xs).1) in *.
  assert (latency_delay (if triggers 1 (push 1 st x)
                         then process_block tr halve 1 (push 1 st x)
                         else push 1 st x) = replicate 4 0%R) as Hd.
  { destruct (triggers 1 (push 1 st x)); [|exact IHd].
    unfold process_block, drain. cbn [hop_size_of Nat.div seq foldl].
    exact IHd. }
  unfold step. cbn [read_out fst snd latency_delay]. rewrite Hd. split; [done|].
  set (drp := delay_read_pos _).
  assert (replicate 4 0%R !!! drp = 0%R) as ->.
  { destruct (decide (drp < 4)) as [Hlt|Hge].
    - by apply lookup_total_replicate_2.
    - apply lookup_total_beyond. rewrite length_replicate. lia. }
  rewrite IHo. replace (length xs + 1) with (S (length xs)) by lia.
  by rewrite replicate_S_end.
Qed.

Lemma filter_length_one_is_silent_witness :
  process_overlap_add [1; 2; 3]%R [1; 0; 1; 0]%R 1
    = Some (replicate (length [1; 2; 3]%R) 0%R).
Proof.
  apply (filter_length_one_is_silent [1; 2; 3]%R [1; 0; 1; 0]%R).
  unfold ir_store_ok. simpl. lia.
Defined.

(** ** The input ring buffer and the cursors *)

Section Cursors.
Variable transform : list R → list R.
Variable compensate : R → R.
Variable L : nat.
Hypothesis L_pos : 0 < L.

Lemma step_input st x :
  input_accum (step transform compensate L st x).1
    = <[input_write_pos st := x]> (input_accum st) ∧
  input_write_pos (step transform compensate L st x).1
    = (input_write_pos st + 1) mod L.
Proof.
  unfold step. destruct (triggers L (push L st x)); [|done].
  unfold process_block. by destruct (drain _ _ _ _) as [[? ?] ?].
Qed.

(** After [n] samples the slot [(n + j) mod L] of the input buffer holds the
    sample that entered [L - j] iterations ago. *)
Lemma input_ring (input : list R) (n : nat) :
  n ≤ length input →
  let st := (run transform compensate L (take n input)).1 in
  input_write_pos st = n mod L ∧
  ∀ j, j < L → input_accum st !!! ((n + j) mod L) = past input (n + j) L.
Proof.
  cbn zeta. induction n as [|n IH]; intros Hn.
  - rewrite take_0. split; [by rewrite Nat.Div0.mod_0_l|].
    intros j Hj. cbn. rewrite lookup_total_replicate_2
      by (apply Nat.mod_upper_bound; lia).
    unfold past. by rewrite decide_False by lia.
  - destruct IH as [Hiwp Hia]; [lia|].
    rewrite (take_S_r input n (input !!! n))
      by (apply list_lookup_lookup_total_lt; lia).
    rewrite run_snoc. cbn [fst].
    pose proof (run_wf transform compensate L L_pos (take n input)) as Hwf.
    set (st := (run transform compensate L (take n input)).1) in *.
    destruct (step_input st (input !!! n)) as [-> ->].
    rewrite Hiwp. split.
    + rewrite Nat.Div0.add_mod_idemp_l. f_equal. lia.
    + intros j Hj. destruct (decide (j = L - 1)) as [->|Hne].
      * replace (S n + (L - 1)) with (n + 1 * L) by lia.
        rewrite Nat.Div0.mod_add, list_lookup_total_insert_eq.
        -- unfold past. rewrite decide_True by lia. f_equal. lia.
        -- rewrite (wf_ia _ _ Hwf). apply Nat.mod_upper_bound. lia.
      * rewrite list_lookup_total_insert_ne.
        -- replace (S n + j) with (n + (1 + j)) by lia. apply Hia. lia.
        -- intros Heq. rewrite <- (Nat.add_0_r n) in Heq at 1.
           replace (S n + j) with (n + (1 + j)) in Heq by lia.
           apply mod_window_inj in Heq; lia.
Qed.

(** After [k] blocks and [s < hop] further samples the cursors are where
    closed forms put them. *)
Lemma cursor_positions (input : list R) :
  0 < hop_size_of L →
  let st := (run transform compensate L input).1 in
  ∃ k, length input = k * hop_size_of L + samples_in_buffer st ∧
       samples_in_buffer st < hop_size_of L ∧
       output_read_pos st = (k * hop_size_of L) mod accum_size L ∧
       delay_write_pos st = (k * hop_size_of L + hop_size_of L) mod accum_size L ∧
       delay_read_pos st = length input mod accum_size L.
Proof.
  intros HH. cbn zeta.
  destruct (accum_size_bounds L L_pos) as (HF0 & HM & HHF).
  induction input as [|x xs IH] using rev_ind.
  - exists 0. unfold run, run_from. cbn [foldl]. engine_fields.
    unfold latency_of. fold (hop_size_of L). cbn [length].
    rewrite !Nat.Div0.mod_0_l, Nat.mul_0_l, Nat.add_0_l.
    rewrite (Nat.mod_small (hop_size_of L)) by lia. done.
  - destruct IH as (k & Hlen & Hsib & Horp & Hdwp & Hdrp).
    pose proof (run_wf transform compensate L L_pos xs) as Hwf.
    rewrite run_snoc, length_app. cbn [fst length].
    set (st := (run transform compensate L xs).1) in *.
    pose proof (push_wf L L_pos st x Hwf) as Hwf1.
    unfold step.
    assert (triggers L (push L st x)
            = bool_decide (hop_size_of L ≤ samples_in_buffer st + 1)) as ->
      by done.
    case_bool_decide as Htr.
    + destruct (process_block_spec transform compensate L L_pos _ Hwf1)
        as (_ & _ & _ & E3 & E4 & E5 & E6 & _).
      exists (k + 1). engine_fields. rewrite E3, E4, E5, E6. engine_fields.
      rewrite Horp, Hdwp, Hdrp, !Nat.Div0.add_mod_idemp_l.
      change (fft_size_of L * 2) with (accum_size L).
      repeat split; try lia; f_equal; lia.
    + exists k. engine_fields. rewrite Hdrp, Nat.Div0.add_mod_idemp_l.
      repeat split; try done; lia.
Qed.

End Cursors.

(** X5.  The block assembled from the ring buffer after [n] samples is the
    most recent [filter_length] samples in chronological order, oldest
    first (zeros where the stream had not started yet), followed by
    [filter_length] zeros of padding. *)
Theorem snapshot_is_recent_input (input_signal ir_freq_domain : list R)
    (filter_length j : nat) :
  0 < filter_length →
  ir_store_ok ir_freq_domain filter_length →
  j < fft_size_of filter_length →
  let st := engine_after input_signal ir_freq_domain filter_length in
  gather filter_length (input_accum st) (input_write_pos st) !! j =
    Some (if decide (j < filter_length)
          then past input_signal (length input_signal + j) filter_length
          else 0%R).
Proof.
  intros HL _ Hj. cbn zeta. unfold engine_after.
  set (tr := spectral ir_freq_domain filter_length).
  destruct (input_ring tr halve filter_length HL input_signal
              (length input_signal)) as [Hiwp Hia]; [done|].
  rewrite firstn_all in Hiwp, Hia.
  rewrite list_lookup_lookup_total_lt.
  2:{ unfold gather. rewrite length_app, length_fmap, length_seq,
        length_replicate. unfold fft_size_of in *. lia. }
  f_equal. rewrite gather_lookup. case_decide; [|done].
  rewrite Hiwp, Nat.Div0.add_mod_idemp_l. by apply Hia.
Qed.

Lemma snapshot_is_recent_input_witness :
  gather 2 (input_accum (engine_after [1; 2; 3] [1; 0; 0; -1; -1; 0; 0; 0] 2)%R)
           (input_write_pos (engine_after [1; 2; 3] [1; 0; 0; -1; -1; 0; 0; 0] 2)%R)
    !! 1 = Some (if decide (1 < 2)
                 then past [1; 2; 3]%R (length [1; 2; 3]%R + 1) 2 else 0%R).
Proof.
  apply (snapshot_is_recent_input [1; 2; 3]%R [1; 0; 0; -1; -1; 0; 0; 0]%R 2 1).
  - lia.
  - unfold ir_store_ok. simpl. lia.
  - unfold fft_size_of. lia.
Defined.

(** X6.  After [n] samples with [filter_length >= 2] the cursors sit at
    closed-form positions: [samples_in_buffer = n mod hop], the input cursor
    at [n mod filter_length], the delay read cursor at [n mod (2 * fft_size)],
    the accumulator read cursor at the last block time [n - n mod hop], and
    the delay write cursor one hop further; so the write cursor leads the
    read cursor by [hop - samples_in_buffer] slots, never fewer than one and
    never more than [hop]. *)
Theorem cursors_in_closed_form (input_signal ir_freq_domain : list R)
    (filter_length : nat) :
  2 ≤ filter_length →
  ir_store_ok ir_freq_domain filter_length →
  let st := engine_after input_signal ir_freq_domain filter_length in
  let n := length input_signal in
  let hop := hop_size_of filter_length in
  let size := accum_size filter_length in
  samples_in_buffer st = n mod hop ∧
  input_write_pos st = n mod filter_length ∧
  delay_read_pos st = n mod size ∧
  output_read_pos st = (n - n mod hop) mod size ∧
  delay_write_pos st = (n - n mod hop + hop) mod size ∧
  delay_write_pos st = (delay_read_pos st + (hop - samples_in_buffer st)) mod size.
Proof.
  intros HL _. cbn zeta. unfold engine_after.
  set (tr := spectral ir_freq_domain filter_length).
  assert (0 < filter_length) as HL' by lia.
  assert (0 < hop_size_of filter_length) as HH
    by (unfold hop_size_of; apply Nat.div_str_pos; lia).
  destruct (cursor_positions tr halve filter_length HL' input_signal HH)
    as (k & Hlen & Hsib & Horp & Hdwp & Hdrp).
  destruct (input_ring tr halve filter_length HL' input_signal
              (length input_signal)) as [Hiwp _]; [done|].
  rewrite firstn_all in Hiwp.
  set (st := (run tr halve filter_length input_signal).1) in *.
  assert (samples_in_buffer st = length input_signal mod hop_size_of filter_length)
    as Hmod.
  { apply (Nat.mod_unique _ _ k); [done|]. rewrite Hlen. lia. }
  assert (k * hop_size_of filter_length
          = length input_signal - length input_signal mod hop_size_of filter_length)
    as Hk by (rewrite <- Hmod; lia).
  rewrite <- Hk. repeat split; try done.
  rewrite Hdrp, Nat.Div0.add_mod_idemp_l, Hdwp. f_equal. lia.
Qed.

Lemma cursors_in_closed_form_witness :
  samples_in_buffer (engine_after [1; 2; 3] [1; 0; 0; -1; -1; 0; 0; 0] 2)%R
    = length [1; 2; 3]%R mod hop_size_of 2.
Proof.
  refine (proj1 (cursors_in_closed_form
                   [1; 2; 3]%R [1; 0; 0; -1; -1; 0; 0; 0]%R 2 _ _)).
  - lia.
  - unfold ir_store_ok. simpl. lia.
Defined.

(** ** The flat store, for any sizes *)

Lemma impulse_sum_at (n c : nat) (g : nat → R) :
  c < n →
  big_sum n (λ m, <[c := 1%R]> (replicate n 0%R) !!! m * g m)%R = g c.
Proof.
  intros Hc.
  rewrite (big_sum_single n c) by
    (try lia; intros k Hk Hne;
     rewrite list_lookup_total_insert_ne, lookup_total_replicate_2 by done;
     lra).
  rewrite list_lookup_total_insert_eq by (rewrite length_replicate; lia).
  lra.
Qed.

Lemma interleave_tail (bins : list (R * R)) (n i : nat) :
  length bins * 2 ≤ i → interleave bins n !!! i = 0%R.
Proof.
  intros Hi. destruct (decide (i < n)) as [Hlt|Hge].
  2:{ apply lookup_total_beyond. rewrite interleave_length. lia. }
  unfold interleave.
  destruct (foldl_insert_spec (λ k, 2 * k) (λ k _, (bins !!! k).1)
              (length bins) (replicate n 0%R)) as (Hl1 & _ & Hmiss1).
  { intros j Hj. rewrite length_replicate. lia. }
  { intros a b _ _ ?. lia. }
  set (evens := foldl _ (replicate n 0%R) _) in *.
  destruct (foldl_insert_spec (λ k, 2 * k + 1) (λ k _, (bins !!! k).2)
              (length bins) evens) as (_ & _ & Hmiss2).
  { intros j Hj. rewrite Hl1, length_replicate. lia. }
  { intros a b _ _ ?. lia. }
  rewrite Hmiss2, Hmiss1 by (intros; lia).
  by apply lookup_total_replicate_2.
Qed.

(** X7.  [create_flat_ir_frequency_domain] fails exactly when the centre
    [filter_length // 2] does not fit in [conv_fft_size]; when it succeeds
    the store has [2 * conv_fft_size] entries, each of its
    [conv_fft_size // 2 + 1] bins has magnitude one (a flat, unity-gain
    spectrum), and the entries after the bins are zero. *)
Theorem flat_store_is_flat (filter_length conv_fft_size : nat) :
  (create_flat_ir_frequency_domain filter_length conv_fft_size = None
   ↔ conv_fft_size ≤ filter_length / 2) ∧
  ∀ store,
    create_flat_ir_frequency_domain filter_length conv_fft_size = Some store →
    length store = conv_fft_size * 2 ∧
    (∀ k, k ≤ conv_fft_size / 2 →
          (store !!! (2 * k)%nat * store !!! (2 * k)%nat
           + store !!! (2 * k + 1)%nat * store !!! (2 * k + 1)%nat)%R = 1%R) ∧
    (∀ i, (conv_fft_size / 2 + 1) * 2 ≤ i → store !!! i = 0%R).
Proof.
  unfold create_flat_ir_frequency_domain.
  case_decide as Hc; (split; [split; [try done; lia|try done; lia]|]);
    [|done].
  intros store Hs. apply (inj Some) in Hs. subst store.
  set (n := conv_fft_size) in *. set (c := filter_length / 2) in *.
  assert (n / 2 + 1 ≤ n) as Hbins.
  { pose proof (Nat.div_lt n 2). destruct (decide (n = 1)) as [->|]; [done|]. lia. }
  split; [apply interleave_length|]. split.
  - intros k Hk.
    destruct (interleave_lookup (rfft (<[c := 1%R]> (replicate n 0%R)) n) (n * 2) k)
      as [-> ->]; rewrite ?rfft_length; try lia.
    rewrite rfft_lookup by lia. unfold rfft_bin. cbn [fst snd].
    rewrite (impulse_sum_at n c (λ m, cos (omega n k m))) by done.
    rewrite (impulse_sum_at n c (λ m, sin (omega n k m))) by done.
    pose proof (sin2_cos2 (omega n k c)) as Hs. unfold Rsqr in Hs. lra.
  - intros i Hi. apply interleave_tail. by rewrite rfft_length.
Qed.

(** X8.  With the store that [create_flat_ir_frequency_domain] makes for an
    even filter length [2 * H], the engine is a pure delay of [3 * H]
    samples, three times [latency = filter_length // 2]: output sample [i] is
    input sample [i - 3 * H], and zero while [i < 3 * H]. *)
Theorem flat_store_delays_by_three_hops (H : nat)
    (input_signal ir_freq_domain out : list R) (i : nat) :
  0 < H →
  create_flat_ir_frequency_domain (2 * H) (2 * H * 2) = Some ir_freq_domain →
  process_overlap_add input_signal ir_freq_domain (2 * H) = Some out →
  i < length input_signal →
  out !! i = Some (if decide (3 * H ≤ i) then input_signal !!! (i - 3 * H) else 0%R).
Proof.
  intros HH Hir Hrun Hi.
  change (2 * H * 2) with (fft_size_of (2 * H)) in Hir.
  rewrite create_flat_store in Hir by lia.
  apply (inj Some) in Hir. subst ir_freq_domain.
  rewrite passthrough_output in Hrun by done.
  apply (inj Some) in Hrun. subst out.
  by rewrite list_lookup_fmap, lookup_seq_lt.
Qed.

Lemma flat_store_delays_by_three_hops_witness :
  ∃ ir out,
    create_flat_ir_frequency_domain (2 * 1) (2 * 1 * 2) = Some ir ∧
    process_overlap_add [1; 2; 3; 4]%R ir (2 * 1) = Some out ∧
    out !! 3 = Some (if decide (3 * 1 ≤ 3) then [1; 2; 3; 4]%R !!! (3 - 3 * 1) else 0%R).
Proof.
  eexists _, _. split; [reflexivity|]. split; [reflexivity|].
  eapply (flat_store_delays_by_three_hops 1 [1; 2; 3; 4]%R _ _ 3).
  - lia.
  - reflexivity.
  - reflexivity.
  - simpl. lia.
Defined.

(** ** The spectral step as a circular convolution *)

Section Convolution.
Variable L : nat.
Hypothesis L_pos : 0 < L.

Lemma omega_wrap (k i m : nat) :
  i < fft_size_of L → m < fft_size_of L →
  cos (omega (fft_size_of L) k ((i + fft_size_of L - m) mod fft_size_of L))
    = cos (omega (fft_size_of L) k i - omega (fft_size_of L) k m) ∧
  sin (omega (fft_size_of L) k ((i + fft_size_of L - m) mod fft_size_of L))
    = sin (omega (fft_size_of L) k i - omega (fft_size_of L) k m).
Proof.
  intros Hi Hm. set (N := fft_size_of L) in *.
  assert (0 < INR N)%R as HN
    by (apply lt_0_INR; unfold N, fft_size_of; lia).
  destruct (decide (m ≤ i)) as [Hle|Hgt].
  - replace (i + N - m) with (i - m + 1 * N) by lia.
    rewrite Nat.Div0.mod_add, Nat.mod_small by lia.
    replace (omega N k (i - m)) with (omega N k i - omega N k m)%R; [done|].
    unfold omega. rewrite minus_INR by lia. field. lra.
  - rewrite Nat.mod_small by lia.
    replace (omega N k (i + N - m))
      with (omega N k i - omega N k m + 2 * INR k * PI)%R.
    + by rewrite cos_period, sin_period.
    + unfold omega. rewrite minus_INR, plus_INR by lia. field. lra.
Qed.

Lemma ir_taps_lookup (ir : list R) (d : nat) :
  d < fft_size_of L →
  ir_taps ir L !!! d =
    (big_sum (L + 1)
       (λ k, bin_weight (fft_size_of L) k *
             (ir !!! (2 * k)%nat * cos (omega (fft_size_of L) k d)
              - ir !!! (2 * k + 1)%nat * sin (omega (fft_size_of L) k d)))
     / INR (fft_size_of L))%R.
Proof.
  intros Hd. unfold ir_taps, irfft.
  rewrite fmap_seq_lookup_total by done. rewrite half_fft_size.
  f_equal. apply big_sum_ext. intros k Hk.
  unfold ir_complex. by rewrite fmap_seq_lookup_total by done.
Qed.

(** Lines 85-92 compute the circular convolution of the block with the taps
    of the store. *)
Lemma spectral_at_convolution (ir x : list R) (i : nat) :
  i < fft_size_of L →
  spectral_at ir L x i =
    big_sum (fft_size_of L)
      (λ m, x !!! m
            * ir_taps ir L !!! ((i + fft_size_of L - m) mod fft_size_of L))%R.
Proof.
  intros Hi. set (N := fft_size_of L) in *.
  assert (0 < N) as HN0 by (unfold N, fft_size_of; lia).
  rewrite (big_sum_ext N _
             (λ m, big_sum (L + 1)
                     (λ k, x !!! m *
                           (bin_weight N k *
                            (ir !!! (2 * k)%nat
                               * cos (omega N k i - omega N k m)
                             - ir !!! (2 * k + 1)%nat
                               * sin (omega N k i - omega N k m))))
                   / INR N)%R).
  2:{ intros m Hm. rewrite ir_taps_lookup by (apply Nat.mod_upper_bound; lia).
      fold N. rewrite big_sum_scal. unfold Rdiv. rewrite <- Rmult_assoc.
      f_equal. f_equal. apply big_sum_ext. intros k _.
      destruct (omega_wrap k i m Hi Hm) as [Hc Hs]. fold N in Hc, Hs.
      by rewrite Hc, Hs. }
  assert (∀ (n : nat) (f : nat → R) (d : R),
            big_sum n (λ m, f m / d)%R = (big_sum n f / d)%R) as Hdiv.
  { intros n f d. induction n as [|n IH]; simpl.
    - unfold Rdiv. ring.
    - rewrite IH. unfold Rdiv. ring. }
  rewrite Hdiv. unfold spectral_at. cbn zeta. fold N. f_equal.
  rewrite (big_sum_swap N (L + 1)). apply big_sum_ext. intros k Hk.
  unfold rfft_bin, cmul. cbn [fst snd].
  set (A := big_sum N (λ m, x !!! m * cos (omega N k m))%R).
  set (B := big_sum N (λ m, x !!! m * sin (omega N k m))%R).
  set (a := ir !!! (2 * k)). set (b := ir !!! (2 * k + 1)).
  rewrite (big_sum_ext N _
             (λ m, (bin_weight N k
                    * (a * cos (omega N k i) - b * sin (omega N k i)))
                   * (x !!! m * cos (omega N k m))
                   + (bin_weight N k
                      * (a * sin (omega N k i) + b * cos (omega N k i)))
                     * (x !!! m * sin (omega N k m)))%R).
  2:{ intros m _. rewrite cos_minus, sin_minus. ring. }
  rewrite big_sum_plus, !big_sum_scal. fold A B. ring.
Qed.

End Convolution.

(** X9.  The spectral step (forward transform, multiplication by the store,
    inverse transform) returns [fft_size] samples, the circular convolution
    of the block with the time-domain taps of the store:
    [time_output[i] = sum_m fft_buffer[m] * taps[(i - m) mod fft_size]]. *)
Theorem spectral_step_is_circular_convolution
    (ir_freq_domain fft_buffer : list R) (filter_length i : nat) :
  0 < filter_length →
  ir_store_ok ir_freq_domain filter_length →
  i < fft_size_of filter_length →
  length (spectral ir_freq_domain filter_length fft_buffer)
    = fft_size_of filter_length ∧
  spectral ir_freq_domain filter_length fft_buffer !! i =
    Some (big_sum (fft_size_of filter_length)
            (λ m, fft_buffer !!! m
                  * ir_taps ir_freq_domain filter_length
                      !!! ((i + fft_size_of filter_length - m)
                           mod fft_size_of filter_length))%R).
Proof.
  intros HL _ Hi. split; [apply spectral_length|].
  rewrite list_lookup_lookup_total_lt by (by rewrite spectral_length).
  f_equal. rewrite spectral_lookup by done.
  by apply spectral_at_convolution.
Qed.

Lemma spectral_step_is_circular_convolution_witness :
  spectral [1; 0; 0; -1; -1; 0; 0; 0]%R 2 [1; 2; 0; 0]%R !! 1 =
    Some (big_sum (fft_size_of 2)
            (λ m, [1; 2; 0; 0]%R !!! m
                  * ir_taps [1; 0; 0; -1; -1; 0; 0; 0]%R 2
                      !!! ((1 + fft_size_of 2 - m) mod fft_size_of 2))%R).
Proof.
  refine (proj2 (spectral_step_is_circular_convolution
                   [1; 0; 0; -1; -1; 0; 0; 0]%R [1; 2; 0; 0]%R 2 1 _ _ _)).
  - lia.
  - unfold ir_store_ok. simpl. lia.
  - unfold fft_size_of. lia.
Defined.

(** ** Overlap-add with arbitrary taps *)

Lemma big_sum_split (a b : nat) (f : nat → R) :
  big_sum (a + b) f = (big_sum a f + big_sum b (λ i, f (a + i)%nat))%R.
Proof.
  induction b as [|b IH].
  - rewrite Nat.add_0_r. simpl. lra.
  - rewrite Nat.add_succ_r. simpl. rewrite IH. lra.
Qed.

Lemma big_sum_rev (n : nat) (f : nat → R) :
  big_sum n f = big_sum n (λ i, f (n - 1 - i)).
Proof.
  induction n as [|n IH]; [done|].
  change (big_sum (S n) (λ i, f (S n - 1 - i)))
    with (big_sum (1 + n) (λ i, f (S n - 1 - i))).
  rewrite big_sum_split. cbn [big_sum].
  rewrite (big_sum_ext n (λ i, f (S n - 1 - (1 + i))) (λ i, f (n - 1 - i)))
    by (intros; f_equal; lia).
  rewrite <- IH. replace (S n - 1 - 0) with n by lia. lra.
Qed.

Lemma big_sum_vanish (n : nat) (f : nat → R) :
  (∀ i, i < n → f i = 0%R) → big_sum n f = 0%R.
Proof.
  intros Hf. rewrite (big_sum_ext n f (λ _, 0%R)) by done. apply big_sum_zero.
Qed.

Section OverlapSum.
Variable H : nat.
Hypothesis H_pos : 0 < H.
Variables h input : list R.
Hypothesis h_support : ∀ d, 2 * H < d < 4 * H → h !!! d = 0%R.

(** The samples of the five hops before time [T + H], each with the tap
    that carries it to the output slot [j] of the block at [T + H]. *)
Let G (T j u : nat) : R :=
  (past input (T + H + u) (5 * H) * h !!! ((j + 7 * H - u) mod (4 * H))%nat)%R.

Lemma G_outside (T j u : nat) :
  j < H → u < 5 * H → ¬ (j + H ≤ u ≤ j + 3 * H) → G T j u = 0%R.
Proof.
  intros Hj Hu Hout. unfold G.
  destruct (decide (u < j + H)) as [Hlo|Hhi].
  - replace (j + 7 * H - u) with (j + 3 * H - u + 1 * (4 * H)) by lia.
    rewrite Nat.Div0.mod_add, Nat.mod_small by lia.
    rewrite h_support by lia. lra.
  - rewrite Nat.mod_small by lia. rewrite h_support by lia. lra.
Qed.

Lemma block_out_chunks (T j q : nat) :
  j < H → q < 4 →
  block_out h input H (T + H - q * H) (j + q * H) =
    (big_sum H (λ m, G T j ((3 - q) * H + m)%nat)
     + big_sum H (λ m, G T j ((4 - q) * H + m)%nat))%R.
Proof.
  intros Hj Hq. unfold block_out.
  replace (2 * H) with (H + H) at 1 by lia.
  rewrite big_sum_split.
  assert (∀ m, m < 2 * H →
            (past input (T + H - q * H + m) (2 * H)
             * h !!! ((j + q * H + 4 * H - m) mod (4 * H))%nat)%R
            = G T j ((3 - q) * H + m)) as Hterm.
  { intros m Hm. unfold G.
    replace (j + 7 * H - ((3 - q) * H + m)) with (j + q * H + 4 * H - m) by nia.
    f_equal. unfold past.
    destruct (decide (q * H ≤ T + H)) as [Hle|Hgt].
    - repeat case_decide; try nia; try done. f_equal. nia.
    - repeat case_decide; try nia; done. }
  f_equal.
  - apply big_sum_ext. intros m Hm. apply Hterm. lia.
  - apply big_sum_ext. intros m Hm. rewrite Hterm by lia. f_equal. nia.
Qed.

(** Every slot a block drains has received each input sample times tap
    exactly twice: the four block outputs that reach it sum to twice the
    linear convolution. *)
Lemma overlap_sum (T j : nat) :
  j < H →
  (block_out h input H (T + H) j + block_out h input H T (j + H)
   + block_out h input H (T - H) (j + 2 * H)
   + block_out h input H (T - 2 * H) (j + 3 * H))%R
  = (2 * delayed_convolution h input (2 * H) 0 (T + H + j))%R.
Proof.
  intros Hj.
  pose proof (block_out_chunks T j 0 Hj ltac:(lia)) as E0.
  pose proof (block_out_chunks T j 1 Hj ltac:(lia)) as E1.
  pose proof (block_out_chunks T j 2 Hj ltac:(lia)) as E2.
  pose proof (block_out_chunks T j 3 Hj ltac:(lia)) as E3.
  replace (T + H - 0 * H) with (T + H) in E0 by lia.
  replace (j + 0 * H) with j in E0 by lia.
  replace (T + H - 1 * H) with T in E1 by lia.
  replace (j + 1 * H) with (j + H) in E1 by lia.
  replace (T + H - 2 * H) with (T - H) in E2 by lia.
  replace (T + H - 3 * H) with (T - 2 * H) in E3 by lia.
  rewrite E0, E1, E2, E3. clear E0 E1 E2 E3.
  cbn [Nat.sub].
  set (S0 := big_sum H (λ m, G T j (0 * H + m))).
  set (S1 := big_sum H (λ m, G T j (1 * H + m))).
  set (S2 := big_sum H (λ m, G T j (2 * H + m))).
  set (S3 := big_sum H (λ m, G T j (3 * H + m))).
  set (S4 := big_sum H (λ m, G T j (4 * H + m))).
  assert (S0 = 0%R) as HS0
    by (apply big_sum_vanish; intros m Hm; apply G_outside; lia).
  assert (S4 = 0%R) as HS4
    by (apply big_sum_vanish; intros m Hm; apply G_outside; lia).
  (* the three middle hops, as one sum over the taps *)
  assert (big_sum (5 * H) (G T j) = (S0 + S1 + S2 + S3 + S4)%R) as Hall.
  { replace (5 * H) with (H + (H + (H + (H + H)))) by lia.
    rewrite !big_sum_split. unfold S0, S1, S2, S3, S4.
    rewrite (big_sum_ext H (G T j) (λ m, G T j (0 * H + m)))
      by (intros; f_equal; lia).
    rewrite (big_sum_ext H (λ i, G T j (H + i)) (λ m, G T j (1 * H + m)))
      by (intros; f_equal; lia).
    rewrite (big_sum_ext H (λ i, G T j (H + (H + i))) (λ m, G T j (2 * H + m)))
      by (intros; f_equal; lia).
    rewrite (big_sum_ext H (λ i, G T j (H + (H + (H + i))))
               (λ m, G T j (3 * H + m))) by (intros; f_equal; lia).
    rewrite (big_sum_ext H (λ i, G T j (H + (H + (H + (H + i)))))
               (λ m, G T j (4 * H + m))) by (intros; f_equal; lia).
    lra. }
  assert (big_sum (5 * H) (G T j)
          = delayed_convolution h input (2 * H) 0 (T + H + j)) as Hconv.
  { replace (5 * H) with ((j + H) + ((2 * H + 1) + (2 * H - j - 1))) by lia.
    rewrite (big_sum_split (j + H)), (big_sum_split (2 * H + 1)).
    rewrite (big_sum_vanish (j + H)) by (intros; apply G_outside; lia).
    rewrite (big_sum_vanish (2 * H - j - 1)) by (intros; apply G_outside; lia).
    rewrite big_sum_rev. unfold delayed_convolution.
    rewrite Rplus_0_l, Rplus_0_r. apply big_sum_ext. intros d Hd.
    unfold G.
    replace (j + 7 * H - (j + H + (2 * H + 1 - 1 - d))) with (d + 1 * (4 * H))
      by lia.
    rewrite Nat.Div0.mod_add, Nat.mod_small by lia.
    replace (T + H + (j + H + (2 * H + 1 - 1 - d)))
      with (T + H + j + (3 * H - d)) by lia.
    replace (5 * H) with (0 + 2 * H + d + (3 * H - d)) by lia.
    rewrite past_shift. lra. }
  rewrite <- Hconv, Hall. lra.
Qed.

End OverlapSum.

Lemma delayed_convolution_shift (h input : list R) (L s t e : nat) :
  delayed_convolution h input L (s + e) (t + e) = delayed_convolution h input L s t.
Proof.
  unfold delayed_convolution. apply big_sum_ext. intros d _.
  replace (s + e + L + d) with (s + L + d + e) by lia.
  by rewrite past_shift.
Qed.

Lemma delayed_convolution_unshift (h input : list R) (L t e : nat) :
  delayed_convolution h input L e (t + e) = delayed_convolution h input L 0 t.
Proof. apply (delayed_convolution_shift h input L 0 t e). Qed.

Section OverlapAdd.
Variable H : nat.
Hypothesis H_pos : 0 < H.
Variable ir input : list R.

Let L := 2 * H.
Let tr := spectral ir L.
Let h := ir_taps ir L.

Hypothesis h_support : ∀ d, 2 * H < d < 4 * H → h !!! d = 0%R.

(** The block output for a window holding the last [2 * H] samples before
    time [n]. *)
Lemma general_block_output (ia : list R) (n i : nat) :
  (∀ j, j < 2 * H → ia !!! ((n + j) mod (2 * H)) = past input (n + j) (2 * H)) →
  i < 4 * H →
  tr (gather L ia (n mod (2 * H))) !!! i = block_out h input H n i.
Proof.
  intros Hia Hi. destruct (sizes H H_pos) as (Hh & Hf & Hm & HL).
  fold L in Hh, Hf, Hm, HL.
  unfold tr. rewrite spectral_lookup by lia.
  rewrite spectral_at_convolution by lia. fold h. rewrite Hf.
  replace (4 * H) with (2 * H + 2 * H) at 1 by lia.
  rewrite big_sum_split.
  match goal with
  | |- (_ + ?b)%R = _ => assert (b = 0%R) as ->
  end.
  { apply big_sum_vanish. intros m Hm'. cbn beta. rewrite gather_lookup.
    rewrite decide_False by (unfold L; lia). lra. }
  rewrite Rplus_0_r. unfold block_out. apply big_sum_ext. intros m Hm'.
  rewrite gather_lookup, decide_True by (unfold L; lia).
  unfold L. by rewrite Nat.Div0.add_mod_idemp_l, Hia.
Qed.

(** A block, run at time [n = T + H]. *)
Lemma general_block (st : engine) (n T : nat) :
  wf L st → n = T + H →
  input_write_pos st = n mod (2 * H) →
  output_read_pos st = T mod (8 * H) →
  delay_write_pos st = (T + H) mod (8 * H) →
  (∀ j, j < 2 * H →
     input_accum st !!! ((n + j) mod (2 * H)) = past input (n + j) (2 * H)) →
  (∀ j, j < 8 * H →
     output_accum st !!! ((T + j) mod (8 * H)) = pending_sum h input H T j) →
  (∀ j, j < 8 * H →
     latency_delay st !!! ((T + H + j) mod (8 * H)) =
       delayed_convolution h input (2 * H) (8 * H) (T + H + j)) →
  let st' := process_block tr halve L st in
  wf L st' ∧
  input_accum st' = input_accum st ∧
  input_write_pos st' = input_write_pos st ∧
  delay_read_pos st' = delay_read_pos st ∧
  samples_in_buffer st' = 0 ∧
  output_read_pos st' = n mod (8 * H) ∧
  delay_write_pos st' = (n + H) mod (8 * H) ∧
  (∀ j, j < 8 * H →
     output_accum st' !!! ((n + j) mod (8 * H)) = pending_sum h input H n j) ∧
  (∀ j, j < 8 * H →
     latency_delay st' !!! ((n + H + j) mod (8 * H)) =
       delayed_convolution h input (2 * H) (8 * H) (n + H + j)).
Proof.
  intros Hwf -> Hiwp Horp Hdwp Hia Hoa Hdl. cbn zeta.
  destruct (sizes H H_pos) as (Hh & Hf & Hm & HL).
  fold L in Hh, Hf, Hm, HL.
  destruct (process_block_spec tr halve L HL st Hwf)
    as (Hwf' & E1 & E2 & E3 & E4 & E5 & E6 & Hd1 & Hd2 & Ho1 & Ho2 & Ho3).
  rewrite Hh in E5, E6, Hd1, Hd2, Ho1, Ho2.
  rewrite Hm in E5, E6, Hd1, Hd2, Ho1, Ho2, Ho3. rewrite Hf in Ho2, Ho3.
  rewrite Horp in E5, Hd1, Ho1, Ho2, Ho3.
  rewrite Hdwp in E6, Hd1, Hd2.
  rewrite Hiwp in Hd1, Ho2.
  rewrite Nat.Div0.add_mod_idemp_l in E5, E6.
  assert (∀ i, i < 4 * H →
            tr (gather L (input_accum st) ((T + H) mod (2 * H))) !!! i =
            block_out h input H (T + H) i) as Hty
    by (intros i Hi; by apply general_block_output).
  split; [exact Hwf'|]. repeat split; try done.
  - (* the accumulator *)
    intros j Hj. rewrite <- Nat.add_assoc.
    destruct (decide (H + j < 8 * H)) as [Hin|Hout].
    + rewrite <- Nat.Div0.add_mod_idemp_l.
      destruct (decide (H + j < 4 * H)) as [Hf4|Hf4].
      * rewrite Ho2 by lia. rewrite Nat.Div0.add_mod_idemp_l.
        rewrite Hoa, Hty by lia. unfold pending_sum.
        replace (T + H - H) with T by lia.
        replace (T + H - 2 * H) with (T - H) by lia.
        replace (H + j + H) with (j + 2 * H) by lia.
        replace (H + j + 2 * H) with (j + 3 * H) by lia.
        replace (H + j) with (j + H) by lia.
        repeat case_decide; try lia; lra.
      * rewrite Ho3 by lia. rewrite Nat.Div0.add_mod_idemp_l.
        rewrite Hoa by lia. unfold pending_sum.
        repeat case_decide; try lia; lra.
    + rewrite mod_wrap by lia. rewrite <- Nat.Div0.add_mod_idemp_l.
      rewrite Ho1 by lia. unfold pending_sum.
      repeat case_decide; try lia; lra.
  - (* the delay line *)
    intros j Hj.
    replace (T + H + H + j) with (T + H + (H + j)) by lia.
    destruct (decide (H + j < 8 * H)) as [Hin|Hout].
    + rewrite <- Nat.Div0.add_mod_idemp_l.
      rewrite Hd2 by lia. rewrite Nat.Div0.add_mod_idemp_l.
      by rewrite Hdl by lia.
    + rewrite mod_wrap by lia. rewrite <- Nat.Div0.add_mod_idemp_l.
      rewrite Hd1 by lia. rewrite !Nat.Div0.add_mod_idemp_l.
      rewrite Hoa, Hty by lia.
      set (j0 := H + j - 8 * H).
      replace (T + H + (H + j)) with (T + H + j0 + 8 * H) by (unfold j0; lia).
      rewrite delayed_convolution_unshift.
      pose proof (overlap_sum H H_pos h input h_support T j0
                    ltac:(unfold j0; lia)) as Hsum.
      unfold pending_sum. rewrite !decide_True by (unfold j0; lia).
      unfold halve. lra.
Qed.

Lemma general_delay_read (dl : list R) (n T : nat) :
  (∀ j, j < 8 * H →
     dl !!! ((T + H + j) mod (8 * H)) =
       delayed_convolution h input (2 * H) (8 * H) (T + H + j)) →
  n < T + H ≤ n + 8 * H →
  dl !!! (n mod (8 * H)) = delayed_convolution h input (2 * H) 0 n.
Proof.
  intros Hdl Hn.
  replace (n mod (8 * H)) with ((T + H + (n + 8 * H - (T + H))) mod (8 * H)).
  - rewrite Hdl by lia.
    replace (T + H + (n + 8 * H - (T + H))) with (n + 8 * H) by lia.
    apply delayed_convolution_unshift.
  - replace (T + H + (n + 8 * H - (T + H))) with (n + 1 * (8 * H)) by lia.
    apply Nat.Div0.mod_add.
Qed.

Lemma general_push (st : engine) (n T : nat) :
  wf L st → overlap_inv H h input n T st →
  ∀ j, j < 2 * H →
    input_accum (push L st (input !!! n)) !!! ((n + 1 + j) mod (2 * H)) =
      past input (n + 1 + j) (2 * H).
Proof.
  intros Hwf Hinv j Hj. cbn [push input_accum].
  rewrite (ov_iwp _ _ _ _ _ _ Hinv).
  destruct (decide (j = 2 * H - 1)) as [->|Hne].
  - replace (n + 1 + (2 * H - 1)) with (n + 1 * (2 * H)) by lia.
    rewrite Nat.Div0.mod_add.
    rewrite list_lookup_total_insert_eq.
    + unfold past. rewrite decide_True by lia. f_equal. lia.
    + rewrite (wf_ia _ _ Hwf). apply Nat.mod_upper_bound. unfold L. lia.
  - rewrite list_lookup_total_insert_ne.
    + rewrite <- Nat.add_assoc. apply (ov_ia _ _ _ _ _ _ Hinv). lia.
    + intros Heq. rewrite <- (Nat.add_0_r n) in Heq at 1.
      rewrite <- Nat.add_assoc in Heq.
      apply mod_window_inj in Heq; lia.
Qed.

Lemma general_step (st : engine) (n T : nat) :
  wf L st → overlap_inv H h input n T st →
  (∃ T', overlap_inv H h input (n + 1) T'
           (step tr halve L st (input !!! n)).1) ∧
  (step tr halve L st (input !!! n)).2
    = delayed_convolution h input (2 * H) 0 n.
Proof.
  intros Hwf Hinv. destruct (sizes H H_pos) as (Hh & Hf & Hm & HL).
  fold L in Hh, Hf, Hm, HL.
  pose proof (general_push st n T Hwf Hinv) as Hia1.
  pose proof (push_wf L HL st (input !!! n) Hwf) as Hwf1.
  destruct Hinv as [Htime Hsib Hiwp Horp Hdwp Hdrp Hia Hoa Hdl].
  assert (fft_size_of L * 2 = 8 * H) as Hm' by exact Hm.
  unfold step.
  set (st1 := push L st (input !!! n)) in *.
  assert (input_write_pos st1 = (n + 1) mod (2 * H)) as Hiwp1.
  { unfold st1. cbn [push input_write_pos]. rewrite Hiwp. unfold L.
    by rewrite Nat.Div0.add_mod_idemp_l. }
  assert (triggers L st1 = bool_decide (H ≤ n - T + 1)) as ->.
  { unfold triggers, st1. cbn [push samples_in_buffer]. by rewrite Hh, Hsib. }
  case_bool_decide as Htr.
  - destruct (general_block st1 (n + 1) T)
      as (Hwf2 & E1 & E2 & E3 & E4 & E5 & E6 & Hoa2 & Hdl2);
      try done; try lia.
    set (st2 := process_block tr halve L st1) in *.
    unfold read_out. cbn [fst snd]. split.
    + exists (n + 1). split; engine_fields; try done; try lia.
      * rewrite E3. unfold st1. cbn [push delay_read_pos].
        by rewrite Hm', Hdrp, Nat.Div0.add_mod_idemp_l.
      * intros j Hj. rewrite E1. by apply Hia1.
    + rewrite E3. unfold st1. cbn [push delay_read_pos]. rewrite Hdrp.
      apply (general_delay_read _ n (n + 1)); [done|lia].
  - unfold read_out. cbn [fst snd]. split.
    + exists T. split; engine_fields; try done; try lia.
      * unfold st1. engine_fields. rewrite Hsib. lia.
      * unfold st1. engine_fields.
        by rewrite Hm', Hdrp, Nat.Div0.add_mod_idemp_l.
    + unfold st1. cbn [push delay_read_pos latency_delay]. rewrite Hdrp.
      apply (general_delay_read _ n T); [done|lia].
Qed.

Lemma block_out_zero (n : nat) : block_out h input H 0 n = 0%R.
Proof.
  unfold block_out. apply big_sum_vanish. intros m Hm.
  unfold past. rewrite decide_False by lia. lra.
Qed.

Lemma general_init : overlap_inv H h input 0 0 (init_engine L).
Proof.
  destruct (sizes H H_pos) as (Hh & Hf & Hm & HL).
  fold L in Hh, Hf, Hm, HL.
  assert (fft_size_of L * 2 = 8 * H) as Hm' by exact Hm.
  split; engine_fields; try (rewrite ?Nat.Div0.mod_0_l; done); try lia.
  - unfold latency_of. fold (hop_size_of L). rewrite Hh.
    symmetry. apply Nat.mod_small. lia.
  - intros j Hj. fold L. rewrite lookup_total_replicate_2
      by (apply Nat.mod_upper_bound; lia).
    unfold past. by rewrite decide_False by lia.
  - intros j Hj. rewrite Hm', lookup_total_replicate_2
      by (apply Nat.mod_upper_bound; lia).
    unfold pending_sum. cbn [Nat.sub]. rewrite !block_out_zero.
    repeat case_decide; lra.
  - intros j Hj. rewrite Hm', lookup_total_replicate_2
      by (apply Nat.mod_upper_bound; lia).
    unfold delayed_convolution. symmetry. apply big_sum_vanish. intros d Hd.
    unfold past. rewrite decide_False by lia. lra.
Qed.

Lemma general_run (n : nat) :
  n ≤ length input →
  (∃ T, overlap_inv H h input n T (run tr halve L (take n input)).1) ∧
  (run tr halve L (take n input)).2
    = (λ i, delayed_convolution h input (2 * H) 0 i) <$> seq 0 n.
Proof.
  destruct (sizes H H_pos) as (Hh & Hf & Hm & HL).
  fold L in Hh, Hf, Hm, HL.
  induction n as [|n IH]; intros Hn.
  - split; [|done]. exists 0. rewrite take_0. apply general_init.
  - destruct IH as [[T Hinv] Hout]; [lia|].
    rewrite (take_S_r input n (input !!! n))
      by (apply list_lookup_lookup_total_lt; lia).
    rewrite run_snoc. cbn [fst snd].
    destruct (general_step _ n T (run_wf tr halve L HL (take n input)) Hinv)
      as [[T' Hinv'] Hy].
    split.
    + exists T'. by rewrite <- Nat.add_1_r.
    + by rewrite Hout, Hy, seq_S, fmap_app.
Qed.

End OverlapAdd.

(** The taps of the flat store are the impulse it was made from. *)
Lemma flat_taps (L d : nat) :
  0 < L → d < fft_size_of L →
  ir_taps (flat_store L) L !!! d = if decide (d = L / 2) then 1%R else 0%R.
Proof.
  intros HL Hd. destruct (centre_lt L HL) as [Hc HN].
  set (N := fft_size_of L) in *. set (c := L / 2) in *.
  assert (0 < INR N)%R as HN0 by (apply lt_0_INR; lia).
  rewrite ir_taps_lookup by done. fold N.
  assert (big_sum (L + 1)
            (λ k, bin_weight N k *
                  (flat_store L !!! (2 * k)%nat * cos (omega N k d)
                   - flat_store L !!! (2 * k + 1)%nat * sin (omega N k d)))
          / INR N = dirichlet L (d + N - c))%R as ->.
  { unfold dirichlet. fold N. f_equal. apply big_sum_ext. intros k Hk.
    destruct (flat_store_bin L HL k Hk) as [-> ->]. fold N c.
    replace (omega N k (d + N - c))
      with (omega N k d - omega N k c + 2 * INR k * PI)%R.
    - rewrite cos_period, cos_minus. ring.
    - unfold omega. rewrite minus_INR, plus_INR by lia. field. lra. }
  case_decide as Hdc.
  - apply dirichlet_on; [done|]. fold N. subst d.
    replace (c + N - c) with (1 * N) by lia. apply Nat.Div0.mod_mul.
  - apply dirichlet_off; [done|]. fold N. intros Hz.
    apply Nat.Lcm0.mod_divide in Hz as [q Hq].
    destruct q as [|[|q]]; nia.
Qed.

(** X10.  Overlap-add is a delayed linear convolution.  For an even filter
    length [2 * H] and a store whose time-domain taps lie at indices
    [0 .. filter_length] of the [fft_size] frame, output sample [i] is
    [sum_{d <= filter_length} taps[d] * input[i - filter_length - d]] (input
    before the start counting as zero): the input convolved with the taps,
    [filter_length] samples late.  The halving at the drain is exact: every
    product of a sample and a tap reaches its accumulator slot twice. *)
Theorem overlap_add_is_delayed_convolution (H : nat)
    (input_signal ir_freq_domain out : list R) (i : nat) :
  0 < H →
  ir_store_ok ir_freq_domain (2 * H) →
  (∀ d, 2 * H < d < 4 * H → ir_taps ir_freq_domain (2 * H) !!! d = 0%R) →
  process_overlap_add input_signal ir_freq_domain (2 * H) = Some out →
  i < length input_signal →
  out !! i =
    Some (big_sum (2 * H + 1)
            (λ d, ir_taps ir_freq_domain (2 * H) !!! d
                  * past input_signal i (2 * H + d))%R).
Proof.
  intros HH _ Hsup Hrun Hi. unfold process_overlap_add, process in Hrun.
  destruct input_signal as [|x0 xs0] eqn:E; [simpl in Hi; lia|].
  rewrite <- E in *. clear E. rewrite decide_False in Hrun by lia.
  apply (inj Some) in Hrun. subst out.
  destruct (general_run H HH ir_freq_domain input_signal Hsup
              (length input_signal)) as [_ Hout]; [done|].
  rewrite firstn_all in Hout. rewrite Hout.
  by rewrite list_lookup_fmap, lookup_seq_lt.
Qed.

Lemma overlap_add_is_delayed_convolution_witness :
  ∃ out,
    process_overlap_add [1; 2; 3; 4]%R (flat_store (2 * 1)) (2 * 1) = Some out ∧
    out !! 3 =
      Some (big_sum (2 * 1 + 1)
              (λ d, ir_taps (flat_store (2 * 1)) (2 * 1) !!! d
                    * past [1; 2; 3; 4]%R 3 (2 * 1 + d))%R).
Proof.
  eexists. split; [reflexivity|].
  apply (overlap_add_is_delayed_convolution 1 [1; 2; 3; 4]%R
           (flat_store (2 * 1)) _ 3).
  - lia.
  - unfold ir_store_ok. vm_compute. lia.
  - intros d Hd. rewrite flat_taps; [|lia|unfold fft_size_of; lia].
    apply decide_False. change (2 * 1 / 2) with 1. lia.
  - reflexivity.
  - simpl. lia.
Defined.

(** X11.  Round trip of the flat store: reading back the time-domain taps
    of what [create_flat_ir_frequency_domain filter_length (2 *
    filter_length)] wrote gives the unit impulse at [filter_length // 2] it
    started from. *)
Theorem flat_store_taps_are_the_impulse (filter_length d : nat)
    (ir_freq_domain : list R) :
  0 < filter_length →
  create_flat_ir_frequency_domain filter_length (filter_length * 2)
    = Some ir_freq_domain →
  d < filter_length * 2 →
  ir_taps ir_freq_domain filter_length !! d =
    <[filter_length / 2 := 1%R]> (replicate (filter_length * 2) 0%R) !! d.
Proof.
  intros HL Hir Hd.
  change (filter_length * 2) with (fft_size_of filter_length) in *.
  rewrite create_flat_store in Hir by done.
  apply (inj Some) in Hir. subst ir_freq_domain.
  rewrite !list_lookup_lookup_total_lt;
    rewrite ?length_insert, ?length_replicate; try done.
  2:{ unfold ir_taps, irfft. by rewrite length_fmap, length_seq. }
  f_equal. rewrite flat_taps by done.
  destruct (centre_lt filter_length HL) as [Hc HN].
  destruct (decide (d = filter_length / 2)) as [->|Hne].
  - rewrite list_lookup_total_insert_eq; [done|].
    rewrite length_replicate. lia.
  - rewrite list_lookup_total_insert_ne by done.
    by rewrite lookup_total_replicate_2.
Qed.

Lemma flat_store_taps_are_the_impulse_witness :
  ∃ ir,
    create_flat_ir_frequency_domain 2 (2 * 2) = Some ir ∧
    ir_taps ir 2 !! 1 = <[2 / 2 := 1%R]> (replicate (2 * 2) 0%R) !! 1.
Proof.
  eexists. split; [reflexivity|].
  eapply (flat_store_taps_are_the_impulse 2 1).
  - lia.
  - reflexivity.
  - lia.
Defined.

(** ** What the spectral step reads from the store *)

Lemma spectral_eq_of_at (ir1 ir2 : list R) (L : nat) (x : list R) :
  (∀ i, i < fft_size_of L → spectral_at ir1 L x i = spectral_at ir2 L x i) →
  spectral ir1 L x = spectral ir2 L x.
Proof.
  intros Hat. apply list_eq_same_length with (fft_size_of L);
    try apply spectral_length.
  intros i u v Hi Hu Hv.
  apply list_lookup_total_correct in Hu, Hv.
  rewrite spectral_lookup in Hu, Hv by done. rewrite <- Hu, <- Hv.
  by apply Hat.
Qed.

Section RunExt.
Variables tr1 tr2 : list R → list R.
Variable compensate : R → R.
Variable L : nat.
Hypothesis tr_ext : ∀ x, tr1 x = tr2 x.

Lemma run_ext (xs : list R) :
  run tr1 compensate L xs = run tr2 compensate L xs.
Proof.
  induction xs as [|x xs IH] using rev_ind; [done|].
  rewrite !run_snoc, IH.
  assert (∀ st, step tr1 compensate L st x = step tr2 compensate L st x) as Hs.
  { intros st. unfold step, process_block. by rewrite tr_ext. }
  by rewrite Hs.
Qed.

End RunExt.

Section Bins.
Variable L : nat.
Hypothesis L_pos : 0 < L.

Lemma edge_bin_sines (k m : nat) :
  k = 0 ∨ k = L → sin (omega (fft_size_of L) k m) = 0%R.
Proof.
  intros [->| ->].
  - unfold omega. simpl INR.
    replace (2 * PI * 0 * INR m / INR (fft_size_of L))%R with 0%R
      by (unfold Rdiv; ring).
    apply sin_0.
  - rewrite (omega_scale L L_pos), (half_turns L L_pos).
    apply sin_eq_0_1. exists (Z.of_nat m). by rewrite INR_IZR_INZ.
Qed.

Lemma spectral_at_same_bins (ir1 ir2 x : list R) (i : nat) :
  same_bins ir1 ir2 L → spectral_at ir1 L x i = spectral_at ir2 L x i.
Proof.
  intros (H0 & HL & Hmid). unfold spectral_at. cbn zeta. f_equal.
  apply big_sum_ext. intros k Hk.
  destruct (decide (k = 0 ∨ k = L)) as [Hedge|Hin].
  - unfold rfft_bin, cmul. cbn [fst snd].
    rewrite (big_sum_vanish _ (λ m, x !!! m * sin _)%R)
      by (intros m _; rewrite edge_bin_sines by done; lra).
    rewrite (edge_bin_sines k i Hedge).
    assert (ir1 !!! (2 * k) = ir2 !!! (2 * k)) as ->
      by (destruct Hedge as [->| ->]; done).
    ring.
  - destruct (Hmid k ltac:(lia)) as [-> ->]. done.
Qed.

Lemma unit_taps (ir : list R) (d : nat) :
  (∀ k, k ≤ L → ir !!! (2 * k) = 1%R ∧ ir !!! (2 * k + 1) = 0%R) →
  d < fft_size_of L →
  ir_taps ir L !!! d = if decide (d = 0) then 1%R else 0%R.
Proof.
  intros Hir Hd. rewrite (ir_taps_lookup L) by done.
  assert (big_sum (L + 1)
            (λ k, bin_weight (fft_size_of L) k *
                  (ir !!! (2 * k)%nat * cos (omega (fft_size_of L) k d)
                   - ir !!! (2 * k + 1)%nat * sin (omega (fft_size_of L) k d)))
          / INR (fft_size_of L) = dirichlet L d)%R as ->.
  { unfold dirichlet. f_equal. apply big_sum_ext. intros k Hk.
    destruct (Hir k ltac:(lia)) as [-> ->]. ring. }
  case_decide as Hd0.
  - subst d. apply dirichlet_on; [done|]. apply Nat.Div0.mod_0_l.
  - apply dirichlet_off; [done|]. rewrite Nat.mod_small by done. done.
Qed.

End Bins.

(** X12.  The transforms are normalised so that a round trip is the
    identity: with a store whose bins [0 .. filter_length] are all [1 + 0j],
    the spectral step returns the block it was given. *)
Theorem unit_store_returns_the_block (ir_freq_domain fft_buffer : list R)
    (filter_length : nat) :
  0 < filter_length →
  ir_store_ok ir_freq_domain filter_length →
  (∀ k, k ≤ filter_length →
        ir_freq_domain !!! (2 * k) = 1%R ∧ ir_freq_domain !!! (2 * k + 1) = 0%R) →
  length fft_buffer = fft_size_of filter_length →
  spectral ir_freq_domain filter_length fft_buffer = fft_buffer.
Proof.
  intros HL _ Hir Hlen. set (N := fft_size_of filter_length) in *.
  assert (0 < N) as HN by (unfold N, fft_size_of; lia).
  apply list_eq_same_length with N; [done|apply spectral_length|].
  intros i u v Hi Hu Hv.
  apply list_lookup_total_correct in Hu, Hv.
  rewrite spectral_lookup in Hu by done.
  rewrite spectral_at_convolution in Hu by done. fold N in Hu.
  rewrite <- Hu, <- Hv.
  rewrite (big_sum_single N i); [|done|].
  - replace (i + N - i) with (1 * N) by lia.
    rewrite Nat.Div0.mod_mul, (unit_taps filter_length HL) by done.
    rewrite decide_True by done. lra.
  - intros m Hm Hne.
    rewrite (unit_taps filter_length HL)
      by (try done; apply Nat.mod_upper_bound; lia).
    rewrite decide_False; [lra|]. fold N. intros Hz.
    apply Nat.Lcm0.mod_divide in Hz as [q Hq].
    destruct q as [|[|q]]; nia.
Qed.

Lemma unit_store_returns_the_block_witness :
  spectral [1; 0; 1; 0; 1; 0]%R 2 [5; 7; 0; 0]%R = [5; 7; 0; 0]%R.
Proof.
  apply (unit_store_returns_the_block [1; 0; 1; 0; 1; 0]%R [5; 7; 0; 0]%R 2).
  - lia.
  - unfold ir_store_ok. simpl. lia.
  - intros [|[|[|k]]] Hk; try lia; split; reflexivity.
  - reflexivity.
Defined.

(** X13.  The output depends on the store only through the real parts of
    its DC and Nyquist bins and both parts of the bins in between: the
    imaginary parts of bins [0] and [filter_length], and every entry after
    bin [filter_length], are ignored. *)
Theorem output_depends_on_used_bins (input_signal ir1 ir2 : list R)
    (filter_length : nat) :
  0 < filter_length →
  ir_store_ok ir1 filter_length → ir_store_ok ir2 filter_length →
  same_bins ir1 ir2 filter_length →
  process_overlap_add input_signal ir1 filter_length
    = process_overlap_add input_signal ir2 filter_length.
Proof.
  intros HL _ _ Hsame. unfold process_overlap_add, process.
  destruct input_signal as [|x xs]; [done|].
  case_decide; [done|]. f_equal. f_equal.
  apply run_ext. intros fb. apply spectral_eq_of_at. intros i _.
  by apply spectral_at_same_bins.
Qed.

Lemma output_depends_on_used_bins_witness :
  process_overlap_add [1; 2; 3]%R [1; 0; 0; -1; -1; 0; 0; 0]%R 2
    = process_overlap_add [1; 2; 3]%R [1; 9; 0; -1; -1; 4; 7; 7]%R 2.
Proof.
  apply (output_depends_on_used_bins [1; 2; 3]%R
           [1; 0; 0; -1; -1; 0; 0; 0]%R [1; 9; 0; -1; -1; 4; 7; 7]%R 2).
  - lia.
  - unfold ir_store_ok. simpl. lia.
  - unfold ir_store_ok. simpl. lia.
  - split; [reflexivity|]. split; [reflexivity|].
    intros k Hk. assert (k = 1) as -> by lia. split; reflexivity.
Defined.

(** ** The checked loop agrees with the total one *)

Lemma for_each_returns {S A : Type} (P : S → Prop) (body : S → A → outcome S)
    (pure : S → A → S) (l : list A) (s : S) :
  P s →
  (∀ s a, P s → a ∈ l → body s a = Returns (pure s a) ∧ P (pure s a)) →
  for_each body s l = Returns (foldl pure s l) ∧ P (foldl pure s l).
Proof.
  revert s. induction l as [|a l IH]; intros s Hs Hbody; [done|].
  destruct (Hbody s a Hs) as [E HP]; [left|].
  cbn [for_each foldl]. rewrite E. apply IH; [done|].
  intros s' a' Hs' Hin. apply Hbody; [done | by right].
Qed.

Lemma for_each_raises {S A : Type} (body : S → A → outcome S) (e : error)
    (s : S) (a : A) (l : list A) :
  body s a = Raises e → for_each body s (a :: l) = Raises e.
Proof. intros E. cbn [for_each]. by rewrite E. Qed.

Lemma item_in_range (a : list R) (i : nat) :
  i < length a → item a i = Returns (a !!! i).
Proof.
  intros Hi. unfold item.
  destruct (lookup_lt_is_Some_2 a i Hi) as [x Hx].
  rewrite Hx. f_equal. symmetry. by apply list_lookup_total_correct.
Qed.

Lemma set_item_in_range (a : list R) (i : nat) (x : R) :
  i < length a → set_item a i x = Returns (<[i := x]> a).
Proof. intros Hi. unfold set_item. by rewrite decide_True. Qed.

Lemma modulo_positive (a m : nat) : 0 < m → modulo a m = Returns (a mod m).
Proof. intros Hm. unfold modulo. rewrite decide_False by lia. done. Qed.

Lemma gather_fill (g : nat → R) (F L : nat) :
  L ≤ F →
  foldl (λ buf j, <[j := g j]> buf) (replicate F 0%R) (seq 0 L)
    = (g <$> seq 0 L) ++ replicate (F - L) 0%R.
Proof.
  induction L as [|L IH]; intros HL.
  - simpl. by rewrite Nat.sub_0_r.
  - rewrite seq_S, foldl_snoc, IH by lia. simpl.
    rewrite fmap_app. simpl.
    replace (F - L) with (S (F - S L)) by lia. simpl.
    rewrite <- (Nat.add_0_r L) at 1.
    replace L with (length (g <$> seq 0 L)) at 1
      by (by rewrite length_fmap, length_seq).
    rewrite insert_app_r. simpl. by rewrite <- app_assoc.
Qed.

Ltac checked_ops :=
  repeat (first [ rewrite modulo_positive by lia
                | rewrite item_in_range by (rewrite ?length_insert; lia)
                | rewrite set_item_in_range by (rewrite ?length_insert; lia) ];
          cbn [mbind outcome_bind]).

Section CheckedLoops.
Variable L : nat.
Hypothesis L_pos : 0 < L.

Let M := fft_size_of L * 2.

Lemma gather_checked_ok (ia : list R) (iwp : nat) :
  length ia = L →
  gather_checked L ia iwp = Returns (gather L ia iwp).
Proof.
  intros Hia. unfold gather_checked, gather.
  rewrite <- (gather_fill (λ j, ia !!! gather_idx L iwp j))
    by (unfold fft_size_of; lia).
  apply (for_each_returns (λ buf, length buf = fft_size_of L)).
  - by rewrite length_replicate.
  - intros buf j Hbuf Hj. apply elem_of_seq in Hj.
    rewrite decide_False by lia.
    rewrite item_in_range.
    2:{ rewrite gather_idx_eq, Hia. apply Nat.mod_upper_bound. lia. }
    cbn [mbind outcome_bind]. rewrite set_item_in_range by (rewrite Hbuf; unfold fft_size_of; lia).
    split; [done|]. by rewrite length_insert.
Qed.

Lemma overlap_add_checked_ok (orp : nat) (ty oa : list R) :
  length oa = M → length ty = fft_size_of L →
  overlap_add_checked L orp ty oa = Returns (overlap_add L orp ty oa).
Proof.
  intros Hoa Hty. unfold overlap_add_checked, overlap_add.
  apply (for_each_returns (λ acc, length acc = M)); [done|].
  intros acc j Hacc Hj. apply elem_of_seq in Hj.
  assert (0 < M) as HM by (unfold M, fft_size_of; lia).
  assert ((orp + j) mod M < M) as Hlt by (by apply Nat.mod_upper_bound; lia).
  fold M. checked_ops.
  split; [done|]. by rewrite length_insert.
Qed.

Lemma drain_checked_ok (orp dwp : nat) (dl oa : list R) :
  length dl = M → length oa = M → dwp < M →
  drain_checked L orp (dl, oa, dwp) = Returns (drain halve L orp (dl, oa, dwp)).
Proof.
  intros Hdl Hoa Hdwp. unfold drain_checked, drain.
  apply (for_each_returns
           (λ s : list R * list R * nat,
              length s.1.1 = M ∧ length s.1.2 = M ∧ s.2 < M)); [done|].
  intros [[dl' oa'] dwp'] j (Hdl' & Hoa' & Hdwp') Hj. cbn [fst snd] in *.
  assert (0 < M) as HM by (unfold M, fft_size_of; lia).
  assert ((orp + j) mod M < M) as Hlt by (by apply Nat.mod_upper_bound; lia).
  unfold drain_one_checked, drain_one. fold M. checked_ops.
  split; [done|]. cbn [fst snd]. rewrite !length_insert.
  repeat split; try done. apply Nat.mod_upper_bound. lia.
Qed.

End CheckedLoops.

(** ** Lines 88-89: which stores are accepted *)

Lemma every_other_length (start : nat) (a : list R) :
  length (every_other start a) = (length a + 1 - start) / 2.
Proof. unfold every_other. by rewrite length_fmap, length_seq. Qed.

Lemma broadcast_same_length {A B C : Type} (f : A → B → C) xs ys :
  length xs = length ys → broadcast f xs ys = Returns (zip_with f xs ys).
Proof. intros E. unfold broadcast. by rewrite decide_True. Qed.

Lemma broadcast_stretch_r {A B C : Type} (f : A → B → C) xs y :
  broadcast f xs [y] = Returns (zip_with f xs (replicate (length xs) y)).
Proof.
  assert (∀ l : list A, (λ x, f x y) <$> l = zip_with f l (replicate (length l) y))
    as Hmap.
  { induction l as [|x l IH]; [done|]. csimpl. by rewrite IH. }
  unfold broadcast. destruct xs as [|x [|x' xs]].
  - done.
  - done.
  - rewrite decide_False by (simpl; lia). f_equal. apply Hmap.
Qed.

(** What [broadcast] returns has the stretched length, and it raises
    exactly when the lengths differ and neither is 1. *)
Lemma broadcast_shape {A B C : Type} (f : A → B → C) xs ys :
  match broadcast f xs ys with
  | Returns r =>
      length r = (if decide (length xs = 1) then length ys else length xs) ∧
      (length xs = length ys ∨ length xs = 1 ∨ length ys = 1)
  | Raises e =>
      e = ValueError ∧
      length xs ≠ length ys ∧ length xs ≠ 1 ∧ length ys ≠ 1
  end.
Proof.
  unfold broadcast. case_decide as E.
  - rewrite length_zip_with. case_decide; split; lia.
  - destruct xs as [|x [|x' xs]]; destruct ys as [|y [|y' ys]];
      simpl in *; rewrite ?length_fmap; simpl;
      repeat split; try lia; try done; auto.
Qed.

Lemma rfft_checked_ok (a : list R) (n : nat) :
  0 < n → rfft_checked a n = Returns (rfft a n).
Proof. intros Hn. unfold rfft_checked. by rewrite decide_False by lia. Qed.

Lemma irfft_checked_ok (a : list (R * R)) (n : nat) :
  0 < n → irfft_checked a n = Returns (irfft a n).
Proof. intros Hn. unfold irfft_checked. by rewrite decide_False by lia. Qed.

Lemma take_every_other (start n : nat) (a : list R) :
  n ≤ (length a + 1 - start) / 2 →
  take n (every_other start a) = (λ k, a !!! (start + 2 * k)) <$> seq 0 n.
Proof.
  intros Hn. unfold every_other.
  rewrite <- fmap_take, take_seq. by rewrite Nat.min_l.
Qed.

(** A store of at least [n] bins is read as [ir_complex] reads it. *)
Lemma ir_complex_checked_ok (ir : list R) (n : nat) :
  n * 2 ≤ length ir → ir_complex_checked ir n = Returns (ir_complex ir n).
Proof.
  intros Hlen. unfold ir_complex_checked, ir_complex.
  rewrite !take_every_other.
  2,3: apply Nat.div_le_lower_bound; lia.
  rewrite broadcast_same_length by (by rewrite !length_fmap).
  f_equal. rewrite zip_with_fmap_l, zip_with_fmap_r, zip_with_diag.
  apply list_fmap_ext. intros i k _. simpl. f_equal. f_equal. lia.
Qed.

Section Spectral.
Variable L : nat.
Hypothesis L_pos : 0 < L.

Let F := fft_size_of L.

Lemma bins_of_frame (fb : list R) : length (rfft fb F) = L + 1.
Proof.
  rewrite rfft_length. unfold F, fft_size_of.
  by rewrite Nat.div_mul by lia.
Qed.

(** Lines 85-92 on a store that lines 88-89 accept: the spectral step with
    some [filter_length + 1] bins, those of the store when it holds them. *)
Lemma spectral_checked_accepts (ir : list R) :
  store_shape_ok (length ir) L →
  ∃ bins, length bins = L + 1 ∧
    ((L + 1) * 2 ≤ length ir → bins = ir_complex ir (L + 1)) ∧
    ∀ fb, spectral_checked ir L fb
          = Returns (irfft (zip_with cmul (rfft fb F) bins) F).
Proof.
  assert (0 < F) as HF by (unfold F, fft_size_of; lia).
  intros [Hok|[Hone|[HL Hthree]]].
  - exists (ir_complex ir (L + 1)). split; [|split; [done|]].
    { unfold ir_complex. by rewrite length_fmap, length_seq. }
    intros fb. unfold spectral_checked. fold F.
    rewrite rfft_checked_ok by done. cbn [mbind outcome_bind].
    rewrite bins_of_frame, ir_complex_checked_ok by done.
    cbn [mbind outcome_bind].
    rewrite broadcast_same_length.
    2:{ unfold ir_complex. by rewrite bins_of_frame, length_fmap, length_seq. }
    cbn [mbind outcome_bind]. by apply irfft_checked_ok.
  - destruct ir as [|x [|y [|z ir]]]; simpl in Hone; try lia.
    exists (replicate (L + 1) (x, y)). split; [|split].
    { by rewrite length_replicate. }
    { simpl. lia. }
    intros fb. unfold spectral_checked. fold F.
    rewrite rfft_checked_ok by done. cbn [mbind outcome_bind].
    rewrite bins_of_frame.
    replace (ir_complex_checked [x; y] (L + 1)) with (Returns [(x, y)]).
    2:{ unfold ir_complex_checked, every_other.
        replace (L + 1) with (S L) by lia. simpl. by rewrite !take_nil. }
    cbn [mbind outcome_bind].
    rewrite broadcast_stretch_r, bins_of_frame. cbn [mbind outcome_bind].
    by apply irfft_checked_ok.
  - destruct ir as [|x [|y [|z [|w ir]]]]; simpl in Hthree; try lia.
    exists [(x, y); (z, y)]. split; [|split].
    { simpl. lia. }
    { simpl. lia. }
    intros fb. unfold spectral_checked. fold F.
    rewrite rfft_checked_ok by done. cbn [mbind outcome_bind].
    rewrite bins_of_frame.
    replace (ir_complex_checked [x; y; z] (L + 1)) with (Returns [(x, y); (z, y)]).
    2:{ unfold ir_complex_checked, every_other. subst L. reflexivity. }
    cbn [mbind outcome_bind].
    rewrite broadcast_same_length by (rewrite bins_of_frame; simpl; lia).
    cbn [mbind outcome_bind]. by apply irfft_checked_ok.
Qed.

(** Any other store makes line 88 or line 89 raise, whatever the frame. *)
Lemma spectral_checked_rejects (ir fb : list R) :
  ¬ store_shape_ok (length ir) L →
  spectral_checked ir L fb = Raises ValueError.
Proof.
  assert (0 < F) as HF by (unfold F, fft_size_of; lia).
  intros Hbad. unfold spectral_checked. fold F.
  rewrite rfft_checked_ok by done. cbn [mbind outcome_bind].
  rewrite bins_of_frame. unfold ir_complex_checked.
  pose proof (broadcast_shape (λ re im : R, (re, im))
                (take (L + 1) (every_other 0 ir))
                (take (L + 1) (every_other 1 ir))) as Hshape.
  destruct (broadcast _ _ _) as [bins|e]; cbn [mbind outcome_bind].
  2:{ by destruct Hshape as [-> _]. }
  pose proof (broadcast_shape cmul (rfft fb F) bins) as Hshape2.
  destruct (broadcast cmul _ _) as [r|e]; cbn [mbind outcome_bind].
  2:{ by destruct Hshape2 as [-> _]. }
  exfalso. apply Hbad. unfold store_shape_ok.
  rewrite bins_of_frame in Hshape2.
  rewrite !length_take, !every_other_length in Hshape.
  destruct Hshape as [Hlen Hcase]. destruct Hshape2 as [_ Hcase2].
  rewrite Hlen in Hcase2. clear Hlen.
  set (len := length ir) in *.
  pose proof (Nat.div_mod_eq (len + 1 - 0) 2) as E0.
  pose proof (Nat.mod_upper_bound (len + 1 - 0) 2) as B0.
  pose proof (Nat.div_mod_eq (len + 1 - 1) 2) as E1.
  pose proof (Nat.mod_upper_bound (len + 1 - 1) 2) as B1.
  case_decide; lia.
Qed.

End Spectral.

(** ** The checked sample loop *)

Section CheckedRun.
Variable L : nat.
Hypothesis L_pos : 0 < L.
Variable ir : list R.

Let F := fft_size_of L.
Let M := accum_size L.

Lemma push_checked_ok st x :
  wf L st → push_checked L st x = Returns (push L st x).
Proof.
  intros [? ? ? ? ? ? ?]. unfold push_checked, push. by checked_ops.
Qed.

Lemma read_out_checked_ok st :
  wf L st → read_out_checked L st = Returns (read_out L st).
Proof.
  intros [? ? ? ? ? ? ?]. unfold accum_size in *.
  unfold read_out_checked, read_out. by checked_ops.
Qed.

Lemma process_block_checked_ok (t : list R → list R) st :
  wf L st →
  (∀ fb, spectral_checked ir L fb = Returns (t fb)) →
  (∀ fb, length (t fb) = F) →
  process_block_checked ir L st = Returns (process_block t halve L st).
Proof.
  intros [? ? ? ? ? ? ?] Ht Hlen. unfold accum_size in *.
  unfold process_block_checked, process_block.
  rewrite gather_checked_ok by done. cbn [mbind outcome_bind].
  rewrite Ht. cbn [mbind outcome_bind].
  rewrite overlap_add_checked_ok by (try done; apply Hlen).
  cbn [mbind outcome_bind].
  destruct (overlap_add_spec L L_pos (output_read_pos st)
              (t (gather L (input_accum st) (input_write_pos st)))
              (output_accum st)) as [Hoa _]; [done|].
  rewrite drain_checked_ok by done. cbn [mbind outcome_bind].
  destruct (drain halve L _ _) as [[dl oa'] dwp].
  by checked_ops.
Qed.

Lemma process_block_checked_rejects st :
  wf L st → ¬ store_shape_ok (length ir) L →
  process_block_checked ir L st = Raises ValueError.
Proof.
  intros [? ? ? ? ? ? ?] Hbad. unfold process_block_checked.
  rewrite gather_checked_ok by done. cbn [mbind outcome_bind].
  by rewrite spectral_checked_rejects.
Qed.

(** An iteration that runs no block does not look at the store. *)
Lemma step_checked_idle (t : list R → list R) st out x :
  wf L st → triggers L (push L st x) = false →
  step_checked ir L (st, out) x =
    Returns (let '(st', y) := step t halve L st x in (st', out ++ [y])).
Proof.
  intros Hwf Hidle. unfold step_checked, step. cbn [fst snd].
  rewrite push_checked_ok by done. cbn [mbind outcome_bind].
  rewrite Hidle. cbn [mbind outcome_bind].
  rewrite read_out_checked_ok by (by apply push_wf). done.
Qed.

Lemma step_checked_ok (t : list R → list R) st out x :
  wf L st →
  (∀ fb, spectral_checked ir L fb = Returns (t fb)) →
  (∀ fb, length (t fb) = F) →
  step_checked ir L (st, out) x =
    Returns (let '(st', y) := step t halve L st x in (st', out ++ [y])).
Proof.
  intros Hwf Ht Hlen.
  destruct (triggers L (push L st x)) eqn:Htr; [|by apply step_checked_idle].
  unfold step_checked, step. cbn [fst snd].
  rewrite push_checked_ok by done. cbn [mbind outcome_bind].
  rewrite Htr. rewrite (process_block_checked_ok t) by (try done; by apply push_wf).
  cbn [mbind outcome_bind].
  rewrite read_out_checked_ok.
  { cbn [mbind outcome_bind]. by destruct (read_out L _). }
  apply (process_block_spec t halve L L_pos (push L st x)). by apply push_wf.
Qed.

Lemma step_checked_rejects st out x :
  wf L st → ¬ store_shape_ok (length ir) L →
  triggers L (push L st x) = true →
  step_checked ir L (st, out) x = Raises ValueError.
Proof.
  intros Hwf Hbad Htr. unfold step_checked. cbn [fst snd].
  rewrite push_checked_ok by done. cbn [mbind outcome_bind].
  rewrite Htr, process_block_checked_rejects by (try done; by apply push_wf).
  done.
Qed.

(** With an accepted store the checked loop is the total loop. *)
Lemma run_checked_ok (t : list R → list R) s input :
  wf L s.1 →
  (∀ fb, spectral_checked ir L fb = Returns (t fb)) →
  (∀ fb, length (t fb) = F) →
  run_checked_from ir L s input = Returns (run_from t halve L s input).
Proof.
  intros Hwf Ht Hlen. unfold run_checked_from, run_from.
  apply (for_each_returns (λ s : engine * list R, wf L s.1)); [done|].
  intros [st out] x Hst _. cbn [fst] in Hst.
  rewrite (step_checked_ok t) by done.
  split; [done|].
  pose proof (step_wf t halve L L_pos st x Hst) as Hwf'.
  by destruct (step t halve L st x).
Qed.

(** With a store that lines 88-89 reject, the loop runs until the first
    block is due and raises there. *)
Lemma run_checked_rejects (t : list R → list R) s input :
  wf L s.1 → ¬ store_shape_ok (length ir) L →
  samples_in_buffer s.1 < hop_size_of L `max` 1 →
  run_checked_from ir L s input =
    if decide (hop_size_of L `max` 1 ≤ samples_in_buffer s.1 + length input)
    then Raises ValueError
    else Returns (run_from t halve L s input).
Proof.
  intros Hwf Hbad. revert s Hwf.
  induction input as [|x xs IH]; intros [st out] Hwf Hc; cbn [fst] in *.
  - rewrite decide_False by (simpl; lia). done.
  - unfold run_checked_from, run_from. cbn [for_each foldl length].
    destruct (triggers L (push L st x)) eqn:Htr.
    + rewrite step_checked_rejects by done. cbn [mbind outcome_bind].
      rewrite decide_True; [done|].
      unfold triggers in Htr. apply bool_decide_eq_true in Htr. simpl in Htr. lia.
    + rewrite (step_checked_idle t) by done. cbn [mbind outcome_bind].
      pose proof (step_wf t halve L L_pos st x Hwf) as Hwf'.
      assert (samples_in_buffer (step t halve L st x).1
              = samples_in_buffer st + 1) as Hsib.
      { unfold step. rewrite Htr. done. }
      unfold triggers in Htr. apply bool_decide_eq_false in Htr. simpl in Htr.
      destruct (step t halve L st x) as [st' y]. cbn [fst] in *.
      fold (run_checked_from ir L (st', out ++ [y]) xs).
      rewrite IH by (cbn [fst]; try done; lia). cbn [fst].
      rewrite Hsib. unfold run_from.
      destruct (decide (_ ≤ samples_in_buffer st + 1 + length xs));
        [rewrite decide_True by lia | rewrite decide_False by lia]; done.
Qed.

End CheckedRun.

(** ** The outcomes of [process_overlap_add] *)

Lemma spectral_checked_ok (ir fb : list R) (L : nat) :
  0 < L → ir_store_ok ir L →
  spectral_checked ir L fb = Returns (spectral ir L fb).
Proof.
  intros HL Hok.
  destruct (spectral_checked_accepts L HL ir) as (bins & _ & Hbins & Hsp).
  { by left. }
  rewrite Hsp, (Hbins Hok). unfold spectral.
  by rewrite (bins_of_frame L HL).
Qed.

Lemma spectral_frame_length (ir fb : list R) (L : nat) :
  length (spectral ir L fb) = fft_size_of L.
Proof. unfold spectral, irfft. by rewrite length_fmap, length_seq. Qed.

Lemma process_checked_empty (ir : list R) (L : nat) :
  process_overlap_add_checked [] ir L = Returns [].
Proof. done. Qed.

Lemma process_checked_no_buffer (x : R) (xs ir : list R) :
  process_overlap_add_checked (x :: xs) ir 0 = Raises IndexError.
Proof. done. Qed.

Lemma process_checked_accepts (ir : list R) (L : nat) :
  0 < L → store_shape_ok (length ir) L →
  ∃ t : list R → list R,
    (ir_store_ok ir L → t = spectral ir L) ∧
    ∀ input, process_overlap_add_checked input ir L
             = Returns (run t halve L input).2.
Proof.
  intros HL Hshape.
  destruct (spectral_checked_accepts L HL ir Hshape) as (bins & _ & Hbins & Hsp).
  destruct (decide ((L + 1) * 2 ≤ length ir)) as [Hok|Hno].
  - exists (spectral ir L). split; [done|]. intros input.
    unfold process_overlap_add_checked.
    rewrite (run_checked_ok L HL ir (spectral ir L)).
    + done.
    + by apply init_wf.
    + intros fb. by apply spectral_checked_ok.
    + intros fb. apply spectral_frame_length.
  - exists (λ fb, irfft (zip_with cmul (rfft fb (fft_size_of L)) bins)
                    (fft_size_of L)).
    split; [done|]. intros input.
    unfold process_overlap_add_checked.
    rewrite (run_checked_ok L HL ir
               (λ fb, irfft (zip_with cmul (rfft fb (fft_size_of L)) bins)
                        (fft_size_of L))).
    + done.
    + by apply init_wf.
    + done.
    + intros fb. unfold irfft. by rewrite length_fmap, length_seq.
Qed.

Lemma process_checked_rejects (input ir : list R) (L : nat) :
  0 < L → ¬ store_shape_ok (length ir) L →
  process_overlap_add_checked input ir L =
    if decide (input ≠ [] ∧ hop_size_of L ≤ length input)
    then Raises ValueError
    else Returns (run (spectral ir L) halve L input).2.
Proof.
  intros HL Hbad. unfold process_overlap_add_checked.
  rewrite (run_checked_rejects L HL ir (spectral ir L));
    [|by apply init_wf|done|simpl; lia].
  cbn [fst init_engine samples_in_buffer].
  destruct input as [|x xs].
  - rewrite decide_False by (simpl; lia).
    rewrite decide_False by (by intros [? _]). done.
  - destruct (decide (hop_size_of L ≤ length (x :: xs))) as [Hh|Hh].
    + rewrite !decide_True; [done|done|simpl in *; lia].
    + rewrite !decide_False; [done|by intros [_ ?]|simpl in *; lia].
Qed.

(** X3.  What [process_overlap_add] does on every input, every store and
    every filter length.  It raises [IndexError] exactly when
    [filter_length] is 0 and there is a sample to store (line 71).  It
    raises [ValueError] exactly when [filter_length >= 1], the input is long
    enough for a first block to run, and the store has none of the lengths
    that the broadcasting of lines 88-89 accepts.  No [%] ever divides by
    zero.  Whenever it returns, it returns one output sample per input
    sample. *)
Theorem process_overlap_add_outcome (input_signal ir_freq_domain : list R)
    (filter_length : nat) :
  (process_overlap_add_checked input_signal ir_freq_domain filter_length
     = Raises IndexError
   ↔ filter_length = 0 ∧ input_signal ≠ []) ∧
  (process_overlap_add_checked input_signal ir_freq_domain filter_length
     = Raises ValueError
   ↔ 0 < filter_length ∧ input_signal ≠ [] ∧
     hop_size_of filter_length ≤ length input_signal ∧
     ¬ store_shape_ok (length ir_freq_domain) filter_length) ∧
  process_overlap_add_checked input_signal ir_freq_domain filter_length
    ≠ Raises ZeroDivisionError ∧
  (∀ out,
     process_overlap_add_checked input_signal ir_freq_domain filter_length
       = Returns out →
     length out = length input_signal).
Proof.
  destruct input_signal as [|x xs] eqn:E.
  { rewrite process_checked_empty.
    repeat split; try done; try (by intros (? & ? & _)); try (by intros [_ ?]).
    by intros out [= <-]. }
  destruct (decide (filter_length = 0)) as [->|HL].
  { rewrite process_checked_no_buffer.
    repeat split; try done. intros (? & _). lia. }
  rewrite <- E.
  destruct (decide (store_shape_ok (length ir_freq_domain) filter_length))
    as [Hshape|Hbad].
  - destruct (process_checked_accepts ir_freq_domain filter_length)
      as (t & _ & Ht); [lia|done|].
    rewrite Ht.
    repeat split; try done; try (by intros (? & ? & ? & ?)); try (intros [? _]; lia).
    intros out [= <-]. apply run_length.
  - rewrite process_checked_rejects by (try done; lia).
    case_decide as Hdue.
    + repeat split; try done; try tauto; try lia.
    + repeat split; try done; try (intros [? _]; lia).
      * intros (_ & ? & ? & _). tauto.
      * intros out [= <-]. apply run_length.
Qed.

Lemma process_overlap_add_outcome_witness :
  process_overlap_add_checked [1; 2]%R [1; 0; 1; 0]%R 2 = Raises ValueError.
Proof.
  apply (process_overlap_add_outcome [1; 2]%R [1; 0; 1; 0]%R 2).
  unfold store_shape_ok, hop_size_of. simpl. repeat split; try lia; try done.
Defined.

(** X14.  On a store that holds the [filter_length + 1] bins, no statement
    of the checked function raises once the first sample is stored, and it
    returns the very output of the total model on which the other theorems
    are stated. *)
Theorem checked_agrees_on_full_store (input_signal ir_freq_domain : list R)
    (filter_length : nat) :
  ir_store_ok ir_freq_domain filter_length →
  process_overlap_add_checked input_signal ir_freq_domain filter_length =
    match process_overlap_add input_signal ir_freq_domain filter_length with
    | Some out => Returns out
    | None => Raises IndexError
    end.
Proof.
  intros Hok. unfold process_overlap_add, process.
  destruct input_signal as [|x xs] eqn:E; [done|].
  case_decide as HL.
  { subst filter_length. apply process_checked_no_buffer. }
  rewrite <- E.
  destruct (process_checked_accepts ir_freq_domain filter_length)
    as (t & Ht & Hrun); [lia|by left|].
  by rewrite Hrun, (Ht Hok).
Qed.

Lemma checked_agrees_on_full_store_witness :
  process_overlap_add_checked [1; 2; 3]%R [1; 0; 0; -1; -1; 0; 0; 0]%R 2 =
    match process_overlap_add [1; 2; 3]%R [1; 0; 0; -1; -1; 0; 0; 0]%R 2 with
    | Some out => Returns out
    | None => Raises IndexError
    end.
Proof.
  apply (checked_agrees_on_full_store [1; 2; 3]%R [1; 0; 0; -1; -1; 0; 0; 0]%R 2).
  unfold ir_store_ok. simpl. lia.
Defined.

(** X15.  A store configured for a transform size that does not exceed the
    filter length is not rejected by [create_flat_ir_frequency_domain]; it
    is rejected by the first block of [process_overlap_add], mid-stream.
    Whatever the two sizes, once configuration has returned a store,
    processing raises [ValueError] exactly when [conv_fft_size] is at most
    [filter_length] and not 1 and the input reaches a first block. *)
Theorem undersized_store_raises_mid_stream (input_signal store : list R)
    (filter_length conv_fft_size : nat) :
  create_flat_ir_frequency_domain filter_length conv_fft_size = Some store →
  (process_overlap_add_checked input_signal store filter_length
     = Raises ValueError
   ↔ 0 < filter_length ∧ conv_fft_size ≤ filter_length ∧ conv_fft_size ≠ 1 ∧
     input_signal ≠ [] ∧ hop_size_of filter_length ≤ length input_signal).
Proof.
  unfold create_flat_ir_frequency_domain. case_decide as Hc; [|done].
  intros Hs. apply (inj Some) in Hs.
  assert (length store = conv_fft_size * 2) as Hlen.
  { rewrite <- Hs. apply interleave_length. }
  unfold store_shape_ok in *.
  destruct input_signal as [|x xs] eqn:E.
  { rewrite process_checked_empty. split; [done|]. by intros (_ & _ & _ & ? & _). }
  destruct (decide (filter_length = 0)) as [->|HL].
  { rewrite process_checked_no_buffer. split; [done|]. intros (? & _). lia. }
  rewrite <- E.
  destruct (decide (store_shape_ok (length store) filter_length)) as [Hshape|Hbad].
  - destruct (process_checked_accepts store filter_length) as (t & _ & Ht);
      [lia|done|].
    rewrite Ht. split; [done|]. intros (? & ? & ? & _).
    unfold store_shape_ok in Hshape. lia.
  - rewrite process_checked_rejects by (try done; lia).
    unfold store_shape_ok in Hbad.
    case_decide as Hdue.
    + split; [|done]. intros _. repeat split; try tauto; lia.
    + split; [done|]. intros (_ & _ & _ & ? & ?). tauto.
Qed.

Lemma undersized_store_raises_mid_stream_witness :
  ∃ store,
    create_flat_ir_frequency_domain 4 4 = Some store ∧
    process_overlap_add_checked [1; 2]%R store 4 = Raises ValueError.
Proof.
  eexists. split; [reflexivity|].
  apply (undersized_store_raises_mid_stream [1; 2]%R _ 4 4); [reflexivity|].
  unfold hop_size_of. simpl. repeat split; try lia. done.
Defined.

(** C8, amended.  Configuration rejects no filter length for not being a
    power of two: [create_flat_ir_frequency_domain filter_length
    (2 * filter_length)] fails for [filter_length = 0] only, and for every
    other length it returns a store of [2 * conv_fft_size] entries (it takes
    no taps, so none can be too long).  With the store it returns, no error
    is surfaced while samples are processed: [process_overlap_add] returns
    one output sample per input sample, for every input. *)
Theorem configured_store_never_raises (input_signal : list R)
    (filter_length : nat) :
  (create_flat_ir_frequency_domain filter_length (filter_length * 2) = None
   ↔ filter_length = 0) ∧
  (∀ store,
     create_flat_ir_frequency_domain filter_length (filter_length * 2)
       = Some store →
     length store = filter_length * 2 * 2 ∧
     ∃ out,
       process_overlap_add_checked input_signal store filter_length
         = Returns out ∧
       length out = length input_signal).
Proof.
  destruct (decide (filter_length = 0)) as [->|HL].
  { split; [done|]. by intros store. }
  assert (0 < filter_length) as Hpos by lia.
  pose proof (create_flat_store filter_length Hpos) as Hstore.
  unfold fft_size_of in Hstore. rewrite Hstore.
  split; [split; [done|lia]|].
  intros store [= <-].
  assert (length (flat_store filter_length) = filter_length * 2 * 2) as Hlen'
    by apply interleave_length.
  split; [done|].
  assert (ir_store_ok (flat_store filter_length) filter_length) as Hok
    by (unfold ir_store_ok; lia).
  destruct (process_checked_accepts (flat_store filter_length) filter_length)
    as (t & _ & Hrun); [done|by left|].
  eexists. split; [apply Hrun|]. apply run_length.
Qed.

Lemma configured_store_never_raises_witness :
  ∃ store,
    create_flat_ir_frequency_domain 3 (3 * 2) = Some store ∧
    length store = 3 * 2 * 2 ∧
    ∃ out, process_overlap_add_checked [1; 2; 3]%R store 3 = Returns out ∧
           length out = length [1; 2; 3]%R.
Proof.
  eexists. split; [reflexivity|].
  apply (configured_store_never_raises [1; 2; 3]%R 3). reflexivity.
Defined.

(** ** Re-running *)

Lemma reset_overwrites (L : nat) (st : engine) : reset L st = init_engine L.
Proof. done. Qed.

(** The loop itself does read the variables it starts from: one sample of
    [filter_length = 4] runs no block and returns what slot 0 of the delay
    line held.  What makes a run reproducible is the assignments of lines
    55-64 that precede the loop. *)
Lemma loop_reads_its_variables :
  let stale := Engine (replicate 4 0%R) (replicate 16 0%R)
                 (5%R :: replicate 15 0%R) 0 0 2 0 0 in
  (∃ st, run_checked_from [] 4 (stale, []) [1%R] = Returns (st, [5%R])) ∧
  (∃ st, run_checked_from [] 4 (init_engine 4, []) [1%R] = Returns (st, [0%R])).
Proof. split; eexists; reflexivity. Qed.


